(** * OpenSCAD-to-mesh converter and STL exporter: a shallow embedding

    The development follows the TypeScript sources
    - [src/utils/openscadConverter.ts]  (module [Converter]),
    - the second copy of the converter that carries a variable table and
      block parsers (module [ConverterVars]),
    - [src/utils/stlExporter.ts]        (module [StlExporter]), with the
      scene tree and the world matrices three.js keeps (module
      [SceneGraph]),
    - [handleExportSTL] of the renderer component (module [Renderer]).

    JavaScript strings are modelled as [string] (one [ascii] per code unit,
    so only the ASCII white space of [\s] and [trim] is covered), regular
    expressions by a small backtracking matcher with the leftmost, greedy
    or lazy semantics of [String.prototype.match], and numbers by exact
    rationals extended with [NaN] and the two infinities: the rounding and
    overflow of IEEE doubles and the sign of zero are not modelled. *)

From Stdlib Require Import Ascii String QArith Lia.
From stdpp Require Import base option list strings gmap.

Local Open Scope char_scope.

(** ** JavaScript string primitives *)

Module Js.

(** The characters [\s] and [String.prototype.trim] remove. *)
Definition is_space (c : ascii) : bool :=
  match c with
  | " " | "009" | "010" | "011" | "012" | "013" => true
  | _ => false
  end.

Definition is_digit (c : ascii) : bool :=
  let n := nat_of_ascii c in (48 <=? n)%nat && (n <=? 57)%nat.

(** [\w] *)
Definition is_word (c : ascii) : bool :=
  let n := nat_of_ascii c in
  is_digit c || ((65 <=? n)%nat && (n <=? 90)%nat)
  || ((97 <=? n)%nat && (n <=? 122)%nat) || Ascii.eqb c "_".

Definition any_char (_ : ascii) : bool := true.

(** A negated class [[^...]] over the listed characters. *)
Definition none_of (cs : list ascii) (c : ascii) : bool :=
  negb (existsb (Ascii.eqb c) cs).

(** [s.startsWith(p)]; when it holds, also the text after [p]. *)
Fixpoint strip_prefix (p s : string) : option string :=
  match p with
  | EmptyString => Some s
  | String a p' =>
      match s with
      | EmptyString => None
      | String b s' => if Ascii.eqb a b then strip_prefix p' s' else None
      end
  end.

Definition startsWith (s p : string) : bool :=
  match strip_prefix p s with Some _ => true | None => false end.

(** [s.indexOf(p)], with [None] for -1. *)
Fixpoint indexOf (s p : string) : option nat :=
  if startsWith s p then Some 0%nat
  else match s with
       | EmptyString => None
       | String _ s' => S <$> indexOf s' p
       end.

Definition includes (s p : string) : bool :=
  match indexOf s p with Some _ => true | None => false end.

(** [s.substring(0, n)] *)
Definition substring_to (n : nat) (s : string) : string :=
  String.substring 0 n s.

(** [s.split(c)] for a one-character separator: never empty. *)
Fixpoint split (c : ascii) (s : string) : list string :=
  match s with
  | EmptyString => [EmptyString]
  | String a s' =>
      if Ascii.eqb a c then EmptyString :: split c s'
      else match split c s' with
           | w :: ws => String a w :: ws
           | [] => [String a EmptyString]
           end
  end.

(** [parts.join(sep)] *)
Fixpoint join (sep : string) (parts : list string) : string :=
  match parts with
  | [] => EmptyString
  | [w] => w
  | w :: ws => w +:+ sep +:+ join sep ws
  end.

Fixpoint trimStart (s : string) : string :=
  match s with
  | String c s' => if is_space c then trimStart s' else s
  | EmptyString => EmptyString
  end.

(** Removes trailing white space: a character is kept when it is not a
    space or when something is kept after it. *)
Fixpoint trimEnd (s : string) : string :=
  match s with
  | EmptyString => EmptyString
  | String c s' =>
      match trimEnd s' with
      | EmptyString => if is_space c then EmptyString else String c EmptyString
      | t => String c t
      end
  end.

Definition trim (s : string) : string := trimEnd (trimStart s).

End Js.

(** ** Regular expressions

    Only the constructs the sources use: literals, character classes and
    their greedy or lazy repetition, sequence, alternation, the optional
    group and numbered capture groups. *)

Module Regex.

Inductive regex : Type :=
| Eps
| Lit (s : string)
| Cls (p : ascii → bool)
| Star (p : ascii → bool)            (* [c*]  *)
| LazyStar (p : ascii → bool)        (* [c*?] *)
| Seq (r1 r2 : regex)
| Alt (r1 r2 : regex)
| Grp (i : nat) (r : regex).         (* the i-th capture group *)

Definition Plus (p : ascii → bool) : regex := Seq (Cls p) (Star p).
Definition Opt (r : regex) : regex := Alt r Eps.

Fixpoint cat (rs : list regex) : regex :=
  match rs with
  | [] => Eps
  | [r] => r
  | r :: rs' => Seq r (cat rs')
  end.

(** Capture slots: slot 0 is the whole match, slot [i] group [i];
    [None] is JavaScript's [undefined]. *)
Definition captures := list (option string).

Section Matcher.
Context {R : Type}.

(** Backtracking in continuation style: [k] is the rest of the pattern,
    tried on every way the head can match, longest first when greedy. *)
Fixpoint star_greedy (p : ascii → bool) (s : string)
         (k : string → option R) : option R :=
  match s with
  | String c s' =>
      if p c then
        match star_greedy p s' k with
        | Some r => Some r
        | None => k s
        end
      else k s
  | EmptyString => k s
  end.

Fixpoint star_lazy (p : ascii → bool) (s : string)
         (k : string → option R) : option R :=
  match k s with
  | Some r => Some r
  | None =>
      match s with
      | String c s' => if p c then star_lazy p s' k else None
      | EmptyString => None
      end
  end.

(** The text consumed between input [s] and its suffix [s']. *)
Definition consumed (s s' : string) : string :=
  Js.substring_to (String.length s - String.length s') s.

Fixpoint run (r : regex) (s : string) (caps : captures)
         (k : string → captures → option R) : option R :=
  match r with
  | Eps => k s caps
  | Lit l =>
      match Js.strip_prefix l s with
      | Some s' => k s' caps
      | None => None
      end
  | Cls p =>
      match s with
      | String c s' => if p c then k s' caps else None
      | EmptyString => None
      end
  | Star p => star_greedy p s (fun s' => k s' caps)
  | LazyStar p => star_lazy p s (fun s' => k s' caps)
  | Seq r1 r2 => run r1 s caps (fun s' caps' => run r2 s' caps' k)
  | Alt r1 r2 =>
      match run r1 s caps k with
      | Some x => Some x
      | None => run r2 s caps k
      end
  | Grp i r' =>
      run r' s caps (fun s' caps' => k s' (<[i := Some (consumed s s')]> caps'))
  end.
End Matcher.

(** A match anchored at the start of [s]: the captures (slot 0 filled)
    and the text after the match. *)
Definition exec_here (groups : nat) (r : regex) (s : string)
  : option (captures * string) :=
  run r s (replicate (S groups) None)
      (fun s' caps => Some (<[0%nat := Some (consumed s s')]> caps, s')).

(** The leftmost match: the text before it, the captures and the rest. *)
Fixpoint search (groups : nat) (r : regex) (s : string)
  : option (string * captures * string) :=
  match exec_here groups r s with
  | Some (caps, rest) => Some (EmptyString, caps, rest)
  | None =>
      match s with
      | EmptyString => None
      | String c s' =>
          match search groups r s' with
          | Some (pre, caps, rest) => Some (String c pre, caps, rest)
          | None => None
          end
      end
  end.

(** [s.match(r)] for a pattern without the [g] flag. *)
Definition str_match (groups : nat) (r : regex) (s : string) : option captures :=
  match search groups r s with
  | Some (_, caps, _) => Some caps
  | None => None
  end.

(** The text of the whole match, [m[0]]. *)
Definition whole (m : captures) : string := default EmptyString (mjoin (m !! 0%nat)).

(** The next search position after a match: an empty match advances by
    one character, as [lastIndex] does under the [g] flag. *)
Definition advance (m : captures) (rest : string) : string :=
  match whole m, rest with
  | EmptyString, String _ rest' => rest'
  | _, _ => rest
  end.

(** [s.matchAll(r)] for a pattern with the [g] flag. *)
Fixpoint matchAll_fuel (fuel groups : nat) (r : regex) (s : string) : list captures :=
  match fuel with
  | O => []
  | S fuel' =>
      match search groups r s with
      | Some (_, caps, rest) =>
          match whole caps, rest with
          | EmptyString, EmptyString => [caps]
          | _, _ => caps :: matchAll_fuel fuel' groups r (advance caps rest)
          end
      | None => []
      end
  end.

Definition matchAll (groups : nat) (r : regex) (s : string) : list captures :=
  matchAll_fuel (S (String.length s)) groups r s.

(** [s.replace(r, '')] for a pattern with the [g] flag. *)
Fixpoint remove_all_fuel (fuel : nat) (r : regex) (s : string) : string :=
  match fuel with
  | O => s
  | S fuel' =>
      match search 0 r s with
      | Some (pre, caps, rest) =>
          match whole caps, rest with
          | EmptyString, EmptyString => pre
          | EmptyString, String c rest' =>
              pre +:+ String c (remove_all_fuel fuel' r rest')
          | _, _ => pre +:+ remove_all_fuel fuel' r rest
          end
      | None => s
      end
  end.

Definition remove_all (r : regex) (s : string) : string :=
  remove_all_fuel (S (String.length s)) r s.

End Regex.

Import Regex.

(** ** Numbers *)

Module Num.

(** A JavaScript number: a rational kept in lowest terms, an infinity or
    [NaN]. *)
Inductive num : Type :=
| NaN
| Inf (negative : bool)
| Fin (q : Q).

Definition of_Z (z : Z) : num := Fin (z # 1).

Definition is_neg (q : Q) : bool := (Qnum q <? 0)%Z.
Definition is_zero (q : Q) : bool := (Qnum q =? 0)%Z.

(** ToBoolean on a number: [0] and [NaN] are falsy. *)
Definition truthy (x : num) : bool :=
  match x with
  | NaN => false
  | Inf _ => true
  | Fin q => negb (is_zero q)
  end.

(** [v || d], where [v] may be [undefined] (an index past the end). *)
Definition or_default (v : option num) (d : num) : num :=
  match v with
  | Some x => if truthy x then x else d
  | None => d
  end.

Definition neg (x : num) : num :=
  match x with
  | NaN => NaN
  | Inf s => Inf (negb s)
  | Fin q => Fin (Qred (- q))
  end.

Definition add (x y : num) : num :=
  match x, y with
  | NaN, _ | _, NaN => NaN
  | Inf s, Inf t => if Bool.eqb s t then Inf s else NaN
  | Inf s, Fin _ | Fin _, Inf s => Inf s
  | Fin a, Fin b => Fin (Qred (a + b))
  end.

Definition sub (x y : num) : num := add x (neg y).

Definition mul (x y : num) : num :=
  match x, y with
  | NaN, _ | _, NaN => NaN
  | Inf s, Inf t => Inf (xorb s t)
  | Inf s, Fin q | Fin q, Inf s =>
      if is_zero q then NaN else Inf (xorb s (is_neg q))
  | Fin a, Fin b => Fin (Qred (a * b))
  end.

Definition div (x y : num) : num :=
  match x, y with
  | NaN, _ | _, NaN => NaN
  | Inf _, Inf _ => NaN
  | Inf s, Fin q => Inf (xorb s (is_neg q))
  | Fin _, Inf _ => Fin 0
  | Fin a, Fin b =>
      if is_zero b then (if is_zero a then NaN else Inf (is_neg a))
      else Fin (Qred (a / b))
  end.

(** *** [parseFloat] *)

Definition digit_value (c : ascii) : N := N.of_nat (nat_of_ascii c - 48).

(** The longest run of decimal digits at the start of [s]: its value
    continuing [acc], how many digits were read, and the rest. *)
Fixpoint digits (s : string) (acc : N) (n : nat) : N * nat * string :=
  match s with
  | String c s' =>
      if Js.is_digit c then digits s' (10 * acc + digit_value c)%N (S n)
      else (acc, n, s)
  | EmptyString => (acc, n, s)
  end.

(** An exponent part [e], [e+] or [e-] followed by at least one digit. *)
Definition exponent (s : string) : Z :=
  match s with
  | String c s' =>
      if Ascii.eqb c "e" || Ascii.eqb c "E" then
        let '(negative, s'') :=
          match s' with
          | String "-" t => (true, t)
          | String "+" t => (false, t)
          | _ => (false, s')
          end in
        let '(v, n, _) := digits s'' 0%N 0%nat in
        if (n =? 0)%nat then 0%Z
        else if negative then (- Z.of_N v)%Z else Z.of_N v
      else 0%Z
  | EmptyString => 0%Z
  end.

(** [parseFloat(s)]: leading white space is skipped and the longest
    prefix that is a decimal literal is read; [NaN] when there is none. *)
Definition parseFloat (s : string) : num :=
  let s1 := Js.trimStart s in
  let '(negative, s2) :=
    match s1 with
    | String "-" t => (true, t)
    | String "+" t => (false, t)
    | _ => (false, s1)
    end in
  if Js.startsWith s2 "Infinity" then Inf negative
  else
    let '(ip, ni, s3) := digits s2 0%N 0%nat in
    let '(fp, nf, s4) :=
      match s3 with
      | String "." t => digits t ip 0%nat
      | _ => (ip, 0%nat, s3)
      end in
    if (ni + nf =? 0)%nat then NaN
    else
      let mant := Z.of_N fp # 1 in
      let scale := Qpower (10 # 1) (exponent s4 - Z.of_nat nf) in
      let v := (mant * scale)%Q in
      Fin (Qred (if negative then - v else v)).

End Num.

Import Num.

(** ** The part of three.js the sources rely on

    three.js is an external library.  The objects the converter builds are
    kept as the constructor calls that made them; what three.js documents
    about them (a [BoxGeometry] is centred on its local origin, a child is
    placed by its [position] in the frame of its parent) is stated where it
    is used. *)

Module THREE.

Record Vector3 : Type := vec3 { vx : num; vy : num; vz : num }.

(** Euler angles, each stored as its coefficient of [Math.PI], which is
    kept symbolic. *)
Record Euler : Type := euler { ex : num; ey : num; ez : num }.

Definition zero3 : Vector3 := vec3 (of_Z 0) (of_Z 0) (of_Z 0).
Definition no_rotation : Euler := euler (of_Z 0) (of_Z 0) (of_Z 0).

(** A component that is [undefined] behaves as [NaN] in every later
    numeric use. *)
Definition undef (v : option num) : num := default NaN v.

(** [Vector3.set(x, y, z)]: three.js keeps the old [z] when the third
    argument is [undefined]. *)
Definition Vector3_set (old : Vector3) (x y z : option num) : Vector3 :=
  vec3 (undef x) (undef y) (default (vz old) z).

(** [Euler.set(x, y, z)] *)
Definition Euler_set (x y z : option num) : Euler :=
  euler (undef x) (undef y) (undef z).

Inductive Geometry : Type :=
| BoxGeometry (width height depth : num)
| SphereGeometry (radius : num) (widthSegments heightSegments : nat)
| CylinderGeometry (radiusTop radiusBottom height : num) (radialSegments : nat).

Record MeshPhongMaterial : Type :=
  { color : N; transparent : bool; opacity : num }.

#[warnings="-register-all"] Inductive Object3D : Type :=
| Mesh (geometry : Geometry) (material : MeshPhongMaterial)
       (position : Vector3) (rotation : Euler)
| Group (position : Vector3) (rotation : Euler) (children : list Object3D).

Definition new_Mesh (g : Geometry) (m : MeshPhongMaterial) : Object3D :=
  Mesh g m zero3 no_rotation.

Definition new_Group : Object3D := Group zero3 no_rotation [].

Definition children (o : Object3D) : list Object3D :=
  match o with
  | Group _ _ cs => cs
  | Mesh _ _ _ _ => []
  end.

Definition position (o : Object3D) : Vector3 :=
  match o with
  | Group p _ _ | Mesh _ _ p _ => p
  end.

(** [o.add(child)] *)
Definition add (o child : Object3D) : Object3D :=
  match o with
  | Group p r cs => Group p r (cs ++ [child])
  | Mesh _ _ _ _ => o
  end.

Definition set_position (o : Object3D) (p : Vector3) : Object3D :=
  match o with
  | Group _ r cs => Group p r cs
  | Mesh g m _ r => Mesh g m p r
  end.

Definition set_rotation (o : Object3D) (r : Euler) : Object3D :=
  match o with
  | Group p _ cs => Group p r cs
  | Mesh g m p _ => Mesh g m p r
  end.

(** [mesh.material = m]; only a mesh has a material. *)
Definition set_material (o : Object3D) (m : MeshPhongMaterial) : Object3D :=
  match o with
  | Mesh g _ p r => Mesh g m p r
  | Group _ _ _ => o
  end.

Definition vadd (a b : Vector3) : Vector3 :=
  vec3 (Num.add (vx a) (vx b)) (Num.add (vy a) (vy b)) (Num.add (vz a) (vz b)).

Definition vsub (a b : Vector3) : Vector3 :=
  vec3 (Num.sub (vx a) (vx b)) (Num.sub (vy a) (vy b)) (Num.sub (vz a) (vz b)).

Definition vhalf (a : Vector3) : Vector3 :=
  vec3 (Num.div (vx a) (of_Z 2)) (Num.div (vy a) (of_Z 2)) (Num.div (vz a) (of_Z 2)).

End THREE.

Import THREE.

(** The text of capture group [i] of a successful match.  In every pattern
    below group 1 takes part in each match, so it is never [undefined]. *)
Definition capture (m : captures) (i : nat) : string :=
  default EmptyString (mjoin (m !! i)).

Definition sp : regex := Star Js.is_space.

(** [[^...]+] *)
Definition some_not (cs : list ascii) : regex := Plus (Js.none_of cs).

(** ** [openscadConverter.ts] *)

Module Converter.

Inductive result : Type :=
| Ok (group : Object3D)
| Throw (message : string).

Definition material (c : N) : MeshPhongMaterial :=
  {| color := c; transparent := true; opacity := Fin (9 # 10) |}.

(** The pattern [cube\( \s* \[ ([^\]]+) \] \s* \)], its tokens spaced out. *)
Definition cube_bracket_re : regex :=
  cat [Lit "cube("; sp; Lit "["; Grp 1 (some_not ["]"]); Lit "]"; sp; Lit ")"].

(** The pattern [cube\( \s* ([^,\[\]]+) \s* \)]. *)
Definition cube_single_re : regex :=
  cat [Lit "cube("; sp; Grp 1 (some_not [","; "["; "]"]); sp; Lit ")"].

(** The numbers of a cube call: [bracketMatch[1].split(',')] parsed one by
    one, else the one number of [singleMatch], else no match. *)
Definition cubeParams (line : string) : option (list num) :=
  let bracketMatch := str_match 1 cube_bracket_re line in
  let singleMatch := str_match 1 cube_single_re line in
  match bracketMatch with
  | Some m =>
      Some (map (fun s => parseFloat (Js.trim s)) (Js.split "," (capture m 1)))
  | None =>
      match singleMatch with
      | Some m => Some [parseFloat (Js.trim (capture m 1))]
      | None => None
      end
  end.

Definition cubeSize (params : list num) : Vector3 :=
  if (length params =? 1)%nat then
    vec3 (undef (params !! 0%nat)) (undef (params !! 0%nat)) (undef (params !! 0%nat))
  else
    vec3 (or_default (params !! 0%nat) (of_Z 1))
         (or_default (params !! 1%nat) (of_Z 1))
         (or_default (params !! 2%nat) (of_Z 1)).

Definition cubeMesh (size : Vector3) : Object3D :=
  let geometry := BoxGeometry (vx size) (vy size) (vz size) in
  let mesh := new_Mesh geometry (material 0x667eea) in
  set_position mesh (vhalf size).

Definition parseCube (line : string) : option Object3D :=
  match cubeParams line with
  | Some params => Some (cubeMesh (cubeSize params))
  | None => None
  end.

(** The pattern [sphere\( (?: r \s* = \s* )? ([^,)]+)]. *)
Definition sphere_re : regex :=
  cat [Lit "sphere("; Opt (cat [Lit "r"; sp; Lit "="; sp]);
       Grp 1 (some_not [","; ")"])].

Definition parseSphere (line : string) : option Object3D :=
  match str_match 1 sphere_re line with
  | None => None
  | Some m =>
      let radius := parseFloat (Js.trim (capture m 1)) in
      Some (new_Mesh (SphereGeometry radius 32 32) (material 0x764ba2))
  end.

(** The pattern [name \s* = \s* ([^,)]+)] for [name] one of [h], [r], [r1], [r2]. *)
Definition named_re (name : string) : regex :=
  cat [Lit name; sp; Lit "="; sp; Grp 1 (some_not [","; ")"])].

(** [m ? parseFloat(m[1]) : d] *)
Definition named_or (name : string) (line : string) (d : num) : num :=
  match str_match 1 (named_re name) line with
  | Some m => parseFloat (capture m 1)
  | None => d
  end.

Definition parseCylinder (line : string) : option Object3D :=
  let height := named_or "h" line (of_Z 1) in
  let radius := named_or "r" line (of_Z 1) in
  let r1 := named_or "r1" line radius in
  let r2 := named_or "r2" line radius in
  let mesh := new_Mesh (CylinderGeometry r2 r1 height 32) (material 0x48bb78) in
  (* mesh.rotation.x = Math.PI / 2 *)
  Some (set_rotation mesh (euler (Fin (1 # 2)) (of_Z 0) (of_Z 0))).

(** The pattern [name\( \[ ([^\]]+) \] \)] for [name] one of [translate], [rotate]. *)
Definition vector_re (name : string) : regex :=
  cat [Lit name; Lit "(["; Grp 1 (some_not ["]"]); Lit "])"].

(** The pattern [name\( [^)]+ \) \s* ( \w+ \( [^)]+ \) )]. *)
Definition child_re (name : string) : regex :=
  cat [Lit name; Lit "("; some_not [")"]; Lit ")"; sp;
       Grp 1 (cat [Plus Js.is_word; Lit "("; some_not [")"]; Lit ")"])].

(** The dispatch on [childLine.startsWith(...)] shared by [parseTranslate]
    and [parseRotate]. *)
Definition parseChild (childLine : string) : option Object3D :=
  if Js.startsWith childLine "cube" then parseCube childLine
  else if Js.startsWith childLine "sphere" then parseSphere childLine
  else if Js.startsWith childLine "cylinder" then parseCylinder childLine
  else None.

(** [if (child) group.add(child)] *)
Definition add_if (group : Object3D) (child : option Object3D) : Object3D :=
  match child with
  | Some c => add group c
  | None => group
  end.

Definition parseTranslate (line fullCode : string) : option Object3D :=
  match str_match 1 (vector_re "translate") line with
  | None => None
  | Some m =>
      let coords := map (fun s => parseFloat (Js.trim s)) (Js.split "," (capture m 1)) in
      match str_match 1 (child_re "translate") fullCode with
      | None => None
      | Some childMatch =>
          let group :=
            set_position new_Group
              (Vector3_set zero3 (coords !! 0%nat) (coords !! 1%nat) (coords !! 2%nat)) in
          Some (add_if group (parseChild (capture childMatch 1)))
      end
  end.

(** [parseFloat(s.trim()) * Math.PI / 180], as a coefficient of [Math.PI] *)
Definition radians (s : string) : num :=
  Num.div (parseFloat (Js.trim s)) (of_Z 180).

Definition parseRotate (line fullCode : string) : option Object3D :=
  match str_match 1 (vector_re "rotate") line with
  | None => None
  | Some m =>
      let angles := map radians (Js.split "," (capture m 1)) in
      let group :=
        set_rotation new_Group
          (Euler_set (angles !! 0%nat) (angles !! 1%nat) (angles !! 2%nat)) in
      match str_match 1 (child_re "rotate") fullCode with
      | Some childMatch => Some (add_if group (parseChild (capture childMatch 1)))
      | None => Some group
      end
  end.

(** The pattern [difference\(\) \s* \{ ([^}]+) \}]. *)
Definition difference_re : regex :=
  cat [Lit "difference()"; sp; Lit "{"; Grp 1 (some_not ["}"]); Lit "}"].

(** The loop of [parseDifference]: the first line that starts with [cube]
    and parses is recoloured and added, and the loop is left. *)
Fixpoint differenceLoop (lines : list string) (group : Object3D) : Object3D :=
  match lines with
  | [] => group
  | line :: rest =>
      let trimmed := Js.trim line in
      if Js.startsWith trimmed "cube" then
        match parseCube trimmed with
        | Some cube => add group (set_material cube (material 0xed8936))
        | None => differenceLoop rest group
        end
      else differenceLoop rest group
  end.

Definition parseDifference (code : string) : option Object3D :=
  match str_match 1 difference_re code with
  | None => None
  | Some m => Some (differenceLoop (Js.split "010" (capture m 1)) new_Group)
  end.

(** The callback of [map] that cuts a line at its first [//]. *)
Definition stripLineComment (line : string) : string :=
  match Js.indexOf line "//" with
  | Some commentIndex => Js.substring_to commentIndex line
  | None => line
  end.

(** The global pattern that matches a block comment, lazily up to the first closing mark. *)
Definition block_comment_re : regex :=
  cat [Lit "/*"; LazyStar Js.any_char; Lit "*/"].

Definition cleanCode (code : string) : string :=
  remove_all block_comment_re
    (Js.join (String "010" EmptyString) (map stripLineComment (Js.split "010" code))).

(** One turn of the loop over the lines: the [else if] chain on the
    trimmed line. *)
Definition step (clean : string) (group : Object3D) (line : string) : Object3D :=
  let trimmed := Js.trim line in
  if (String.length trimmed =? 0)%nat then group
  else if Js.includes trimmed "cube(" then add_if group (parseCube trimmed)
  else if Js.includes trimmed "sphere(" then add_if group (parseSphere trimmed)
  else if Js.includes trimmed "cylinder(" then add_if group (parseCylinder trimmed)
  else if Js.includes trimmed "translate(" then add_if group (parseTranslate trimmed clean)
  else if Js.includes trimmed "rotate(" then add_if group (parseRotate trimmed clean)
  else if Js.includes trimmed "difference()" then add_if group (parseDifference clean)
  else group.

Definition no_primitives : string :=
  "No valid OpenSCAD primitives found. Supported: cube, sphere, cylinder, translate, rotate".

(** No call inside the [try] block throws besides the explicit [throw],
    which the [catch] arm passes on unchanged. *)
Definition parseOpenSCADToThreeJS (code : string) : result :=
  let clean := cleanCode code in
  let lines := Js.split "010" clean in
  let group := fold_left (step clean) lines new_Group in
  if (length (children group) =? 0)%nat then Throw no_primitives
  else Ok group.

End Converter.

(** ** The converter with a variable table

    The second copy of [openscadConverter.ts] in the repository: it reads
    top-level numeric assignments, tries the block parsers on the whole
    text first and falls back to the loop over the lines.  Its
    [parseSphere] and [parseCylinder] ignore the table and are those of
    [Converter]. *)

Module ConverterVars.

Import Converter.

(** [Map<string, number>] *)
Abbreviation variables := (gmap string num).

(** [variables.has(t) ? variables.get(t)! : parseFloat(t)] *)
Definition resolve (vars : variables) (t : string) : num :=
  match vars !! t with
  | Some v => v
  | None => parseFloat t
  end.

Definition material (c : N) (o : Q) : MeshPhongMaterial :=
  {| color := c; transparent := true; opacity := Fin o |}.

(** The global pattern [(\w+) \s* = \s* ([0-9.]+) \s* ;]. *)
Definition assignment_re : regex :=
  cat [Grp 1 (Plus Js.is_word); sp; Lit "="; sp;
       Grp 2 (Plus (fun c => Js.is_digit c || Ascii.eqb c ".")); sp; Lit ";"].

Definition extractVariables (clean : string) : variables :=
  fold_left (fun vars m => <[capture m 1 := parseFloat (capture m 2)]> vars)
            (matchAll 2 assignment_re clean) (∅ : variables).

(** The pattern [cube\( \s* \[ ([^\]]+) \]]. *)
Definition cube_bracket_re : regex :=
  cat [Lit "cube("; sp; Lit "["; Grp 1 (some_not ["]"]); Lit "]"].

(** The pattern [cube\( \s* ([^,\[\)]+)]. *)
Definition cube_single_re : regex :=
  cat [Lit "cube("; sp; Grp 1 (some_not [","; "["; ")"])].

Definition cubeParams (line : string) (vars : variables) : option (list num) :=
  let bracketMatch := str_match 1 cube_bracket_re line in
  let singleMatch := str_match 1 cube_single_re line in
  match bracketMatch with
  | Some m =>
      Some (map (fun s => resolve vars (Js.trim s)) (Js.split "," (capture m 1)))
  | None =>
      match singleMatch with
      | Some m => Some [resolve vars (Js.trim (capture m 1))]
      | None => None
      end
  end.

Definition parseCube (line : string) (vars : variables) : option Object3D :=
  match cubeParams line vars with
  | Some params => Some (cubeMesh (cubeSize params))
  | None => None
  end.

(** The pattern [height \s* = \s* ([^,\)]+)]. *)
Definition height_re : regex :=
  cat [Lit "height"; sp; Lit "="; sp; Grp 1 (some_not [","; ")"])].

Definition parseLinearExtrude (code : string) (vars : variables) : option Object3D :=
  let height :=
    match str_match 1 height_re code with
    | Some m => resolve vars (Js.trim (capture m 1))
    | None => of_Z 10
    end in
  Some (new_Mesh (BoxGeometry (of_Z 20) (of_Z 20) height) (material 0x10b981 (85 # 100))).

Definition parseShape (code : string) (vars : variables) : option Object3D :=
  if Js.includes code "cube(" then parseCube code vars
  else if Js.includes code "sphere(" then parseSphere code
  else if Js.includes code "cylinder(" then parseCylinder code
  else if Js.includes code "linear_extrude" then parseLinearExtrude code vars
  else None.

(** The global pattern
    [translate\( \[ ([^\]]+) \] \) \s* ( \w+ \( [^}]+ \} | \w+ \( [^)]+ \) )]. *)
Definition translate_re : regex :=
  cat [Lit "translate(["; Grp 1 (some_not ["]"]); Lit "])"; sp;
       Grp 2 (Alt (cat [Plus Js.is_word; Lit "("; some_not ["}"]; Lit "}"])
                  (cat [Plus Js.is_word; Lit "("; some_not [")"]; Lit ")"]))].

(** The global pattern [cube\( \s* \[ ([^\]]+) \] [^;]* \)]. *)
Definition cube_call_re : regex :=
  cat [Lit "cube("; sp; Lit "["; Grp 1 (some_not ["]"]); Lit "]";
       Star (Js.none_of [";"]); Lit ")"].

(** The body of the loop over the translate matches. *)
Definition translatedShape (vars : variables) (m : captures) : option Object3D :=
  let coords := map (fun s => resolve vars (Js.trim s)) (Js.split "," (capture m 1)) in
  match parseShape (capture m 2) vars with
  | Some shape =>
      Some (set_position shape
              (vec3 (or_default (coords !! 0%nat) (of_Z 0))
                    (or_default (coords !! 1%nat) (of_Z 0))
                    (or_default (coords !! 2%nat) (of_Z 0))))
  | None => None
  end.

Definition extractShapes (code : string) (vars : variables) : list Object3D :=
  let translated := omap (translatedShape vars) (matchAll 2 translate_re code) in
  let cubes := omap (fun m => parseCube (whole m) vars) (matchAll 1 cube_call_re code) in
  translated ++ cubes.

(** The pattern [name\(\) \s* \{ ( [\s\S]* ) \}] for [name] one of
    [difference], [union]. *)
Definition block_re (name : string) : regex :=
  cat [Lit name; Lit "()"; sp; Lit "{"; Grp 1 (Star Js.any_char); Lit "}"].

Definition parseDifferenceBlock (code : string) (vars : variables) : option Object3D :=
  match str_match 1 (block_re "difference") code with
  | None => None
  | Some m =>
      match extractShapes (capture m 1) vars with
      | base :: _ => Some (set_material base (material 0x8b5cf6 (85 # 100)))
      | [] => None
      end
  end.

Definition parseUnionBlock (code : string) (vars : variables) : option Object3D :=
  match str_match 1 (block_re "union") code with
  | None => None
  | Some m => Some (fold_left add (extractShapes (capture m 1) vars) new_Group)
  end.

Definition parseComplexStructure (code : string) (vars : variables) : option Object3D :=
  if Js.includes code "difference()" then parseDifferenceBlock code vars
  else if Js.includes code "union()" then parseUnionBlock code vars
  else if Js.includes code "linear_extrude" then parseLinearExtrude code vars
  else None.

Definition step (vars : variables) (group : Object3D) (line : string) : Object3D :=
  let trimmed := Js.trim line in
  if (String.length trimmed =? 0)%nat then group
  else if Js.includes trimmed "cube(" then add_if group (parseCube trimmed vars)
  else if Js.includes trimmed "sphere(" then add_if group (parseSphere trimmed)
  else if Js.includes trimmed "cylinder(" then add_if group (parseCylinder trimmed)
  else group.

(** The box put into a scene in which nothing was parsed. *)
Definition placeholder : Object3D :=
  new_Mesh (BoxGeometry (of_Z 10) (of_Z 10) (of_Z 10)) (material 0x667eea (7 # 10)).

(** The function has no [throw]; the [catch] arm, which would add a red
    box, is not reached by any call of the [try] block. *)
Definition parseOpenSCADToThreeJS (code : string) : Object3D :=
  let clean := cleanCode code in
  let vars := extractVariables clean in
  match parseComplexStructure clean vars with
  | Some parsed => add new_Group parsed
  | None =>
      let group := fold_left (step vars) (Js.split "010" clean) new_Group in
      if (length (children group) =? 0)%nat then add group placeholder
      else group
  end.

End ConverterVars.

(** ** [stlExporter.ts] *)

Module StlExporter.

(** What a call may throw: an [Error] with its message, or the [TypeError]
    of reading a property of [undefined]. *)
Inductive exn : Type :=
| Error (message : string)
| TypeError.

Inductive outcome (A : Type) : Type :=
| Return (a : A)
| Throw (e : exn).
Arguments Return {A} a.
Arguments Throw {A} e.

(** A [BufferGeometry]: the attributes [position] and [normal], one vector
    per vertex, and the index buffer; each may be absent. *)
Record BufferGeometry : Type :=
  { position : option (list Vector3);
    normal : option (list Vector3);
    index : option (list nat) }.

(** [crossVectors(a, b)] *)
Definition crossVectors (a b : Vector3) : Vector3 :=
  vec3 (Num.sub (Num.mul (vy a) (vz b)) (Num.mul (vz a) (vy b)))
       (Num.sub (Num.mul (vz a) (vx b)) (Num.mul (vx a) (vz b)))
       (Num.sub (Num.mul (vx a) (vy b)) (Num.mul (vy a) (vx b))).

(** [subVectors(a, b)] *)
Definition subVectors (a b : Vector3) : Vector3 := vsub a b.

(** The values of [i] in [for (let i = 0; i < count; i += 3)]. *)
Definition strides (count : nat) : list nat :=
  map (λ k, 3 * k)%nat (seq 0 ((count + 2) / 3)).

Section Exporter.

(** The operations of three.js that involve its matrix layout, a square
    root or the printing of a number are parameters. *)
Context {Matrix4 : Type}.
Variable applyMatrix4 : Vector3 → Matrix4 → Vector3.
Variable extractRotation : Matrix4 → Matrix4.
Variable normalize : Vector3 → Vector3.
Variable toString : num → string.

(** The objects [traverse] visits: a mesh with its geometry and its
    [matrixWorld], or any other object; both may have children. *)
#[warnings="-register-all"] Inductive Node : Type :=
| MeshNode (geometry : BufferGeometry) (matrixWorld : Matrix4) (children : list Node)
| OtherNode (children : list Node).

(** [group.traverse(child => { if (child instanceof THREE.Mesh) meshes.push(child) })]:
    the object itself, then its children in order. *)
Fixpoint traverse (n : Node) : list (BufferGeometry * Matrix4) :=
  let below := fix below (cs : list Node) : list (BufferGeometry * Matrix4) :=
    match cs with
    | [] => []
    | c :: cs' => traverse c ++ below cs'
    end in
  match n with
  | MeshNode g mw cs => (g, mw) :: below cs
  | OtherNode cs => below cs
  end.

(** The normal of a facet with corners [a], [b], [c]: from the transformed
    normals when there are any, else from the edges.  A corner without a
    normal is [undefined], and calling [clone] or [add] on it throws. *)
Definition facetNormal (normals : list Vector3) (a b c : nat)
           (v1 v2 v3 : Vector3) : option Vector3 :=
  if (0 <? length normals)%nat then
    n1 ← normals !! a; n2 ← normals !! b; n3 ← normals !! c;
    Some (normalize (vadd (vadd n1 n2) n3))
  else
    let edge1 := subVectors v2 v1 in
    let edge2 := subVectors v3 v1 in
    Some (normalize (crossVectors edge1 edge2)).

Definition nl : string := String "010" EmptyString.

Definition coordinates (v : Vector3) : string :=
  toString (vx v) +:+ " " +:+ toString (vy v) +:+ " " +:+ toString (vz v).

(** The seven lines appended for one triangle. *)
Definition facet (n v1 v2 v3 : Vector3) : string :=
  "  facet normal " +:+ coordinates n +:+ nl +:+
  "    outer loop" +:+ nl +:+
  "      vertex " +:+ coordinates v1 +:+ nl +:+
  "      vertex " +:+ coordinates v2 +:+ nl +:+
  "      vertex " +:+ coordinates v3 +:+ nl +:+
  "    endloop" +:+ nl +:+
  "  endfacet" +:+ nl.

(** The loop over an index buffer.  An index or a vertex that is not there
    is [undefined], and the first property read on it throws. *)
Fixpoint writeIndexed (vertices normals : list Vector3) (index : list nat)
         (steps : list nat) (stl : string) : outcome string :=
  match steps with
  | [] => Return stl
  | i :: steps' =>
      match
        i1 ← index !! i; i2 ← index !! (i + 1)%nat; i3 ← index !! (i + 2)%nat;
        v1 ← vertices !! i1; v2 ← vertices !! i2; v3 ← vertices !! i3;
        n ← facetNormal normals i1 i2 i3 v1 v2 v3;
        Some (facet n v1 v2 v3)
      with
      | Some text => writeIndexed vertices normals index steps' (stl +:+ text)
      | None => Throw TypeError
      end
  end.

(** The loop over a triangle soup: an incomplete last triangle is skipped
    by [continue]. *)
Fixpoint writeSoup (vertices normals : list Vector3)
         (steps : list nat) (stl : string) : outcome string :=
  match steps with
  | [] => Return stl
  | i :: steps' =>
      match vertices !! i, vertices !! (i + 1)%nat, vertices !! (i + 2)%nat with
      | Some v1, Some v2, Some v3 =>
          match facetNormal normals i (i + 1) (i + 2) v1 v2 v3 with
          | Some n => writeSoup vertices normals steps' (stl +:+ facet n v1 v2 v3)
          | None => Throw TypeError
          end
      | _, _, _ => writeSoup vertices normals steps' stl
      end
  end.

(** The callback of [meshes.forEach]. *)
Definition writeMesh (stl : string) (mesh : BufferGeometry * Matrix4) : outcome string :=
  let geometry := mesh.1 in
  let matrixWorld := mesh.2 in
  match position geometry with
  | None => Return stl
  | Some positionAttribute =>
      let vertices := map (λ p, applyMatrix4 p matrixWorld) positionAttribute in
      let normals :=
        match normal geometry with
        | Some normalAttribute =>
            map (λ n, applyMatrix4 n (extractRotation matrixWorld)) normalAttribute
        | None => []
        end in
      match index geometry with
      | Some index => writeIndexed vertices normals index (strides (length index)) stl
      | None => writeSoup vertices normals (strides (length vertices)) stl
      end
  end.

Fixpoint forEach (meshes : list (BufferGeometry * Matrix4)) (stl : string) : outcome string :=
  match meshes with
  | [] => Return stl
  | mesh :: meshes' =>
      match writeMesh stl mesh with
      | Return stl' => forEach meshes' stl'
      | Throw e => Throw e
      end
  end.

Definition generateSTL (group : Node) : outcome string :=
  let meshes := traverse group in
  if (length meshes =? 0)%nat then Throw (Error "No meshes to export")
  else
    match forEach meshes ("solid model" +:+ nl) with
    | Return stl => Return (stl +:+ "endsolid model" +:+ nl)
    | Throw e => Throw e
    end.

(** The files handed to the browser by [downloadSTL], oldest first: the
    name and the text of each. *)
Definition downloads : Type := list (string * string).

Definition downloadSTL (stlString filename : string) (d : downloads) : downloads :=
  d ++ [(filename, stlString)].

(** [exportToSTL]: its [catch] arm logs the error and throws it again. *)
Definition exportToSTL (group : Node) (filename : string) (d : downloads)
  : outcome unit * downloads :=
  match generateSTL group with
  | Return stlString => (Return (), downloadSTL stlString filename d)
  | Throw error => (Throw error, d)
  end.

(** *** What the output is compared with *)

(** A list cut into consecutive triples; an incomplete tail is left out. *)
Fixpoint chunks3 {A : Type} (l : list A) : list (A * A * A) :=
  match l with
  | a :: b :: c :: rest => (a, b, c) :: chunks3 rest
  | _ => []
  end.

(** The corners of the triangles of a geometry, as positions in its
    vertex list. *)
Definition triangles (g : BufferGeometry) : list (nat * nat * nat) :=
  match position g, index g with
  | None, _ => []
  | Some _, Some ix => chunks3 ix
  | Some ps, None => chunks3 (seq 0 (length ps))
  end.

Definition at_ (l : list Vector3) (i : nat) : Vector3 := default zero3 (l !! i).

(** Vertex [i] of a mesh in the world frame. *)
Definition worldVertex (mesh : BufferGeometry * Matrix4) (i : nat) : Vector3 :=
  applyMatrix4 (at_ (default [] (position mesh.1)) i) mesh.2.

(** Normal [i] of a mesh turned by the rotation of its world matrix. *)
Definition worldNormal (mesh : BufferGeometry * Matrix4) (i : nat) : Vector3 :=
  applyMatrix4 (at_ (default [] (normal mesh.1)) i) (extractRotation mesh.2).

Definition hasNormals (g : BufferGeometry) : bool :=
  match normal g with
  | Some (_ :: _) => true
  | _ => false
  end.

(** The normal written for the triangle with corners [a], [b], [c]. *)
Definition writtenNormal (mesh : BufferGeometry * Matrix4) (t : nat * nat * nat) : Vector3 :=
  let '(a, b, c) := t in
  if hasNormals mesh.1 then
    normalize (vadd (vadd (worldNormal mesh a) (worldNormal mesh b)) (worldNormal mesh c))
  else
    normalize (crossVectors (subVectors (worldVertex mesh b) (worldVertex mesh a))
                            (subVectors (worldVertex mesh c) (worldVertex mesh a))).

Definition worldTriangle (mesh : BufferGeometry * Matrix4) (t : nat * nat * nat)
  : Vector3 * Vector3 * Vector3 :=
  let '(a, b, c) := t in (worldVertex mesh a, worldVertex mesh b, worldVertex mesh c).

(** The facets of a mesh, each with its normal. *)
Definition meshFacets (mesh : BufferGeometry * Matrix4)
  : list (Vector3 * (Vector3 * Vector3 * Vector3)) :=
  (λ t, (writtenNormal mesh t, worldTriangle mesh t)) <$> triangles mesh.1.

(** The facets of a scene, mesh after mesh in the order of [traverse]. *)
Definition sceneFacets (group : Node) : list (Vector3 * (Vector3 * Vector3 * Vector3)) :=
  traverse group ≫= meshFacets.

(** All triangles of a scene in the world frame. *)
Definition worldTriangles (group : Node) : list (Vector3 * Vector3 * Vector3) :=
  mesh ← traverse group; worldTriangle mesh <$> triangles mesh.1.

(** The lines of an ASCII STL file named [model] with the given facets. *)
Definition facetLines (f : Vector3 * (Vector3 * Vector3 * Vector3)) : list string :=
  let '(n, (v1, v2, v3)) := f in
  [ "  facet normal " +:+ coordinates n;
    "    outer loop"%string;
    "      vertex " +:+ coordinates v1;
    "      vertex " +:+ coordinates v2;
    "      vertex " +:+ coordinates v3;
    "    endloop"%string;
    "  endfacet"%string ].

Definition stlLines (facets : list (Vector3 * (Vector3 * Vector3 * Vector3))) : list string :=
  "solid model"%string :: (facets ≫= facetLines) ++ ["endsolid model"%string].

(** Every line followed by a line feed. *)
Fixpoint unlines (ls : list string) : string :=
  match ls with
  | [] => EmptyString
  | l :: ls' => l +:+ nl +:+ unlines ls'
  end.

(** A geometry the loops run through without reading [undefined]: the
    index buffer holds whole triangles of existing vertices, and normals,
    when there are any, come one per vertex. *)
Definition wellFormed (g : BufferGeometry) : bool :=
  match position g with
  | None => true
  | Some ps =>
      match normal g with
      | Some (n :: ns) => (length (n :: ns) =? length ps)%nat
      | _ => true
      end
      && match index g with
         | Some ix => (length ix mod 3 =? 0)%nat && forallb (λ i, i <? length ps)%nat ix
         | None => true
         end
  end.

(** The text [writeIndexed] and [writeSoup] append for a facet. *)
Definition facetText (f : Vector3 * (Vector3 * Vector3 * Vector3)) : string :=
  facet f.1 f.2.1.1 f.2.1.2 f.2.2.

(** The lists [vertices] and [normals] that [writeMesh] builds. *)
Definition verticesOf (mesh : BufferGeometry * Matrix4) : list Vector3 :=
  (λ p, applyMatrix4 p mesh.2) <$> default [] (position mesh.1).

Definition normalsOf (mesh : BufferGeometry * Matrix4) : list Vector3 :=
  (λ n, applyMatrix4 n (extractRotation mesh.2)) <$> default [] (normal mesh.1).

(** The normals of a well-formed mesh: none, or one per vertex. *)
Definition normalsFit (mesh : BufferGeometry * Matrix4) : Prop :=
  if hasNormals mesh.1
  then length (default [] (normal mesh.1)) = length (default [] (position mesh.1))
  else default [] (normal mesh.1) = [].

End Exporter.

Fixpoint concat_strings (l : list string) : string :=
  match l with
  | [] => EmptyString
  | s :: l' => s +:+ concat_strings l'
  end.

Arguments Node Matrix4 : clear implicits.
Arguments MeshNode {Matrix4} geometry matrixWorld children.
Arguments OtherNode {Matrix4} children.

End StlExporter.

(** ** three.js on exact rationals

    An instance of the operations the exporter takes as parameters, written
    after the three.js sources, for running the exporter on examples.  The
    square root is exact on squares of rationals and rounded down
    otherwise. *)

Module ExactThree.

(** [Matrix4.elements], column after column. *)
Definition Matrix4 : Type := list num.

Definition el (m : Matrix4) (k : nat) : num := default NaN (m !! k).

Definition identity : Matrix4 :=
  of_Z <$> [1; 0; 0; 0;  0; 1; 0; 0;  0; 0; 1; 0;  0; 0; 0; 1]%Z.

(** [makeTranslation(x, y, z)] *)
Definition makeTranslation (x y z : num) : Matrix4 :=
  (of_Z <$> [1; 0; 0; 0;  0; 1; 0; 0;  0; 0; 1; 0]%Z) ++ [x; y; z; of_Z 1].

Definition sum4 (a b c d : num) : num := Num.add (Num.add (Num.add a b) c) d.

Definition applyMatrix4 (v : Vector3) (m : Matrix4) : Vector3 :=
  let '(x, y, z) := (vx v, vy v, vz v) in
  let row (i : nat) :=
    sum4 (Num.mul (el m i) x) (Num.mul (el m (i + 4)) y)
         (Num.mul (el m (i + 8)) z) (el m (i + 12)) in
  let w := Num.div (of_Z 1) (row 3%nat) in
  vec3 (Num.mul (row 0%nat) w) (Num.mul (row 1%nat) w) (Num.mul (row 2%nat) w).

Definition sqrt (x : num) : num :=
  match x with
  | Fin q => if is_neg q then NaN else Fin (Qred (Z.sqrt (Qnum q) # Pos.sqrt (Qden q)))
  | Inf false => Inf false
  | _ => NaN
  end.

(** [v.length()] *)
Definition vlength (x y z : num) : num :=
  sqrt (Num.add (Num.add (Num.mul x x) (Num.mul y y)) (Num.mul z z)).

(** [v.normalize()], that is [v.divideScalar(v.length() || 1)] *)
Definition normalize (v : Vector3) : Vector3 :=
  let s := Num.div (of_Z 1) (or_default (Some (vlength (vx v) (vy v) (vz v))) (of_Z 1)) in
  vec3 (Num.mul (vx v) s) (Num.mul (vy v) s) (Num.mul (vz v) s).

(** [new Matrix4().extractRotation(m)] *)
Definition extractRotation (m : Matrix4) : Matrix4 :=
  let scale (c : nat) :=
    Num.div (of_Z 1) (vlength (el m (4 * c)) (el m (4 * c + 1)) (el m (4 * c + 2))) in
  let column (c : nat) :=
    [Num.mul (el m (4 * c)) (scale c); Num.mul (el m (4 * c + 1)) (scale c);
     Num.mul (el m (4 * c + 2)) (scale c); of_Z 0] in
  column 0%nat ++ column 1%nat ++ column 2%nat ++ (of_Z <$> [0; 0; 0; 1]%Z).

Definition digit (n : N) : ascii := ascii_of_nat (48 + N.to_nat n).

Fixpoint show_N_fuel (fuel : nat) (n : N) (acc : string) : string :=
  match fuel with
  | O => acc
  | S fuel' =>
      let acc' := String (digit (n mod 10)) acc in
      if (n / 10 =? 0)%N then acc' else show_N_fuel fuel' (n / 10)%N acc'
  end.

Definition show_N (n : N) : string :=
  show_N_fuel (S (N.to_nat (N.log2 n))) n EmptyString.

(** The decimal digits of [r / d] after the point, at most [fuel] of them. *)
Fixpoint show_fraction (fuel : nat) (r d : N) : string :=
  match fuel with
  | O => EmptyString
  | S fuel' =>
      if (r =? 0)%N then EmptyString
      else String (digit (10 * r / d)) (show_fraction fuel' (10 * r mod d) d)
  end.

(** A number in decimal notation. *)
Definition toString (x : num) : string :=
  match x with
  | NaN => "NaN"%string
  | Inf false => "Infinity"%string
  | Inf true => "-Infinity"%string
  | Fin q =>
      let n := Z.abs_N (Qnum q) in
      let d := Npos (Qden q) in
      (if is_neg q then "-"%string else EmptyString) +:+ show_N (n / d) +:+
      (if (n mod d =? 0)%N then EmptyString
       else "." +:+ show_fraction 17 (n mod d) d)
  end.

Definition generateSTL : StlExporter.Node Matrix4 → StlExporter.outcome string :=
  StlExporter.generateSTL applyMatrix4 extractRotation normalize toString.

(** *** A small scene to run the exporter on *)

Definition point (x y z : Z) : Vector3 := vec3 (of_Z x) (of_Z y) (of_Z z).

(** One triangle without normals and without an index buffer. *)
Definition soupTriangle : StlExporter.BufferGeometry :=
  {| StlExporter.position := Some [point 0 0 0; point 1 0 0; point 0 1 0];
     StlExporter.normal := None;
     StlExporter.index := None |}.

(** One indexed triangle among four vertices, with a unit normal at each
    vertex; the three normals at its corners differ. *)
Definition shadedTriangle : StlExporter.BufferGeometry :=
  {| StlExporter.position := Some [point 0 0 0; point 1 0 0; point 0 1 0; point 5 5 5];
     StlExporter.normal :=
       Some [vec3 (Fin (3 # 5)) (Fin (4 # 5)) (of_Z 0);
             vec3 (Fin (3 # 5)) (Fin (-4 # 5)) (of_Z 0);
             vec3 (Fin (-3 # 5)) (of_Z 0) (Fin (4 # 5));
             point 0 0 1];
     StlExporter.index := Some [0; 1; 2]%nat |}.

Definition demoScene : StlExporter.Node Matrix4 :=
  StlExporter.OtherNode
    [StlExporter.MeshNode soupTriangle (makeTranslation (of_Z 10) (of_Z 0) (Fin (1 # 4))) [];
     StlExporter.OtherNode [StlExporter.MeshNode shadedTriangle identity []]].

Definition emptyScene : StlExporter.Node Matrix4 :=
  StlExporter.OtherNode [StlExporter.OtherNode []].

End ExactThree.

(** ** The scene and its world matrices

    The scene as the specification has it: a tree of nodes,
    each with the transform that places it in its parent.  three.js keeps
    the product of these transforms along the chain of ancestors in the
    field [matrixWorld], which is all the exporter reads. *)

Module SceneGraph.

Import StlExporter.

Section Scene.

Context {Matrix4 : Type}.

(** [new Matrix4().multiplyMatrices(a, b)] *)
Variable multiplyMatrices : Matrix4 → Matrix4 → Matrix4.

(** A node of the scene with its local transform, [matrix]. *)
#[warnings="-register-all"] Inductive Object : Type :=
| MeshObject (geometry : BufferGeometry) (matrix : Matrix4) (children : list Object)
| GroupObject (matrix : Matrix4) (children : list Object).

Definition objectMatrix (o : Object) : Matrix4 :=
  match o with
  | MeshObject _ m _ | GroupObject m _ => m
  end.

Definition objectChildren (o : Object) : list Object :=
  match o with
  | MeshObject _ _ cs | GroupObject _ cs => cs
  end.

(** [updateMatrixWorld] of three.js, which the renderer runs on the scene
    before every frame:
    [matrixWorld.multiplyMatrices(parent.matrixWorld, matrix)], then the
    same for the children. *)
Fixpoint updateMatrixWorld (parentWorld : Matrix4) (o : Object) : Node Matrix4 :=
  match o with
  | MeshObject g m cs =>
      let world := multiplyMatrices parentWorld m in
      MeshNode g world (map (updateMatrixWorld world) cs)
  | GroupObject m cs =>
      let world := multiplyMatrices parentWorld m in
      OtherNode (map (updateMatrixWorld world) cs)
  end.

(** The accumulated world matrix of the node at [path], the positions of
    the children to pass through: the product of the transforms of its
    ancestors, outermost first, and of its own. *)
Fixpoint accumulated (parentWorld : Matrix4) (o : Object) (path : list nat)
  : option Matrix4 :=
  let world := multiplyMatrices parentWorld (objectMatrix o) in
  match path with
  | [] => Some world
  | i :: path' => c ← objectChildren o !! i; accumulated world c path'
  end.

(** *** Places in the scene the exporter is given *)

Definition childrenOf (n : Node Matrix4) : list (Node Matrix4) :=
  match n with
  | MeshNode _ _ cs | OtherNode cs => cs
  end.

(** The node reached from [n] through the children at the positions of
    [path]. *)
Fixpoint nodeAt (n : Node Matrix4) (path : list nat) : option (Node Matrix4) :=
  match path with
  | [] => Some n
  | i :: path' => c ← childrenOf n !! i; nodeAt c path'
  end.

(** The mesh at [path], if the node there is one: its geometry and its
    [matrixWorld]. *)
Definition meshAt (n : Node Matrix4) (path : list nat)
  : option (BufferGeometry * Matrix4) :=
  d ← nodeAt n path;
  match d with
  | MeshNode g mw _ => Some (g, mw)
  | OtherNode _ => None
  end.

Variable applyMatrix4 : Vector3 → Matrix4 → Vector3.

(** The triangles of the mesh at [path] in the world frame; none where
    there is no mesh. *)
Definition worldTrianglesAt (n : Node Matrix4) (path : list nat)
  : list (Vector3 * Vector3 * Vector3) :=
  match meshAt n path with
  | Some mesh => worldTriangle applyMatrix4 mesh <$> triangles mesh.1
  | None => []
  end.

(** The paths of [f c] for each child [c], after the position of the
    child, counted from [i]. *)
Fixpoint pathsFrom {A : Type} (f : A → list (list nat)) (i : nat) (cs : list A)
  : list (list nat) :=
  match cs with
  | [] => []
  | c :: cs' => (cons i <$> f c) ++ pathsFrom f (S i) cs'
  end.

(** The paths of the mesh nodes, a node before its children. *)
Fixpoint meshPaths (n : Node Matrix4) : list (list nat) :=
  match n with
  | MeshNode _ _ cs => [] :: pathsFrom meshPaths 0 cs
  | OtherNode cs => pathsFrom meshPaths 0 cs
  end.

End Scene.

Arguments Object Matrix4 : clear implicits.
Arguments MeshObject {Matrix4} geometry matrix children.
Arguments GroupObject {Matrix4} matrix children.

(** [multiplyMatrices] on exact rationals: element [i + 4 j] of the
    product is the sum over [k] of [a[i + 4 k] * b[k + 4 j]]. *)
Definition multiplyMatrices (a b : ExactThree.Matrix4) : ExactThree.Matrix4 :=
  (λ n, let i := (n mod 4)%nat in
        let j := (n / 4)%nat in
        ExactThree.sum4
          (Num.mul (ExactThree.el a i) (ExactThree.el b (4 * j)))
          (Num.mul (ExactThree.el a (i + 4)) (ExactThree.el b (4 * j + 1)))
          (Num.mul (ExactThree.el a (i + 8)) (ExactThree.el b (4 * j + 2)))
          (Num.mul (ExactThree.el a (i + 12)) (ExactThree.el b (4 * j + 3))))
  <$> seq 0 16.

(** A triangle moved by the transform of its group and by its own, and a
    second mesh one group further down. *)
Definition nestedScene : Object ExactThree.Matrix4 :=
  GroupObject (ExactThree.makeTranslation (of_Z 10) (of_Z 0) (of_Z 0))
    [MeshObject ExactThree.soupTriangle
       (ExactThree.makeTranslation (of_Z 0) (of_Z 0) (Fin (1 # 4))) [];
     GroupObject ExactThree.identity
       [MeshObject ExactThree.shadedTriangle ExactThree.identity []]].

End SceneGraph.

(** ** The export button of the renderer

    [handleExportSTL] of the [OpenSCADRenderer] component, with the state
    it writes and the clock it reads as arguments. *)

Module Renderer.

Import StlExporter.

(** [s.replace(/[...]/g, c)] for a class of single characters. *)
Fixpoint replace_class (p : ascii → bool) (c : ascii) (s : string) : string :=
  match s with
  | EmptyString => EmptyString
  | String a s' => String (if p a then c else a) (replace_class p c s')
  end.

(** [s.slice(0, -n)] *)
Definition slice_end (n : nat) (s : string) : string :=
  Js.substring_to (String.length s - n) s.

(** [iso.replace(/[:.]/g, '-').slice(0, -5)] *)
Definition timestamp (iso : string) : string :=
  slice_end 5 (replace_class (λ c, Ascii.eqb c ":" || Ascii.eqb c ".") "-" iso).

Definition filename (iso : string) : string :=
  "openscad-model-" +:+ timestamp iso +:+ ".stl".

(** The state the handler writes: [error] and [isExporting]. *)
Record state : Type := { error : string; isExporting : bool }.

Section Handler.

Context {Matrix4 : Type}.
Variable applyMatrix4 : Vector3 → Matrix4 → Vector3.
Variable extractRotation : Matrix4 → Matrix4.
Variable normalize : Vector3 → Vector3.
Variable toString : num → string.

(** The message of the [TypeError] the engine throws. *)
Variable typeErrorMessage : string.

(** [err.message]; all that [exportToSTL] throws is an [Error]. *)
Definition message (e : exn) : string :=
  match e with
  | Error m => m
  | TypeError => typeErrorMessage
  end.

(** [handleExportSTL], with [now] for [new Date().toISOString()] and
    [modelGroup] for [modelGroupRef.current]. *)
Definition handleExportSTL (now : string) (modelGroup : option (Node Matrix4))
           (st : state) (d : downloads) : state * downloads :=
  match modelGroup with
  | None => ({| error := "No model to export"; isExporting := isExporting st |}, d)
  | Some group =>
      match exportToSTL applyMatrix4 extractRotation normalize toString
                        group (filename now) d with
      | (Return _, d') => ({| error := EmptyString; isExporting := false |}, d')
      | (Throw err, d') => ({| error := message err; isExporting := false |}, d')
      end
  end.

End Handler.
End Renderer.

(** ** Notions used in the statements *)

Fixpoint all_chars (p : ascii → bool) (s : string) : bool :=
  match s with
  | EmptyString => true
  | String c s' => p c && all_chars p s'
  end.

(** [rest] does not begin with a character of the class [p]. *)
Definition stops (p : ascii → bool) (rest : string) : bool :=
  match rest with
  | EmptyString => true
  | String c _ => negb (p c)
  end.

Definition no_char (c : ascii) (a : ascii) : bool := negb (Ascii.eqb a c).

(** The text of one component of a size list: it holds neither a comma
    nor a closing bracket. *)
Definition plain (s : string) : bool := all_chars (Js.none_of [","; "]"]) s.

(** The statement [cube([p1,p2,...])] with the given component texts. *)
Definition cubeCall (parts : list string) : string :=
  "cube([" +:+ Js.join "," parts +:+ "])".

(** A size component with 1 in place of a missing, zero or [NaN] one. *)
Definition componentOr1 (part : option string) : num :=
  match part with
  | None => of_Z 1
  | Some s =>
      match parseFloat (Js.trim s) with
      | NaN => of_Z 1
      | Inf b => Inf b
      | Fin q => if is_zero q then of_Z 1 else Fin q
      end
  end.

#[global] Instance Q_eq_dec : EqDecision Q.
Proof. solve_decision. Defined.

#[global] Instance num_eq_dec : EqDecision num.
Proof. solve_decision. Defined.

#[global] Instance Vector3_eq_dec : EqDecision Vector3.
Proof. solve_decision. Defined.

#[global] Instance Euler_eq_dec : EqDecision Euler.
Proof. solve_decision. Defined.

(** The axis-aligned bounding box, lowest and highest corner, of a box mesh
    in the frame of its parent.  three.js centres a [BoxGeometry] of
    positive sizes on the local origin, so it reaches half a size to either
    side of the position of an unrotated mesh. *)
Definition boundingBox (o : Object3D) : option (Vector3 * Vector3) :=
  match o with
  | Mesh (BoxGeometry w h d) _ p r =>
      if decide (r = no_rotation) then
        let half := vhalf (vec3 w h d) in Some (vsub p half, vadd p half)
      else None
  | _ => None
  end.

(** The extents of a bounding box. *)
Definition boxSize (b : Vector3 * Vector3) : Vector3 := vsub b.2 b.1.

(** The centre of the bounding box of a primitive mesh that sits in a chain
    of unrotated groups translated by [offset] in total: box, sphere and
    cylinder are all centred on the local origin of the mesh. *)
Definition boxCenter (offset : Vector3) (o : Object3D) : Vector3 :=
  vadd offset (THREE.position o).

(** What the [else if] chain of the main loop makes of one line. *)
Definition lineObject (clean line : string) : option Object3D :=
  let trimmed := Js.trim line in
  if (String.length trimmed =? 0)%nat then None
  else if Js.includes trimmed "cube(" then Converter.parseCube trimmed
  else if Js.includes trimmed "sphere(" then Converter.parseSphere trimmed
  else if Js.includes trimmed "cylinder(" then Converter.parseCylinder trimmed
  else if Js.includes trimmed "translate(" then Converter.parseTranslate trimmed clean
  else if Js.includes trimmed "rotate(" then Converter.parseRotate trimmed clean
  else if Js.includes trimmed "difference()" then Converter.parseDifference clean
  else None.

(** The line feed and texts of several lines. *)
Definition lf : string := String "010" EmptyString.

Definition on_lines (ls : list string) : string := Js.join lf ls.

(** A mesh, as opposed to a group. *)
Definition isMesh (o : Object3D) : bool :=
  match o with
  | Mesh _ _ _ _ => true
  | Group _ _ _ => false
  end.

(** A mesh, or a group of at most one object, a mesh. *)
Definition flatObject (o : Object3D) : bool :=
  match o with
  | Mesh _ _ _ _ => true
  | Group _ _ cs => (length cs <=? 1)%nat && forallb isMesh cs
  end.

(** A character of an unsigned decimal literal. *)
Definition number_char (c : ascii) : bool := Js.is_digit c || Ascii.eqb c ".".

(** An unsigned decimal literal: digits and points, at least one. *)
Definition numeral (t : string) : bool :=
  all_chars number_char t && negb (String.eqb t EmptyString).

(** A text without white space. *)
Abbreviation solid s := (all_chars (λ c, negb (Js.is_space c)) s).

(** A text with neither a colon nor a point. *)
Abbreviation unmarked s :=
  (all_chars (λ c, negb (Ascii.eqb c ":" || Ascii.eqb c ".")) s).

(** The mesh [parseCylinder] builds from its three numbers. *)
Abbreviation cylinderMesh r2 r1 h :=
  (set_rotation
     (new_Mesh (CylinderGeometry r2 r1 h 32) (Converter.material 0x48bb78))
     (euler (Fin (1 # 2)) (of_Z 0) (of_Z 0))).

(** The statement [name([p1,p2,...])] with the given component texts. *)
Definition vectorCall (name : string) (parts : list string) : string :=
  name +:+ "([" +:+ Js.join "," parts +:+ "])".

(** What the [else if] chain of the loop with the variable table makes of
    one line. *)
Definition lineShape (vars : ConverterVars.variables) (line : string) : option Object3D :=
  let trimmed := Js.trim line in
  if (String.length trimmed =? 0)%nat then None
  else if Js.includes trimmed "cube(" then ConverterVars.parseCube trimmed vars
  else if Js.includes trimmed "sphere(" then Converter.parseSphere trimmed
  else if Js.includes trimmed "cylinder(" then Converter.parseCylinder trimmed
  else None.

(** What a loop of the exporter leaves behind: the text it was given with
    more text after it, or a [TypeError]. *)
Definition grows (stl : string) (o : StlExporter.outcome string) : Prop :=
  match o with
  | StlExporter.Return stl' => ∃ body, stl' = stl +:+ body
  | StlExporter.Throw e => e = StlExporter.TypeError
  end.

(** An index buffer is broken when its length is no multiple of three or
    one of its entries is past the last vertex. *)
Definition brokenIndex (vertexCount : nat) (ix : list nat) : Prop :=
  (length ix mod 3 ≠ 0)%nat ∨ ∃ i, i ∈ ix ∧ (vertexCount ≤ i)%nat.

(** A geometry without attributes, one whose index buffer points past its
    three vertices, and scenes of one such mesh. *)
Definition bareGeometry : StlExporter.BufferGeometry :=
  {| StlExporter.position := None;
     StlExporter.normal := None;
     StlExporter.index := None |}.

Definition danglingGeometry : StlExporter.BufferGeometry :=
  {| StlExporter.position :=
       Some [ExactThree.point 0 0 0; ExactThree.point 1 0 0; ExactThree.point 0 1 0];
     StlExporter.normal := None;
     StlExporter.index := Some [0; 1; 5]%nat |}.

Definition bareScene : StlExporter.Node ExactThree.Matrix4 :=
  StlExporter.MeshNode bareGeometry ExactThree.identity [].

Definition danglingScene : StlExporter.Node ExactThree.Matrix4 :=
  StlExporter.OtherNode
    [StlExporter.MeshNode ExactThree.soupTriangle ExactThree.identity [];
     StlExporter.MeshNode danglingGeometry ExactThree.identity []].

(** The statements that count as recognized, each with the mesh it
    stands for: a cube with three positive sizes, a sphere with its radius
    alone or after [r=], a cylinder with [h=] and [r=]; all numbers
    unsigned decimal literals. *)
Inductive recognized : string → Object3D → Prop :=
| recognized_cube sx sy sz x y z :
    numeral sx = true → numeral sy = true → numeral sz = true →
    parseFloat sx = Fin x → parseFloat sy = Fin y → parseFloat sz = Fin z →
    (0 < x)%Q → (0 < y)%Q → (0 < z)%Q →
    recognized (cubeCall [sx; sy; sz])
               (Converter.cubeMesh (vec3 (Fin x) (Fin y) (Fin z)))
| recognized_sphere r :
    numeral r = true →
    recognized ("sphere(" +:+ r +:+ ")")
               (new_Mesh (SphereGeometry (parseFloat r) 32 32) (Converter.material 0x764ba2))
| recognized_sphere_named r :
    numeral r = true →
    recognized ("sphere(r=" +:+ r +:+ ")")
               (new_Mesh (SphereGeometry (parseFloat r) 32 32) (Converter.material 0x764ba2))
| recognized_cylinder h r :
    numeral h = true → numeral r = true →
    recognized ("cylinder(h=" +:+ h +:+ ", r=" +:+ r +:+ ")")
               (cylinderMesh (parseFloat r) (parseFloat r) (parseFloat h)).

(** The texts that must not follow a recognized statement on its line:
    the opening of a primitive that is looked for before the one of the
    statement and, after a cylinder, a further [=]. *)
Definition overriding (stmt : string) : list string :=
  if Js.startsWith stmt "cube(" then []
  else if Js.startsWith stmt "sphere(" then ["cube("%string]
  else ["cube("; "sphere("; "="]%string.

(** The malformed statement of the spec's example: a cube call that is
    never closed. *)
Definition unclosedCube (line : string) : bool :=
  Js.startsWith line "cube(" && all_chars (no_char ")") line.

(** * Properties *)

(** ** Strings *)

Section StringFacts.

Lemma app_cons_s x (a b : string) : String x a +:+ b = String x (a +:+ b).
Proof. reflexivity. Qed.

Lemma app_assoc_s (a b c : string) : (a +:+ b) +:+ c = a +:+ (b +:+ c).
Proof. induction a as [|x a IH]; [done|]. rewrite !app_cons_s. by f_equal. Qed.

Lemma app_nil_s (a : string) : a +:+ EmptyString = a.
Proof. induction a as [|x a IH]; [done|]. rewrite app_cons_s. by f_equal. Qed.

Lemma length_app_s a b :
  String.length (a +:+ b) = (String.length a + String.length b)%nat.
Proof.
  induction a as [|c a IH]; [done|].
  rewrite app_cons_s. simpl. by rewrite IH.
Qed.

Lemma substring_app a b : String.substring 0 (String.length a) (a +:+ b) = a.
Proof.
  induction a as [|c a IH]; [by destruct b|].
  rewrite app_cons_s. simpl. by rewrite IH.
Qed.

Lemma strip_prefix_app p s : Js.strip_prefix p (p +:+ s) = Some s.
Proof.
  induction p as [|a p IH]; [done|].
  rewrite app_cons_s. simpl. by rewrite Ascii.eqb_refl.
Qed.

Lemma all_chars_impl (p q : ascii → bool) s :
  (∀ c, p c = true → q c = true) → all_chars p s = true → all_chars q s = true.
Proof.
  intros Hpq. induction s as [|c s IH]; simpl; [done|].
  intros [Hc Hs]%andb_true_iff. by rewrite (Hpq _ Hc), IH.
Qed.

Lemma all_chars_app p a b :
  all_chars p (a +:+ b) = all_chars p a && all_chars p b.
Proof.
  induction a as [|c a IH]; [done|].
  rewrite app_cons_s. simpl. by rewrite IH, andb_assoc.
Qed.

Lemma split_whole c s : all_chars (no_char c) s = true → Js.split c s = [s].
Proof.
  induction s as [|a s IH]; simpl; [done|].
  intros [Ha Hs]%andb_true_iff. unfold no_char in Ha.
  destruct (Ascii.eqb a c); [done|]. by rewrite IH.
Qed.

Lemma split_app c a b :
  all_chars (no_char c) a = true →
  Js.split c (a +:+ String c b) = a :: Js.split c b.
Proof.
  induction a as [|x a IH].
  - intros _. change (EmptyString +:+ String c b) with (String c b).
    simpl. by rewrite Ascii.eqb_refl.
  - rewrite app_cons_s. simpl.
    intros [Hx Ha]%andb_true_iff. unfold no_char in Hx.
    destruct (Ascii.eqb x c); [done|]. by rewrite IH.
Qed.

(** [split] undoes [join] on parts that are free of the separator. *)
Lemma split_join c parts :
  parts ≠ [] → Forall (λ s, all_chars (no_char c) s = true) parts →
  Js.split c (Js.join (String c EmptyString) parts) = parts.
Proof.
  intros Hne Hall. induction Hall as [|s parts Hs Hall IH]; [done|].
  destruct parts as [|t parts].
  - simpl. by apply split_whole.
  - change (Js.join (String c EmptyString) (s :: t :: parts))
      with (s +:+ String c (Js.join (String c EmptyString) (t :: parts))).
    rewrite split_app by done. by rewrite IH.
Qed.

Lemma plain_no_comma s : plain s = true → all_chars (no_char ",") s = true.
Proof.
  apply all_chars_impl. intros c. unfold Js.none_of, no_char. simpl.
  by destruct (Ascii.eqb c ",").
Qed.

Lemma plain_no_bracket s : plain s = true → all_chars (Js.none_of ["]"]) s = true.
Proof.
  apply all_chars_impl. intros c. unfold Js.none_of. simpl.
  destruct (Ascii.eqb c ","), (Ascii.eqb c "]"); done.
Qed.

Lemma join_no_bracket parts :
  Forall (λ s, plain s = true) parts →
  all_chars (Js.none_of ["]"]) (Js.join "," parts) = true.
Proof.
  induction 1 as [|s parts Hs Hall IH]; [done|].
  destruct parts as [|t parts]; [by apply plain_no_bracket|].
  change (Js.join "," (s :: t :: parts))
    with (s +:+ String "," (Js.join "," (t :: parts))).
  rewrite all_chars_app. rewrite (plain_no_bracket s Hs). simpl. exact IH.
Qed.

Lemma join_nonempty parts : (2 ≤ length parts)%nat → Js.join "," parts ≠ EmptyString.
Proof.
  destruct parts as [|s [|t parts]]; simpl; [lia..|]. intros _.
  destruct s; done.
Qed.

End StringFacts.

(** ** The matcher *)

Section MatcherFacts.

Lemma star_greedy_all {R} (p : ascii → bool) body rest (k : string → option R) r :
  all_chars p body = true → stops p rest = true → k rest = Some r →
  star_greedy p (body +:+ rest) k = Some r.
Proof.
  intros Hall Hstop Hk. induction body as [|c body IH].
  - change (EmptyString +:+ rest) with rest.
    destruct rest as [|c rest]; simpl in *; [done|]. by destruct (p c).
  - rewrite app_cons_s. simpl in *.
    apply andb_true_iff in Hall as [-> Hall]. by rewrite IH.
Qed.

Lemma consumed_app a b : consumed (a +:+ b) b = a.
Proof.
  unfold consumed, Js.substring_to. rewrite length_app_s.
  replace (String.length a + String.length b - String.length b)%nat
    with (String.length a) by lia.
  apply substring_app.
Qed.

Lemma consumed_nil s : consumed s EmptyString = s.
Proof.
  unfold consumed, Js.substring_to. simpl. rewrite Nat.sub_0_r.
  induction s as [|c s IH]; simpl; [done|by rewrite IH].
Qed.

(** A match at the very start of the text is the leftmost one. *)
Lemma search_here groups r s caps rest :
  exec_here groups r s = Some (caps, rest) →
  str_match groups r s = Some caps.
Proof. unfold str_match. destruct s; simpl; by intros ->. Qed.

(** One rule per construct for showing that a pattern matches. *)
Context {R : Type}.
Implicit Types (k : string → captures → option R) (res : R).

Lemma step_Lit l s s' caps k res :
  Js.strip_prefix l s = Some s' → k s' caps = Some res →
  run (Lit l) s caps k = Some res.
Proof. simpl. by intros ->. Qed.

Lemma step_Seq r1 r2 s caps k res :
  run r1 s caps (λ s' caps', run r2 s' caps' k) = Some res →
  run (Seq r1 r2) s caps k = Some res.
Proof. done. Qed.

Lemma step_Cls p c s caps k res :
  p c = true → k s caps = Some res →
  run (Cls p) (String c s) caps k = Some res.
Proof. simpl. by intros ->. Qed.

Lemma step_Star p body rest caps k res :
  all_chars p body = true → stops p rest = true → k rest caps = Some res →
  run (Star p) (body +:+ rest) caps k = Some res.
Proof. intros. simpl. by apply star_greedy_all. Qed.

Lemma step_Star_stop p s caps k res :
  stops p s = true → k s caps = Some res →
  run (Star p) s caps k = Some res.
Proof. intros. by apply (step_Star p EmptyString s). Qed.

Lemma step_Grp i r s caps k res :
  run r s caps (λ s' caps', k s' (<[i := Some (consumed s s')]> caps')) = Some res →
  run (Grp i r) s caps k = Some res.
Proof. done. Qed.

End MatcherFacts.

Ltac match_literal := eapply step_Lit; [reflexivity|].
Ltac skip_spaces := apply step_Star_stop; [reflexivity|].

(** ** Numbers *)

Section NumberFacts.

(** [parseFloat] yields rationals in lowest terms. *)
Lemma parseFloat_reduced s q : parseFloat s = Fin q → Qred q = q.
Proof.
  unfold parseFloat. intros H.
  repeat case_match; simplify_eq; apply Qred_complete, Qred_correct.
Qed.

Lemma half_plus_half q :
  Qred q = q → Num.add (Num.div (Fin q) (of_Z 2)) (Num.div (Fin q) (of_Z 2)) = Fin q.
Proof.
  intros Hq. simpl. f_equal. rewrite <- Hq at 3. apply Qred_complete.
  rewrite !Qred_correct. field.
Qed.

Lemma half_minus_half q :
  Num.sub (Num.div (Fin q) (of_Z 2)) (Num.div (Fin q) (of_Z 2)) = of_Z 0.
Proof.
  simpl. unfold of_Z. f_equal. change (0 # 1) with (Qred 0). apply Qred_complete.
  rewrite !Qred_correct. ring.
Qed.

Lemma minus_zero q : Qred q = q → Num.sub (Fin q) (of_Z 0) = Fin q.
Proof.
  intros Hq. simpl. f_equal. rewrite <- Hq at 2. apply Qred_complete.
  rewrite Qred_correct. ring.
Qed.

Lemma positive_not_zero q : (0 < q)%Q → is_zero q = false.
Proof. unfold Qlt, is_zero. simpl. intros H. apply Z.eqb_neq. lia. Qed.

Lemma or_default_componentOr1 (parts : list string) i :
  or_default (map (λ s, parseFloat (Js.trim s)) parts !! i) (of_Z 1)
  = componentOr1 (parts !! i).
Proof.
  rewrite list_lookup_fmap. destruct (parts !! i) as [s|]; simpl; [|done].
  destruct (parseFloat (Js.trim s)) as [|b|q]; simpl; [done..|].
  by destruct (is_zero q).
Qed.

End NumberFacts.

(** ** The converter *)

Section ConverterFacts.

Import Converter.

(** The bracket pattern on a cube call whose size list is [body]. *)
Lemma cube_bracket_match body :
  all_chars (Js.none_of ["]"]) body = true → body ≠ EmptyString →
  str_match 1 cube_bracket_re ("cube([" +:+ body +:+ "])")
  = Some [Some ("cube([" +:+ body +:+ "])"); Some body].
Proof.
  intros Hall Hne. eapply search_here.
  destruct body as [|c body]; [done|]. simpl in Hall.
  apply andb_true_iff in Hall as [Hc Hall].
  unfold exec_here, cube_bracket_re, sp, some_not, Plus, cat.
  apply step_Seq. match_literal.
  apply step_Seq. skip_spaces.
  apply step_Seq. match_literal.
  apply step_Seq, step_Grp, step_Seq, step_Cls; [done|].
  apply step_Star; [done..|]. cbv beta.
  apply step_Seq. match_literal.
  apply step_Seq. skip_spaces.
  match_literal.
  rewrite consumed_nil. rewrite (consumed_app (String c body) "])"). reflexivity.
Qed.

Lemma cubeParams_call parts :
  (2 ≤ length parts)%nat → Forall (λ s, plain s = true) parts →
  cubeParams (cubeCall parts) = Some (map (λ s, parseFloat (Js.trim s)) parts).
Proof.
  intros Hlen Hall. unfold cubeParams, cubeCall.
  rewrite cube_bracket_match by auto using join_no_bracket, join_nonempty.
  unfold capture. simpl mjoin. simpl default.
  rewrite split_join; [done| |].
  - destruct parts; simpl in *; [lia|done].
  - eapply Forall_impl; [exact Hall|]. apply plain_no_comma.
Qed.

(** The loop over the lines adds what each line yields, in order. *)
Lemma step_adds clean group line :
  step clean group line = add_if group (lineObject clean line).
Proof. unfold step, lineObject. by repeat case_match. Qed.

Lemma loop_children clean lines p r cs :
  fold_left (step clean) lines (Group p r cs)
  = Group p r (cs ++ omap (lineObject clean) lines).
Proof.
  revert cs. induction lines as [|line lines IH]; intros cs; simpl.
  - by rewrite app_nil_r.
  - rewrite step_adds. destruct (lineObject clean line) as [o|]; simpl.
    + by rewrite IH, <- app_assoc.
    + apply IH.
Qed.

(** The scene is the list of the objects of the lines; it is an error
    exactly when that list is empty. *)
Lemma parse_lines code :
  parseOpenSCADToThreeJS code =
  match omap (lineObject (cleanCode code)) (Js.split "010" (cleanCode code)) with
  | [] => Throw no_primitives
  | objs => Ok (Group zero3 no_rotation objs)
  end.
Proof.
  unfold parseOpenSCADToThreeJS, new_Group. rewrite loop_children. simpl.
  by destruct (omap _ _).
Qed.

(** Without an object from any line the evaluation throws. *)
Lemma no_objects_throws code :
  omap (lineObject (cleanCode code)) (Js.split "010" (cleanCode code)) = [] →
  parseOpenSCADToThreeJS code = Throw no_primitives.
Proof. intros H. by rewrite parse_lines, H. Qed.

(** A line that contains [cube(] is left to [parseCube], whatever else
    stands on it. *)
Lemma cube_branch_shadows clean line :
  Js.includes (Js.trim line) "cube(" = true →
  lineObject clean line = parseCube (Js.trim line).
Proof.
  unfold lineObject. intros H. rewrite H.
  by destruct (Js.trim line).
Qed.

Lemma vars_loop_group vars lines : ∀ p r cs,
  ∃ cs', fold_left (ConverterVars.step vars) lines (Group p r cs) = Group p r cs'.
Proof.
  induction lines as [|line lines IH]; intros p r cs; simpl; [by eexists|].
  assert (∃ cs', ConverterVars.step vars (Group p r cs) line = Group p r cs')
    as [cs' ->]; [|apply IH].
  unfold ConverterVars.step, add_if.
  repeat case_match; simpl; by eexists.
Qed.

(** The copy with the variable table returns a scene with a child for
    every source text. *)
Lemma vars_converter_never_empty code :
  children (ConverterVars.parseOpenSCADToThreeJS code) ≠ [].
Proof.
  unfold ConverterVars.parseOpenSCADToThreeJS, new_Group.
  destruct (ConverterVars.parseComplexStructure _ _) as [parsed|]; [done|].
  destruct (vars_loop_group (ConverterVars.extractVariables (cleanCode code))
              (Js.split "010" (cleanCode code)) zero3 no_rotation []) as [cs ->].
  destruct cs as [|c cs]; simpl; done.
Qed.

(** C1 (code defect).  A source without any geometry, [hello world], makes
    the converter that carries the variable table return a scene holding
    its 10 x 10 x 10 placeholder box, where a no-geometry error is
    required; on the same text [openscadConverter.ts] throws.  That file
    in turn accepts a rotate without a child: the scene then holds an
    empty group and no mesh, and nothing is thrown. *)
Theorem placeholder_replaces_missing_geometry :
  ConverterVars.parseOpenSCADToThreeJS "hello world"
  = Group zero3 no_rotation [ConverterVars.placeholder]
  ∧ ConverterVars.placeholder
    = Mesh (BoxGeometry (of_Z 10) (of_Z 10) (of_Z 10))
           {| color := 0x667eea; transparent := true; opacity := Fin (7 # 10) |}
           zero3 no_rotation
  ∧ parseOpenSCADToThreeJS "hello world" = Throw no_primitives
  ∧ parseOpenSCADToThreeJS "rotate([0,0,90])"
    = Ok (Group zero3 no_rotation
            [Group zero3 (euler (of_Z 0) (of_Z 0) (Fin (1 # 2))) []]).
Proof. repeat split; vm_compute; reflexivity. Qed.

(** C2 (code defect).  On the difference group of the claim the main loop
    takes the [cube(] branch before it looks for [difference()]: the scene
    is the cube with the material of a plain cube, 0x667eea, not the
    recoloured mesh [parseDifference] itself would return.  When the group
    is spread over several lines the recoloured cube is added, and then
    the cube and the sphere once more as statements of their own.  The
    converter with the variable table returns the recoloured cube alone. *)
Theorem difference_example_not_tagged :
  let source := "difference(){ cube([10,10,10]); sphere(r=3); }"%string in
  let cube := cubeMesh (vec3 (of_Z 10) (of_Z 10) (of_Z 10)) in
  let tagged := set_material cube (material 0xed8936) in
  let sphere := new_Mesh (SphereGeometry (of_Z 3) 32 32) (material 0x764ba2) in
  parseOpenSCADToThreeJS source = Ok (Group zero3 no_rotation [cube])
  ∧ parseDifference source = Some (Group zero3 no_rotation [tagged])
  ∧ cube ≠ tagged
  ∧ parseOpenSCADToThreeJS
      (on_lines ["difference() {"; "  cube([10,10,10]);"; "  sphere(r=3);"; "}"]%string)
    = Ok (Group zero3 no_rotation [Group zero3 no_rotation [tagged]; cube; sphere])
  ∧ ConverterVars.parseOpenSCADToThreeJS source
    = Group zero3 no_rotation
        [set_material cube (ConverterVars.material 0x8b5cf6 (85 # 100))].
Proof. repeat split; try (vm_compute; reflexivity). vm_compute. discriminate. Qed.



(** The mesh of a cube call with at least two components. *)
Lemma parseCube_call parts :
  (2 ≤ length parts)%nat → Forall (λ s, plain s = true) parts →
  parseCube (cubeCall parts)
  = Some (cubeMesh (vec3 (componentOr1 (parts !! 0%nat))
                         (componentOr1 (parts !! 1%nat))
                         (componentOr1 (parts !! 2%nat)))).
Proof.
  intros Hlen Hall. unfold parseCube. rewrite cubeParams_call by done.
  unfold cubeSize. rewrite length_map.
  destruct (Nat.eqb_spec (length parts) 1) as [?|_]; [lia|].
  by rewrite !or_default_componentOr1.
Qed.

(** C10 (amended).  In a size list of two or more components each of the
    first three that is missing, zero or [NaN] is replaced by 1, and the
    box is built with the sizes so obtained. *)
Theorem cube_components_default parts :
  (2 ≤ length parts)%nat → Forall (λ s, plain s = true) parts →
  let size := vec3 (componentOr1 (parts !! 0%nat))
                   (componentOr1 (parts !! 1%nat))
                   (componentOr1 (parts !! 2%nat)) in
  parseCube (cubeCall parts)
  = Some (Mesh (BoxGeometry (vx size) (vy size) (vz size))
               (material 0x667eea) (vhalf size) no_rotation).
Proof. intros Hlen Hall size. by rewrite parseCube_call. Qed.

Lemma cube_components_default_witness :
  (2 ≤ length ["10"; "0"; "5"]%string)%nat
  ∧ Forall (λ s, plain s = true) ["10"; "0"; "5"]%string
  ∧ let size := vec3 (of_Z 10) (of_Z 1) (of_Z 5) in
    parseCube "cube([10,0,5])"
    = Some (Mesh (BoxGeometry (vx size) (vy size) (vz size))
                 (material 0x667eea) (vhalf size) no_rotation).
Proof.
  split; [simpl; lia|]. split; [by repeat constructor|].
  apply (cube_components_default ["10"; "0"; "5"]%string);
    [simpl; lia|by repeat constructor].
Defined.

(** The two examples of the claim. *)
Lemma cube_examples :
  parseCube "cube([10,0,5])" = Some (cubeMesh (vec3 (of_Z 10) (of_Z 1) (of_Z 5)))
  ∧ parseCube "cube([10,10])" = Some (cubeMesh (vec3 (of_Z 10) (of_Z 10) (of_Z 1))).
Proof. split; vm_compute; reflexivity. Qed.

(** C10, as stated, fails on a list of one component: [cube([5])] is the
    cube of side 5, not the box 5 x 1 x 1, and in [cube([0])] the zero is
    kept. *)
Lemma single_component_cube :
  parseCube (cubeCall ["5"%string])
  ≠ Some (cubeMesh (vec3 (componentOr1 (["5"%string] !! 0%nat))
                         (componentOr1 (["5"%string] !! 1%nat))
                         (componentOr1 (["5"%string] !! 2%nat))))
  ∧ parseCube "cube([5])" = Some (cubeMesh (vec3 (of_Z 5) (of_Z 5) (of_Z 5)))
  ∧ parseCube "cube([0])" = Some (cubeMesh (vec3 (of_Z 0) (of_Z 0) (of_Z 0))).
Proof. repeat split; try (vm_compute; reflexivity). vm_compute. discriminate. Qed.

(** C4.  A cube statement with three positive sizes [x], [y], [z] yields a
    mesh placed at half its sizes, whose bounding box has its lowest corner
    at the local origin and the extents [x], [y], [z]. *)
Theorem cube_bounding_box sx sy sz x y z :
  plain sx = true → plain sy = true → plain sz = true →
  parseFloat (Js.trim sx) = Fin x →
  parseFloat (Js.trim sy) = Fin y →
  parseFloat (Js.trim sz) = Fin z →
  (0 < x)%Q → (0 < y)%Q → (0 < z)%Q →
  ∃ mesh box,
    parseCube (cubeCall [sx; sy; sz]) = Some mesh
    ∧ THREE.position mesh = vhalf (vec3 (Fin x) (Fin y) (Fin z))
    ∧ boundingBox mesh = Some box
    ∧ box.1 = zero3
    ∧ boxSize box = vec3 (Fin x) (Fin y) (Fin z).
Proof.
  intros Px Py Pz Hx Hy Hz Gx Gy Gz.
  rewrite parseCube_call; [|simpl; lia|by repeat constructor].
  simpl lookup. unfold componentOr1. rewrite Hx, Hy, Hz.
  rewrite !positive_not_zero by done.
  apply parseFloat_reduced in Hx, Hy, Hz.
  eexists _, _. split; [reflexivity|]. split; [reflexivity|].
  split; [reflexivity|].
  unfold boxSize, vsub, vadd, vhalf. cbn [fst snd vx vy vz].
  rewrite !half_minus_half, !half_plus_half, !minus_zero by done. done.
Qed.

Lemma cube_bounding_box_witness :
  ∃ mesh box,
    parseCube "cube([10,20,30])" = Some mesh
    ∧ THREE.position mesh = vhalf (vec3 (of_Z 10) (of_Z 20) (of_Z 30))
    ∧ boundingBox mesh = Some box
    ∧ box.1 = zero3
    ∧ boxSize box = vec3 (of_Z 10) (of_Z 20) (of_Z 30).
Proof.
  apply (cube_bounding_box "10" "20" "30" 10 20 30); reflexivity.
Defined.

(** C5 (code defect).  [parseCylinder] reads named parameters only:
    positional values are ignored and the defaults [h = 1], [r = 1] are
    used.  In [parseSphere] a positional radius wins over a named one. *)
Theorem cylinder_positional_ignored :
  let cylinder (top bottom h : Z) :=
    set_rotation
      (new_Mesh (CylinderGeometry (of_Z top) (of_Z bottom) (of_Z h) 32) (material 0x48bb78))
      (euler (Fin (1 # 2)) (of_Z 0) (of_Z 0)) in
  parseCylinder "cylinder(10, 3, 3)" = Some (cylinder 1 1 1)%Z
  ∧ parseCylinder "cylinder(h=10, r1=3, r2=6)" = Some (cylinder 6 3 10)%Z
  ∧ parseCylinder "cylinder(h=10, r=4)" = Some (cylinder 4 4 10)%Z
  ∧ parseSphere "sphere(3, r=5)"
    = Some (new_Mesh (SphereGeometry (of_Z 3) 32 32) (material 0x764ba2)).
Proof. repeat split; vm_compute; reflexivity. Qed.

(** C8 (code defect).  A line with a translate and its cube goes to the
    [cube(] branch of the main loop: the scene is that of the cube alone
    and the centre of its box stays at (1,1,1), although [parseTranslate]
    on the same line yields the group moved by (1,2,3).  With the cube on
    the next line the moved group is added, and the cube a second time,
    unmoved, as a statement of its own. *)
Theorem translate_shadowed_by_cube :
  let line := "translate([1,2,3]) cube([2,2,2]);"%string in
  let cube := cubeMesh (vec3 (of_Z 2) (of_Z 2) (of_Z 2)) in
  let moved := vec3 (of_Z 1) (of_Z 2) (of_Z 3) in
  parseOpenSCADToThreeJS line = Ok (Group zero3 no_rotation [cube])
  ∧ parseOpenSCADToThreeJS "cube([2,2,2]);" = Ok (Group zero3 no_rotation [cube])
  ∧ boxCenter zero3 cube = vec3 (of_Z 1) (of_Z 1) (of_Z 1)
  ∧ parseTranslate line line = Some (Group moved no_rotation [cube])
  ∧ boxCenter moved cube = vadd moved (boxCenter zero3 cube)
  ∧ parseOpenSCADToThreeJS (on_lines ["translate([1,2,3])"; "  cube([2,2,2]);"]%string)
    = Ok (Group zero3 no_rotation [Group moved no_rotation [cube]; cube]).
Proof. repeat split; vm_compute; reflexivity. Qed.

End ConverterFacts.

(** ** The exporter *)

Section ExporterFacts.

Import StlExporter.

Context {Matrix4 : Type}.
Variable applyMatrix4 : Vector3 → Matrix4 → Vector3.
Variable extractRotation : Matrix4 → Matrix4.
Variable normalize : Vector3 → Vector3.
Variable toString : num → string.

Abbreviation facetText' := (facetText toString).
Abbreviation writeIndexed' := (writeIndexed normalize toString).
Abbreviation writeSoup' := (writeSoup normalize toString).
Abbreviation facetNormal' := (facetNormal normalize).
Abbreviation verticesOf' := (verticesOf applyMatrix4).
Abbreviation normalsOf' := (normalsOf applyMatrix4 extractRotation).
Abbreviation worldVertex' := (worldVertex applyMatrix4).
Abbreviation worldNormal' := (worldNormal applyMatrix4 extractRotation).
Abbreviation worldTriangle' := (worldTriangle applyMatrix4).
Abbreviation writtenNormal' := (writtenNormal applyMatrix4 extractRotation normalize).
Abbreviation meshFacets' := (meshFacets applyMatrix4 extractRotation normalize).
Abbreviation sceneFacets' := (sceneFacets applyMatrix4 extractRotation normalize).
Abbreviation generateSTL' := (generateSTL applyMatrix4 extractRotation normalize toString).
Abbreviation exportToSTL' := (exportToSTL applyMatrix4 extractRotation normalize toString).
Abbreviation vertexCount mesh := (length (default [] (position mesh.1))).

Lemma concat_strings_app l1 l2 :
  concat_strings (l1 ++ l2) = concat_strings l1 +:+ concat_strings l2.
Proof. induction l1 as [|s l1 IH]; simpl; [done|]. by rewrite IH, app_assoc_s. Qed.

Lemma three_div n r : (r < 3 → (3 * n + r) / 3 = n)%nat.
Proof. intros. symmetry. apply (Nat.div_unique _ 3 n r); lia. Qed.

Lemma vertices_lookup mesh i :
  (i < vertexCount mesh)%nat → verticesOf' mesh !! i = Some (worldVertex' mesh i).
Proof.
  intros Hi. unfold verticesOf, worldVertex, at_.
  rewrite list_lookup_fmap.
  destruct (lookup_lt_is_Some_2 _ _ Hi) as [p ->]. done.
Qed.

Lemma normals_lookup mesh i :
  (i < length (default [] (normal mesh.1)))%nat →
  normalsOf' mesh !! i = Some (worldNormal' mesh i).
Proof.
  intros Hi. unfold normalsOf, worldNormal, at_.
  rewrite list_lookup_fmap.
  destruct (lookup_lt_is_Some_2 _ _ Hi) as [p ->]. done.
Qed.

(** On corners that exist, the normal computed in the loops is the one
    of [writtenNormal]. *)
Lemma facetNormal_written mesh a b c :
  normalsFit mesh →
  (a < vertexCount mesh)%nat → (b < vertexCount mesh)%nat → (c < vertexCount mesh)%nat →
  facetNormal' (normalsOf' mesh) a b c
    (worldVertex' mesh a) (worldVertex' mesh b) (worldVertex' mesh c)
  = Some (writtenNormal' mesh (a, b, c)).
Proof.
  unfold normalsFit, facetNormal, writtenNormal.
  intros Hfit Ha Hb Hc.
  destruct (hasNormals mesh.1) eqn:Hn.
  - assert ((0 <? length (normalsOf' mesh))%nat = true) as ->.
    { apply Nat.ltb_lt. unfold normalsOf. rewrite length_fmap. lia. }
    rewrite !normals_lookup by lia. done.
  - unfold normalsOf. rewrite Hfit. done.
Qed.

(** The loop over the index buffer, started after [a] triangles. *)
Lemma writeIndexed_chunks mesh n : ∀ rest pre a stl,
  normalsFit mesh →
  length pre = (3 * a)%nat → length rest = (3 * n)%nat →
  Forall (λ i, i < vertexCount mesh)%nat rest →
  writeIndexed' (verticesOf' mesh) (normalsOf' mesh) (pre ++ rest)
                (map (λ k, 3 * k)%nat (seq a n)) stl
  = Return (stl +:+ concat_strings
      (facetText' <$> ((λ t, (writtenNormal' mesh t, worldTriangle' mesh t))
                       <$> chunks3 rest))).
Proof.
  induction n as [|n IH]; intros rest pre a stl Hfit Hpre Hrest Hall.
  - destruct rest; [|done]. simpl. by rewrite app_nil_s.
  - destruct rest as [|i1 [|i2 [|i3 rest]]]; simpl in Hrest; try lia.
    apply Forall_cons in Hall as [H1 Hall].
    apply Forall_cons in Hall as [H2 Hall].
    apply Forall_cons in Hall as [H3 Hall].
    cbn [seq map writeIndexed].
    assert ((pre ++ i1 :: i2 :: i3 :: rest) !! (3 * a)%nat = Some i1) as ->.
    { rewrite lookup_app_r by lia.
      by replace (3 * a - length pre)%nat with 0%nat by lia. }
    assert ((pre ++ i1 :: i2 :: i3 :: rest) !! (3 * a + 1)%nat = Some i2) as ->.
    { rewrite lookup_app_r by lia.
      by replace (3 * a + 1 - length pre)%nat with 1%nat by lia. }
    assert ((pre ++ i1 :: i2 :: i3 :: rest) !! (3 * a + 2)%nat = Some i3) as ->.
    { rewrite lookup_app_r by lia.
      by replace (3 * a + 2 - length pre)%nat with 2%nat by lia. }
    cbn [mbind option_bind].
    rewrite !vertices_lookup by done. cbn [mbind option_bind].
    rewrite facetNormal_written by done. cbn [mbind option_bind].
    replace (pre ++ i1 :: i2 :: i3 :: rest) with ((pre ++ [i1; i2; i3]) ++ rest)
      by (by rewrite <- app_assoc).
    rewrite (IH rest (pre ++ [i1; i2; i3]) (S a)); [|done| |lia|done].
    2: { rewrite length_app. simpl. lia. }
    cbn [chunks3 fmap list_fmap concat_strings]. by rewrite app_assoc_s.
Qed.

(** The loop over a triangle soup, on whole triangles. *)
Lemma writeSoup_full mesh n : ∀ a stl,
  normalsFit mesh →
  (3 * (a + n) ≤ vertexCount mesh)%nat →
  writeSoup' (verticesOf' mesh) (normalsOf' mesh) (map (λ k, 3 * k)%nat (seq a n)) stl
  = Return (stl +:+ concat_strings
      (facetText' <$> ((λ t, (writtenNormal' mesh t, worldTriangle' mesh t))
         <$> map (λ k, (3 * k, 3 * k + 1, 3 * k + 2))%nat (seq a n)))).
Proof.
  induction n as [|n IH]; intros a stl Hfit Hlen.
  - simpl. by rewrite app_nil_s.
  - cbn [seq map writeSoup].
    rewrite !vertices_lookup by lia.
    rewrite facetNormal_written by (done || lia).
    rewrite IH by (done || lia).
    cbn [fmap list_fmap concat_strings]. by rewrite app_assoc_s.
Qed.

(** An incomplete last triangle is passed over. *)
Lemma writeSoup_tail mesh a stl :
  (vertexCount mesh < 3 * a + 3)%nat →
  writeSoup' (verticesOf' mesh) (normalsOf' mesh) [(3 * a)%nat] stl = Return stl.
Proof.
  intros Hlen. cbn [writeSoup].
  assert (verticesOf' mesh !! (3 * a + 2)%nat = None) as ->.
  { apply lookup_ge_None. unfold verticesOf. rewrite length_fmap. lia. }
  by destruct (verticesOf' mesh !! (3 * a)%nat), (verticesOf' mesh !! (3 * a + 1)%nat).
Qed.

Lemma writeSoup_app vs ns s1 s2 stl :
  writeSoup' vs ns (s1 ++ s2) stl =
  match writeSoup' vs ns s1 stl with
  | Return stl' => writeSoup' vs ns s2 stl'
  | Throw e => Throw e
  end.
Proof.
  revert stl. induction s1 as [|i s1 IH]; intros stl; [done|].
  cbn [app writeSoup].
  destruct (vs !! i) as [v1|], (vs !! (i + 1)%nat) as [v2|], (vs !! (i + 2)%nat) as [v3|];
    try apply IH.
  destruct (facetNormal' ns i (i + 1) (i + 2) v1 v2 v3); [apply IH|done].
Qed.

Lemma chunks3_seq n : ∀ a r, (r < 3)%nat →
  chunks3 (seq (3 * a) (3 * n + r))
  = map (λ k, (3 * k, 3 * k + 1, 3 * k + 2))%nat (seq a n).
Proof.
  induction n as [|n IH]; intros a r Hr.
  - destruct r as [|[|[|r]]]; simpl; (done || lia).
  - replace (3 * S n + r)%nat with (S (S (S (3 * n + r)))) by lia.
    cbn [seq chunks3 map].
    replace (S (S (S (3 * a)))) with (3 * S a)%nat by lia.
    rewrite IH by done. repeat f_equal; lia.
Qed.

Lemma strides_whole n : strides (3 * n) = map (λ k, 3 * k)%nat (seq 0 n).
Proof. unfold strides. by rewrite (three_div n 2) by lia. Qed.

Lemma strides_partial n r :
  (0 < r < 3)%nat →
  strides (3 * n + r) = map (λ k, 3 * k)%nat (seq 0 n) ++ [(3 * n)%nat].
Proof.
  intros Hr. unfold strides.
  replace (3 * n + r + 2)%nat with (3 * S n + (r - 1))%nat by lia.
  rewrite (three_div (S n) (r - 1)) by lia.
  by rewrite seq_S, map_app.
Qed.

Lemma normalsFit_wf (mesh : BufferGeometry * Matrix4) ps :
  position mesh.1 = Some ps → wellFormed mesh.1 = true → normalsFit mesh.
Proof.
  unfold wellFormed, normalsFit, hasNormals. intros ->.
  destruct (normal mesh.1) as [[|n ns]|]; cbn [default]; try done.
  intros [H _]%andb_true_iff. by apply Nat.eqb_eq in H.
Qed.

(** The callback of [forEach] appends the facets of its mesh. *)
Lemma writeMesh_facets mesh stl :
  wellFormed mesh.1 = true →
  writeMesh applyMatrix4 extractRotation normalize toString stl mesh
  = Return (stl +:+ concat_strings (facetText' <$> meshFacets' mesh)).
Proof.
  intros Hwf. unfold writeMesh, meshFacets, triangles.
  assert (match normal mesh.1 with
          | Some normalAttribute =>
              map (λ n, applyMatrix4 n (extractRotation mesh.2)) normalAttribute
          | None => []
          end = normalsOf' mesh) as ->.
  { unfold normalsOf. by destruct (normal mesh.1). }
  destruct (position mesh.1) as [ps|] eqn:Hps.
  2: { simpl. by rewrite app_nil_s. }
  pose proof (normalsFit_wf mesh ps Hps Hwf) as Hfit.
  assert (map (λ p, applyMatrix4 p mesh.2) ps = verticesOf' mesh) as ->.
  { unfold verticesOf. by rewrite Hps. }
  unfold wellFormed in Hwf. rewrite Hps in Hwf.
  apply andb_true_iff in Hwf as [_ Hix].
  destruct (index mesh.1) as [ix|].
  - apply andb_true_iff in Hix as [Hmod Hall].
    apply Nat.eqb_eq in Hmod.
    pose proof (Nat.div_mod_eq (length ix) 3) as Hdiv.
    rewrite Hmod, Nat.add_0_r in Hdiv.
    rewrite Hdiv at 1. rewrite strides_whole.
    apply (writeIndexed_chunks mesh (length ix / 3) ix [] 0%nat); [done|done|done|].
    rewrite Hps. simpl. apply Forall_forall. intros i Hi.
    rewrite forallb_forall in Hall. apply Nat.ltb_lt, Hall. by apply list_elem_of_In.
  - pose proof (Nat.div_mod_eq (length ps) 3) as Hdiv.
    pose proof (Nat.mod_upper_bound (length ps) 3) as Hr.
    set (n := (length ps / 3)%nat) in *. set (r := (length ps mod 3)%nat) in *.
    assert (length (verticesOf' mesh) = length ps) as ->.
    { unfold verticesOf. by rewrite Hps, length_fmap. }
    assert (chunks3 (seq 0 (3 * n + r)) =
            map (λ k, (3 * k, 3 * k + 1, 3 * k + 2))%nat (seq 0 n)) as Hc
      by (apply (chunks3_seq n 0 r); lia).
    rewrite Hdiv, Hc.
    destruct (decide (r = 0%nat)) as [->|Hne].
    + rewrite Nat.add_0_r, strides_whole.
      apply writeSoup_full; [done|]. rewrite Hps. simpl. lia.
    + rewrite strides_partial, writeSoup_app by lia.
      rewrite writeSoup_full; [|done|rewrite Hps; simpl; lia].
      apply writeSoup_tail. rewrite Hps. simpl. lia.
Qed.

Lemma forEach_facets meshes : ∀ stl,
  Forall (λ mesh, wellFormed mesh.1 = true) meshes →
  forEach applyMatrix4 extractRotation normalize toString meshes stl
  = Return (stl +:+ concat_strings (facetText' <$> (meshes ≫= meshFacets'))).
Proof.
  induction meshes as [|mesh meshes IH]; intros stl Hwf.
  - simpl. by rewrite app_nil_s.
  - apply Forall_cons in Hwf as [Hm Hwf].
    cbn [forEach]. rewrite writeMesh_facets by done. rewrite IH by done.
    rewrite bind_cons, fmap_app, concat_strings_app. by rewrite app_assoc_s.
Qed.

Lemma unlines_app l1 l2 :
  unlines (l1 ++ l2) = unlines l1 +:+ unlines l2.
Proof.
  induction l1 as [|l l1 IH]; [done|].
  cbn [app unlines]. by rewrite IH, !app_assoc_s.
Qed.

(** The text appended for a facet is its seven lines. *)
Lemma unlines_facet f : unlines (facetLines toString f) = facetText' f.
Proof.
  destruct f as [n [[v1 v2] v3]]. unfold facetText, facet. simpl.
  by rewrite !app_assoc_s.
Qed.

Lemma unlines_facets facets :
  unlines (facets ≫= facetLines toString) = concat_strings (facetText' <$> facets).
Proof.
  induction facets as [|f facets IH]; [done|].
  rewrite bind_cons, unlines_app, unlines_facet, IH. done.
Qed.

(** The whole output on a scene of well-formed meshes. *)
Lemma generateSTL_facets group :
  traverse group ≠ [] →
  Forall (λ mesh, wellFormed mesh.1 = true) (traverse group) →
  generateSTL' group = Return (unlines (stlLines toString (sceneFacets' group))).
Proof.
  intros Hne Hwf. unfold generateSTL.
  destruct (Nat.eqb_spec (length (traverse group)) 0) as [H0|_].
  { by apply nil_length_inv in H0. }
  rewrite forEach_facets by done.
  unfold stlLines, sceneFacets. cbn [unlines].
  rewrite unlines_app, unlines_facets. cbn [unlines].
  by rewrite !app_assoc_s, app_nil_s.
Qed.

Lemma facets_triangles meshes :
  (meshes ≫= meshFacets').*2 = meshes ≫= (λ mesh, worldTriangle' mesh <$> triangles mesh.1).
Proof.
  induction meshes as [|mesh meshes IH]; [done|].
  rewrite !bind_cons, fmap_app, IH. f_equal.
  unfold meshFacets. by rewrite <- list_fmap_compose.
Qed.


(** C7 (amended).  The normal written for a triangle is, when the mesh has
    a non-empty normal attribute, the normalized sum of the normals at its
    three corners, each transformed by the rotation of the world matrix,
    and otherwise the normalized cross product of the edges from the first
    corner to the second and to the third, taken in the world frame. *)
Theorem stl_facet_normals group :
  traverse group ≠ [] →
  Forall (λ mesh, wellFormed mesh.1 = true) (traverse group) →
  generateSTL' group =
  Return (unlines (stlLines toString (
    mesh ← traverse group;
    (λ '(a, b, c),
       (if hasNormals mesh.1 then
          normalize (vadd (vadd (worldNormal' mesh a) (worldNormal' mesh b))
                          (worldNormal' mesh c))
        else
          normalize (crossVectors
                       (subVectors (worldVertex' mesh b) (worldVertex' mesh a))
                       (subVectors (worldVertex' mesh c) (worldVertex' mesh a))),
        (worldVertex' mesh a, worldVertex' mesh b, worldVertex' mesh c)))
    <$> triangles mesh.1))).
Proof.
  intros Hne Hwf. rewrite generateSTL_facets by done.
  do 3 f_equal. unfold sceneFacets. apply list_bind_ext; [|done].
  intros mesh. unfold meshFacets. apply list_fmap_ext.
  by intros _ [[a b] c] _.
Qed.

(** C9.  On a scene without a mesh [generateSTL] throws the error
    [No meshes to export]; [exportToSTL] passes it on and nothing is
    downloaded. *)
Theorem empty_export_throws group filename d :
  traverse group = [] →
  generateSTL' group = Throw (Error "No meshes to export")
  ∧ exportToSTL' group filename d = (Throw (Error "No meshes to export"), d).
Proof.
  intros Hnil. unfold exportToSTL, generateSTL. by rewrite Hnil.
Qed.

End ExporterFacts.

Section ExporterExamples.

Import StlExporter ExactThree.


Lemma stl_facet_normals_witness :
  traverse demoScene ≠ []
  ∧ Forall (λ mesh, wellFormed mesh.1 = true) (traverse demoScene)
  ∧ ExactThree.generateSTL demoScene =
    Return (unlines (stlLines toString
      [(point 0 0 1,
        (vec3 (of_Z 10) (of_Z 0) (Fin (1 # 4)),
         vec3 (of_Z 11) (of_Z 0) (Fin (1 # 4)),
         vec3 (of_Z 10) (of_Z 1) (Fin (1 # 4))));
       (vec3 (Fin (3 # 5)) (of_Z 0) (Fin (4 # 5)),
        (point 0 0 0, point 1 0 0, point 0 1 0))])).
Proof.
  split; [done|]. split; [by repeat constructor|].
  etrans;
    [apply (stl_facet_normals applyMatrix4 extractRotation normalize toString demoScene);
     [done|by repeat constructor]|].
  vm_compute. reflexivity.
Defined.

Lemma empty_export_throws_witness :
  traverse emptyScene = []
  ∧ ExactThree.generateSTL emptyScene = Throw (Error "No meshes to export")
  ∧ exportToSTL applyMatrix4 extractRotation normalize toString
      emptyScene "model.stl" []
    = (Throw (Error "No meshes to export"), []).
Proof.
  split; [reflexivity|].
  apply (empty_export_throws applyMatrix4 extractRotation normalize toString
           emptyScene "model.stl" []).
  reflexivity.
Defined.

(** C7, as stated, fails on the shaded triangle: its mesh carries the
    normals (3/5, 4/5, 0), (3/5, -4/5, 0) and (-3/5, 0, 4/5) at the three
    corners, the normal written is (3/5, 0, 4/5), which is none of them and
    is not the normal (0, 0, 1) of the cross product of the edges
    either. *)
Lemma facet_normal_not_carried :
  let carried := default [] (normal shadedTriangle) in
  let written := vec3 (Fin (3 # 5)) (of_Z 0) (Fin (4 # 5)) in
  ExactThree.generateSTL (MeshNode shadedTriangle identity [])
  = Return (unlines (stlLines toString
      [(written, (point 0 0 0, point 1 0 0, point 0 1 0))]))
  ∧ (written ∉ carried)
  ∧ written ≠ ExactThree.normalize
                (crossVectors (subVectors (point 1 0 0) (point 0 0 0))
                              (subVectors (point 0 1 0) (point 0 0 0))).
Proof.
  cbv zeta. split; [|split].
  - vm_compute. reflexivity.
  - eapply (bool_decide_eq_false_1 _). vm_compute. reflexivity.
  - vm_compute. discriminate.
Qed.

End ExporterExamples.

(** * Further properties *)

(** ** Comments *)

Section CommentFacts.

Import Converter.

Lemma app_nil_l_s (a : string) : EmptyString +:+ a = a.
Proof. reflexivity. Qed.

Lemma startsWith_cons_ne a b s p :
  Ascii.eqb a b = false → Js.startsWith (String b s) (String a p) = false.
Proof. unfold Js.startsWith. simpl. by intros ->. Qed.

Lemma indexOf_cons a s p :
  Js.startsWith (String a s) p = false →
  Js.indexOf (String a s) p = S <$> Js.indexOf s p.
Proof. simpl. by intros ->. Qed.

(** A text without the first character of [p] does not contain [p]. *)
Lemma indexOf_absent c p s :
  all_chars (no_char c) s = true → Js.indexOf s (String c p) = None.
Proof.
  induction s as [|a s IH]; [done|]. simpl all_chars.
  intros [Ha Hs]%andb_true_iff. unfold no_char in Ha.
  rewrite indexOf_cons.
  - by rewrite IH.
  - apply startsWith_cons_ne. rewrite Ascii.eqb_sym. by apply negb_true_iff.
Qed.

Lemma split_nonempty c s : Js.split c s ≠ [].
Proof.
  destruct s as [|a s]; simpl; [done|].
  destruct (Ascii.eqb a c); [done|]. by destruct (Js.split c s).
Qed.

Lemma join_cons_char sep a w ws :
  Js.join sep (String a w :: ws) = String a (Js.join sep (w :: ws)).
Proof. by destruct ws. Qed.

(** [join] undoes [split]. *)
Lemma join_split c s : Js.join (String c EmptyString) (Js.split c s) = s.
Proof.
  induction s as [|a s IH]; [done|]. simpl.
  destruct (Ascii.eqb_spec a c) as [->|Hne].
  - pose proof (split_nonempty c s) as Hn.
    destruct (Js.split c s) as [|w ws]; [done|].
    change (Js.join (String c EmptyString) (EmptyString :: w :: ws))
      with (String c (Js.join (String c EmptyString) (w :: ws))).
    by rewrite IH.
  - pose proof (split_nonempty c s) as Hn.
    destruct (Js.split c s) as [|w ws]; [done|].
    by rewrite join_cons_char, IH.
Qed.

Lemma split_all_chars p c s :
  all_chars p s = true → Forall (λ l, all_chars p l = true) (Js.split c s).
Proof.
  induction s as [|a s IH]; simpl; [by repeat constructor|].
  intros [Ha Hs]%andb_true_iff. specialize (IH Hs).
  destruct (Ascii.eqb a c); [by constructor|].
  destruct (Js.split c s) as [|w ws]; [by repeat constructor; simpl; rewrite Ha|].
  apply Forall_cons in IH as [Hw Hws]. constructor; [|done].
  simpl. by rewrite Ha, Hw.
Qed.

Lemma includes_false s p : Js.includes s p = false ↔ Js.indexOf s p = None.
Proof. unfold Js.includes. by destruct (Js.indexOf s p). Qed.

Lemma strip_prefix_app_l p a b s :
  Js.strip_prefix p a = Some s → Js.strip_prefix p (a +:+ b) = Some (s +:+ b).
Proof.
  revert a. induction p as [|x p IH]; intros a; simpl.
  - by intros [= ->].
  - destruct a as [|y a]; [done|]. rewrite app_cons_s.
    destruct (Ascii.eqb x y); [apply IH|done].
Qed.

Lemma startsWith_app_l p a b :
  Js.startsWith a p = true → Js.startsWith (a +:+ b) p = true.
Proof.
  unfold Js.startsWith. destruct (Js.strip_prefix p a) eqn:E; [|done].
  by rewrite (strip_prefix_app_l _ _ _ _ E).
Qed.

(** A text that does not contain [p] has no part that contains it. *)
Lemma includes_app a b p :
  Js.includes (a +:+ b) p = false →
  Js.includes a p = false ∧ Js.includes b p = false.
Proof.
  rewrite !includes_false. induction a as [|x a IH].
  - rewrite app_nil_l_s. intros Hb. split; [|done].
    simpl. destruct (Js.startsWith EmptyString p) eqn:E; [|done].
    apply (startsWith_app_l _ _ b) in E. rewrite app_nil_l_s in E.
    destruct b; simpl in Hb; by rewrite E in Hb.
  - rewrite app_cons_s. simpl.
    destruct (Js.startsWith (String x (a +:+ b)) p) eqn:E; [done|].
    destruct (Js.startsWith (String x a) p) eqn:E'.
    { apply (startsWith_app_l _ _ b) in E'. rewrite app_cons_s in E'. congruence. }
    destruct (Js.indexOf (a +:+ b) p) eqn:Hi; [done|]. intros _.
    destruct (IH eq_refl) as [-> ->]. done.
Qed.

Lemma includes_join sep parts p :
  Js.includes (Js.join sep parts) p = false →
  Forall (λ l, Js.includes l p = false) parts.
Proof.
  induction parts as [|w ws IH]; [by constructor|].
  destruct ws as [|w' ws].
  - simpl. by repeat constructor.
  - change (Js.join sep (w :: w' :: ws)) with (w +:+ sep +:+ Js.join sep (w' :: ws)).
    intros [Hw [_ Hrest]%includes_app]%includes_app.
    constructor; [done|]. by apply IH.
Qed.

Lemma stripLineComment_id line :
  Js.includes line "//" = false → stripLineComment line = line.
Proof. rewrite includes_false. unfold stripLineComment. by intros ->. Qed.

Lemma strip_lines_id code :
  Js.includes code "//" = false →
  Js.join (String "010" EmptyString) (map stripLineComment (Js.split "010" code)) = code.
Proof.
  intros H. rewrite <- (join_split "010" code) in H.
  apply includes_join in H.
  assert (map stripLineComment (Js.split "010" code) = Js.split "010" code) as ->.
  { induction H as [|l ls Hl _ IH]; [done|]. simpl. by rewrite stripLineComment_id, IH. }
  apply join_split.
Qed.

(** A pattern that begins with the literal [l] has no match in a text that
    does not contain [l]. *)
Lemma search_literal_absent groups l r s :
  Js.includes s l = false → search groups (Seq (Lit l) r) s = None.
Proof.
  rewrite includes_false. induction s as [|a s IH]; simpl.
  - unfold exec_here. simpl.
    destruct (Js.startsWith EmptyString l) eqn:E; [done|].
    unfold Js.startsWith in E. by destruct (Js.strip_prefix l EmptyString).
  - destruct (Js.startsWith (String a s) l) eqn:E; [done|].
    unfold exec_here. simpl.
    unfold Js.startsWith in E. simpl in E.
    destruct (Js.strip_prefix l (String a s)); [done|].
    destruct (Js.indexOf s l) eqn:Hi; [done|]. intros _. by rewrite IH.
Qed.

Lemma remove_all_absent l r s :
  Js.includes s l = false → remove_all (Seq (Lit l) r) s = s.
Proof. intros H. unfold remove_all. simpl. by rewrite search_literal_absent. Qed.

(** Both stages of [cleanCode] leave a text without comment marks alone. *)
Lemma cleanCode_plain code :
  Js.includes code "//" = false → Js.includes code "/*" = false →
  cleanCode code = code.
Proof.
  intros H1 H2. unfold cleanCode. rewrite strip_lines_id by done.
  by apply remove_all_absent.
Qed.

Lemma trimStart_blank s : all_chars Js.is_space s = true → Js.trimStart s = EmptyString.
Proof.
  induction s as [|a s IH]; simpl; [done|].
  intros [-> Hs]%andb_true_iff. auto.
Qed.

Lemma trim_blank s : all_chars Js.is_space s = true → Js.trim s = EmptyString.
Proof. intros H. unfold Js.trim. by rewrite trimStart_blank. Qed.

Lemma blank_no_slash s :
  all_chars Js.is_space s = true → all_chars (no_char "/") s = true.
Proof. apply all_chars_impl. intros c. by destruct c as [[] [] [] [] [] [] [] []]. Qed.

Lemma absent_includes c p s :
  all_chars (no_char c) s = true → Js.includes s (String c p) = false.
Proof. intros H. apply includes_false. by apply indexOf_absent. Qed.

(** X4.  A source of white space only, the empty one included, holds no
    statement: every line is skipped and the evaluation throws. *)
Theorem blank_source_throws code :
  all_chars Js.is_space code = true →
  parseOpenSCADToThreeJS code = Throw no_primitives.
Proof.
  intros H. apply no_objects_throws.
  rewrite cleanCode_plain by (apply absent_includes; by apply blank_no_slash).
  pose proof (split_all_chars _ "010" _ H) as Hl.
  induction Hl as [|l ls Hl _ IH]; [done|].
  change (omap (lineObject code) (l :: ls))
    with (match lineObject code l with Some y => y :: omap (lineObject code) ls
          | None => omap (lineObject code) ls end).
  unfold lineObject at 1. rewrite trim_blank by done. simpl. exact IH.
Qed.

Lemma stripLineComment_cons a w :
  Ascii.eqb a "/" = false →
  stripLineComment (String a w) = String a (stripLineComment w).
Proof.
  intros Ha. unfold stripLineComment.
  rewrite indexOf_cons by (apply startsWith_cons_ne; by rewrite Ascii.eqb_sym).
  by destruct (Js.indexOf w "//").
Qed.

Lemma map_nonempty {A B} (f : A → B) l : l ≠ [] → map f l ≠ [].
Proof. by destruct l. Qed.

(** The first stage of [cleanCode] on a text that ends in a line comment. *)
Lemma strip_trailing_comment s t :
  all_chars (no_char "/") s = true → all_chars (no_char "010") t = true →
  Js.join (String "010" EmptyString)
    (map stripLineComment (Js.split "010" (s +:+ "//" +:+ t))) = s.
Proof.
  intros Hs Ht. induction s as [|a s IH].
  - rewrite app_nil_l_s.
    rewrite split_whole by (simpl; exact Ht). reflexivity.
  - simpl in Hs. apply andb_true_iff in Hs as [Ha Hs]. specialize (IH Hs).
    unfold no_char in Ha. apply negb_true_iff in Ha.
    rewrite app_cons_s. simpl Js.split.
    pose proof (split_nonempty "010" (s +:+ "//" +:+ t)) as Hn.
    destruct (Js.split "010" (s +:+ "//" +:+ t)) as [|w ws]; [done|].
    destruct (Ascii.eqb_spec a "010") as [->|Hne].
    + change (map stripLineComment (EmptyString :: w :: ws))
        with (EmptyString :: stripLineComment w :: map stripLineComment ws).
      change (Js.join (String "010" EmptyString)
                (EmptyString :: stripLineComment w :: map stripLineComment ws))
        with (String "010" (Js.join (String "010" EmptyString)
                (map stripLineComment (w :: ws)))).
      by rewrite IH.
    + simpl map. rewrite stripLineComment_cons by done.
      rewrite join_cons_char. by rewrite <- IH.
Qed.

Lemma cleanCode_trailing_comment s t :
  all_chars (no_char "/") s = true → all_chars (no_char "010") t = true →
  cleanCode (s +:+ "//" +:+ t) = s.
Proof.
  intros Hs Ht. unfold cleanCode. rewrite strip_trailing_comment by done.
  apply remove_all_absent. by apply absent_includes.
Qed.

Lemma parse_by_cleanCode a b :
  cleanCode a = cleanCode b → parseOpenSCADToThreeJS a = parseOpenSCADToThreeJS b.
Proof. unfold parseOpenSCADToThreeJS. by intros ->. Qed.

(** X5.  A line comment after the last statement changes nothing: the
    text from [//] to the end is cut before the lines are read. *)
Theorem trailing_comment_ignored s t :
  all_chars (no_char "/") s = true → all_chars (no_char "010") t = true →
  parseOpenSCADToThreeJS (s +:+ "//" +:+ t) = parseOpenSCADToThreeJS s.
Proof.
  intros Hs Ht. apply parse_by_cleanCode.
  rewrite cleanCode_trailing_comment by done.
  symmetry. apply cleanCode_plain; by apply absent_includes.
Qed.

(** [search] passes over a prefix that is free of the first character of
    the literal the pattern begins with. *)
Lemma search_skip groups a l r pre s :
  all_chars (no_char a) pre = true →
  search groups (Seq (Lit (String a l)) r) (pre +:+ s) =
  match search groups (Seq (Lit (String a l)) r) s with
  | Some (before, caps, rest) => Some (pre +:+ before, caps, rest)
  | None => None
  end.
Proof.
  intros Hpre. induction pre as [|x pre IH].
  - rewrite app_nil_l_s. by destruct (search _ _ _) as [[[??]?]|].
  - simpl in Hpre. apply andb_true_iff in Hpre as [Hx Hpre].
    unfold no_char in Hx. apply negb_true_iff in Hx.
    rewrite app_cons_s. simpl search.
    assert (exec_here groups (Seq (Lit (String a l)) r) (String x (pre +:+ s)) = None) as ->.
    { unfold exec_here. simpl. rewrite Ascii.eqb_sym in Hx. by rewrite Hx. }
    rewrite IH by done.
    destruct (search groups (Seq (Lit (String a l)) r) s) as [[[??]?]|]; reflexivity.
Qed.

(** The lazy star runs to the first closing mark of a block comment. *)
Lemma lazy_to_close {R} c s2 (k : string → option R) r :
  all_chars (no_char "/") c = true → k s2 = Some r →
  star_lazy Js.any_char (c +:+ "*/" +:+ s2)
    (λ s', match Js.strip_prefix "*/" s' with Some s'' => k s'' | None => None end)
  = Some r.
Proof.
  intros Hc Hk. induction c as [|a c IH].
  - rewrite app_nil_l_s, !app_cons_s, app_nil_l_s. simpl. by rewrite Hk.
  - simpl in Hc. apply andb_true_iff in Hc as [Ha Hc]. specialize (IH Hc).
    rewrite app_cons_s.
    assert (Js.strip_prefix "*/" (String a (c +:+ "*/" +:+ s2)) = None) as Hno.
    { cbn [Js.strip_prefix]. destruct (Ascii.eqb "*" a); [|done].
      destruct c as [|b c]; [by rewrite app_nil_l_s|]. rewrite app_cons_s.
      simpl in Hc. apply andb_true_iff in Hc as [Hb _].
      unfold no_char in Hb. apply negb_true_iff in Hb.
      rewrite Ascii.eqb_sym in Hb. by rewrite Hb. }
    cbn [star_lazy]. rewrite Hno. simpl Js.any_char. cbv iota. exact IH.
Qed.

Lemma exec_block_comment c s2 :
  all_chars (no_char "/") c = true →
  exec_here 0 block_comment_re ("/*" +:+ c +:+ "*/" +:+ s2)
  = Some ([Some ("/*" +:+ c +:+ "*/")], s2).
Proof.
  intros Hc. unfold exec_here, block_comment_re, cat.
  apply step_Seq. match_literal.
  apply step_Seq. simpl run.
  erewrite lazy_to_close; [|done|reflexivity].
  replace ("/*" +:+ c +:+ "*/" +:+ s2) with (("/*" +:+ c +:+ "*/") +:+ s2)
    by (by rewrite !app_assoc_s).
  by rewrite consumed_app.
Qed.

Lemma includes_skip a p pre s :
  all_chars (no_char a) pre = true →
  Js.includes (pre +:+ s) (String a p) = Js.includes s (String a p).
Proof.
  intros Hpre. induction pre as [|x pre IH]; [done|].
  simpl in Hpre. apply andb_true_iff in Hpre as [Hx Hpre].
  unfold no_char in Hx. apply negb_true_iff in Hx.
  rewrite app_cons_s. unfold Js.includes in *.
  rewrite indexOf_cons by (apply startsWith_cons_ne; by rewrite Ascii.eqb_sym).
  specialize (IH Hpre).
  by destruct (Js.indexOf (pre +:+ s) (String a p)), (Js.indexOf s (String a p)).
Qed.

Lemma block_comment_no_line_comment s1 c s2 :
  all_chars (no_char "/") s1 = true → all_chars (no_char "/") c = true →
  all_chars (no_char "/") s2 = true →
  Js.includes (s1 +:+ "/*" +:+ c +:+ "*/" +:+ s2) "//" = false.
Proof.
  intros H1 Hc H2. rewrite includes_skip by done.
  change ("/*" +:+ c +:+ "*/" +:+ s2) with (String "/" (String "*" (c +:+ "*/" +:+ s2))).
  unfold Js.includes at 1. rewrite indexOf_cons by reflexivity.
  change (String "*" (c +:+ "*/" +:+ s2)) with ("*" +:+ c +:+ "*/" +:+ s2).
  pose proof (includes_skip "/" "/" "*" (c +:+ "*/" +:+ s2) eq_refl) as E1.
  pose proof (includes_skip "/" "/" c ("*/" +:+ s2) Hc) as E2.
  pose proof (includes_skip "/" "/" "*" ("/" +:+ s2) eq_refl) as E3.
  change ("*" +:+ "/" +:+ s2) with ("*/" +:+ s2) in E3.
  assert (Js.includes ("/" +:+ s2) "//" = false) as E4.
  { rewrite app_cons_s, app_nil_l_s. unfold Js.includes.
    rewrite indexOf_cons.
    - by rewrite indexOf_absent.
    - destruct s2 as [|b s2]; [done|]. simpl in H2.
      apply andb_true_iff in H2 as [Hb _]. unfold no_char in Hb.
      apply negb_true_iff in Hb. unfold Js.startsWith. cbn [Js.strip_prefix].
      rewrite Ascii.eqb_sym in Hb. by rewrite Ascii.eqb_refl, Hb. }
  rewrite E4 in E3. rewrite E3 in E2. rewrite E2 in E1.
  unfold Js.includes in E1.
  change ("*" +:+ c +:+ "*/" +:+ s2) with (String "*" (c +:+ "*/" +:+ s2)) in *.
  by destruct (Js.indexOf (String "*" (c +:+ "*/" +:+ s2)) "//").
Qed.

Lemma cleanCode_block_comment s1 c s2 :
  all_chars (no_char "/") s1 = true → all_chars (no_char "/") c = true →
  all_chars (no_char "/") s2 = true →
  cleanCode (s1 +:+ "/*" +:+ c +:+ "*/" +:+ s2) = s1 +:+ s2.
Proof.
  intros H1 Hc H2. unfold cleanCode.
  rewrite strip_lines_id.
  - unfold remove_all.
    assert (String.length (s1 +:+ "/*" +:+ c +:+ "*/" +:+ s2)
            = S (S (String.length (s1 +:+ c +:+ "*/" +:+ s2)))) as ->.
    { rewrite !length_app_s. simpl. lia. }
    cbn [remove_all_fuel].
    change block_comment_re with (Seq (Lit "/*") (Seq (LazyStar Js.any_char) (Lit "*/"))).
    rewrite search_skip by done.
    change (Seq (Lit "/*") (Seq (LazyStar Js.any_char) (Lit "*/"))) with block_comment_re.
    assert (search 0 block_comment_re ("/*" +:+ c +:+ "*/" +:+ s2)
            = Some (EmptyString, [Some ("/*" +:+ c +:+ "*/")], s2)) as ->.
    { rewrite !app_cons_s, app_nil_l_s. cbn [search].
      pose proof (exec_block_comment c s2 Hc) as E.
      rewrite !app_cons_s, app_nil_l_s in E. by rewrite E. }
    unfold whole. cbn [lookup list_lookup mjoin option_join default].
    rewrite !app_cons_s. cbv iota.
    change block_comment_re with (Seq (Lit "/*") (Seq (LazyStar Js.any_char) (Lit "*/"))).
    rewrite search_literal_absent by (by apply absent_includes).
    by rewrite app_nil_s.
  - by apply block_comment_no_line_comment.
Qed.

(** X6.  A block comment is cut out with its marks, also when it runs
    over several lines, and the texts around it are joined. *)
Theorem block_comment_ignored s1 c s2 :
  all_chars (no_char "/") s1 = true → all_chars (no_char "/") c = true →
  all_chars (no_char "/") s2 = true →
  parseOpenSCADToThreeJS (s1 +:+ "/*" +:+ c +:+ "*/" +:+ s2)
  = parseOpenSCADToThreeJS (s1 +:+ s2).
Proof.
  intros H1 Hc H2. apply parse_by_cleanCode.
  rewrite cleanCode_block_comment by done.
  symmetry. apply cleanCode_plain; apply absent_includes;
    by rewrite all_chars_app, H1, H2.
Qed.


(** X3.  A text with neither [//] nor the opening mark of a block comment
    passes through [cleanCode] unchanged. *)
Theorem cleanCode_without_comments code :
  Js.includes code "//" = false → Js.includes code "/*" = false →
  cleanCode code = code.
Proof.
  intros Hline Hblock. unfold cleanCode. rewrite strip_lines_id by done.
  by apply remove_all_absent.
Qed.

End CommentFacts.

(** ** Numbers in the calls of the primitives *)

Section PrimitiveFacts.

Import Converter.

Lemma number_char_cases c :
  number_char c = true →
  Js.is_space c = false
  ∧ (∀ x, In x ["c"; "h"; "r"; ","; ")"; "["; "]"; "="; "/"; "010"] → Ascii.eqb x c = false).
Proof.
  destruct c as [[] [] [] [] [] [] [] []]; try discriminate; intros _;
    (split; [reflexivity|]);
    intros x Hx; simpl in Hx;
    repeat (destruct Hx as [<-|Hx]; [reflexivity|]); destruct Hx.
Qed.

Lemma numeral_chars t p :
  (∀ c, number_char c = true → p c = true) →
  numeral t = true → all_chars p t = true.
Proof.
  intros Hp [Ht _]%andb_true_iff. eapply all_chars_impl; [|exact Ht]. done.
Qed.

Lemma numeral_cons t : numeral t = true → ∃ c t', t = String c t' ∧ number_char c = true
  ∧ all_chars number_char t' = true.
Proof.
  intros [Ht Hne]%andb_true_iff. destruct t as [|c t']; [done|].
  simpl in Ht. apply andb_true_iff in Ht as [? ?]. eauto.
Qed.

Lemma number_char_not x c :
  number_char c = true → In x ["c"; "h"; "r"; ","; ")"; "["; "]"; "="; "/"; "010"] →
  no_char x c = true.
Proof.
  intros Hc Hx. unfold no_char. apply negb_true_iff.
  rewrite Ascii.eqb_sym. by apply (number_char_cases c Hc).
Qed.

Lemma numeral_no_char x t :
  In x ["c"; "h"; "r"; ","; ")"; "["; "]"; "="; "/"; "010"] →
  numeral t = true → all_chars (no_char x) t = true.
Proof. intros Hx. apply numeral_chars. intros c Hc. by apply number_char_not. Qed.

Lemma number_char_none_of cs c :
  number_char c = true →
  (∀ x, In x cs → In x ["c"; "h"; "r"; ","; ")"; "["; "]"; "="; "/"; "010"]) →
  Js.none_of cs c = true.
Proof.
  intros Hc Hcs. unfold Js.none_of. apply negb_true_iff.
  apply not_true_is_false. intros [x [Hx He]]%existsb_exists.
  apply Hcs in Hx. apply (number_char_cases c Hc) in Hx.
  rewrite Ascii.eqb_sym in Hx. congruence.
Qed.

Lemma trimEnd_nonspace t :
  all_chars (λ c, negb (Js.is_space c)) t = true → Js.trimEnd t = t.
Proof.
  induction t as [|c t IH]; [done|]. simpl.
  intros [Hc Ht]%andb_true_iff. rewrite (IH Ht).
  apply negb_true_iff in Hc. rewrite Hc. by destruct t.
Qed.

Lemma trim_numeral t : numeral t = true → Js.trim t = t.
Proof.
  intros Ht. unfold Js.trim.
  assert (all_chars (λ c, negb (Js.is_space c)) t = true) as Hn.
  { eapply numeral_chars; [|exact Ht]. intros c Hc.
    by rewrite (proj1 (number_char_cases c Hc)). }
  destruct (numeral_cons t Ht) as (c & t' & -> & Hc & _).
  simpl Js.trimStart. rewrite (proj1 (number_char_cases c Hc)).
  by apply trimEnd_nonspace.
Qed.

Section MoreSteps.
Context {R : Type}.
Implicit Types (k : string → captures → option R) (res : R).

Lemma step_Alt_l r1 r2 s caps k res :
  run r1 s caps k = Some res → run (Alt r1 r2) s caps k = Some res.
Proof. simpl. by intros ->. Qed.

Lemma step_Alt_r r1 r2 s caps k res :
  run r1 s caps k = None → run r2 s caps k = Some res →
  run (Alt r1 r2) s caps k = Some res.
Proof. simpl. by intros ->. Qed.

Lemma step_Eps s caps k res : k s caps = Some res → run Eps s caps k = Some res.
Proof. done. Qed.

(** A greedy star that runs to the end of the text and gives one
    character back. *)
Lemma star_greedy_back (p : ascii → bool) body c (k : string → option R) res :
  all_chars p body = true → p c = true →
  k EmptyString = None → k (String c EmptyString) = Some res →
  star_greedy p (body +:+ String c EmptyString) k = Some res.
Proof.
  intros Hb Hc H0 H1. induction body as [|x body IH].
  - rewrite app_nil_l_s. simpl. by rewrite Hc, H0.
  - rewrite app_cons_s. simpl in *.
    apply andb_true_iff in Hb as [-> Hb]. by rewrite IH.
Qed.

(** A star fails when what follows fails on every text free of some
    character and the text is free of it. *)
Lemma star_greedy_none (p q : ascii → bool) s (k : string → option R) :
  all_chars q s = true → (∀ s', all_chars q s' = true → k s' = None) →
  star_greedy p s k = None.
Proof.
  intros Hs Hk. induction s as [|x s IH]; simpl; [by apply Hk|].
  pose proof Hs as Hs'. simpl in Hs'. apply andb_true_iff in Hs' as [_ Hs'].
  destruct (p x); [|by apply Hk]. rewrite IH by done. by apply Hk.
Qed.
End MoreSteps.

Lemma strip_prefix_all_chars q p s s' :
  Js.strip_prefix p s = Some s' → all_chars q s = true → all_chars q s' = true.
Proof.
  revert s. induction p as [|a p IH]; intros s; simpl; [by intros [= ->]|].
  destruct s as [|b s]; [done|]. destruct (Ascii.eqb a b); [|done].
  intros H [_ Hs]%andb_true_iff. eauto.
Qed.

Lemma str_match_skip_one groups r x s :
  exec_here groups r (String x s) = None →
  str_match groups r (String x s) = str_match groups r s.
Proof.
  unfold str_match. simpl. intros ->.
  by destruct (search groups r s) as [[[??]?]|].
Qed.

Lemma str_match_skip groups a l r pre s :
  all_chars (no_char a) pre = true →
  str_match groups (Seq (Lit (String a l)) r) (pre +:+ s)
  = str_match groups (Seq (Lit (String a l)) r) s.
Proof.
  intros Hpre. induction pre as [|x pre IH]; [done|].
  simpl in Hpre. apply andb_true_iff in Hpre as [Hx Hpre].
  unfold no_char in Hx. apply negb_true_iff in Hx.
  rewrite app_cons_s, str_match_skip_one; [by apply IH|].
  unfold exec_here. simpl. rewrite Ascii.eqb_sym in Hx. by rewrite Hx.
Qed.

Lemma str_match_empty groups l r :
  l ≠ EmptyString → str_match groups (Seq (Lit l) r) EmptyString = None.
Proof. destruct l; [done|]. reflexivity. Qed.

(** The captured number of a group [[^...]+] on a literal followed by a
    character outside the class. *)
Lemma exec_number_group {R} i cs t stop rest caps (k : string → captures → option R) res :
  numeral t = true →
  (∀ x, In x cs → In x ["c"; "h"; "r"; ","; ")"; "["; "]"; "="; "/"; "010"]) →
  Js.none_of cs stop = false →
  k (String stop rest) (<[i := Some t]> caps) = Some res →
  run (Grp i (some_not cs)) (t +:+ String stop rest) caps k = Some res.
Proof.
  intros Ht Hcs Hstop Hk.
  destruct (numeral_cons t Ht) as (c & t' & -> & Hc & Ht').
  rewrite app_cons_s. unfold some_not, Plus.
  apply step_Grp, step_Seq, step_Cls; [by apply number_char_none_of|].
  apply step_Star.
  - eapply all_chars_impl; [|exact Ht']. intros x Hx. by apply number_char_none_of.
  - simpl. by rewrite Hstop.
  - cbv beta. rewrite <- app_cons_s, consumed_app. exact Hk.
Qed.

Lemma sphere_match_positional t :
  numeral t = true →
  str_match 1 sphere_re ("sphere(" +:+ t +:+ ")")
  = Some [Some ("sphere(" +:+ t); Some t].
Proof.
  intros Ht. eapply search_here.
  unfold exec_here, sphere_re, Opt, cat.
  apply step_Seq. match_literal.
  apply step_Seq, step_Alt_r.
  { destruct (numeral_cons t Ht) as (c & t' & -> & Hc & _).
    rewrite app_cons_s. cbn [run Js.strip_prefix].
    by rewrite (proj2 (number_char_cases c Hc) "r") by (simpl; tauto). }
  apply step_Eps.
  change (t +:+ ")") with (t +:+ String ")" EmptyString).
  eapply exec_number_group; [done| |reflexivity|].
  { simpl. tauto. }
  replace ("sphere(" +:+ t +:+ String ")" EmptyString)
    with (("sphere(" +:+ t) +:+ String ")" EmptyString) by (by rewrite app_assoc_s).
  rewrite consumed_app. reflexivity.
Qed.

Lemma sphere_match_named t :
  numeral t = true →
  str_match 1 sphere_re ("sphere(r=" +:+ t +:+ ")")
  = Some [Some ("sphere(r=" +:+ t); Some t].
Proof.
  intros Ht. eapply search_here.
  unfold exec_here, sphere_re, Opt, cat.
  apply step_Seq. match_literal.
  apply step_Seq, step_Alt_l.
  apply step_Seq. match_literal.
  apply step_Seq. skip_spaces.
  apply step_Seq. match_literal.
  assert (stops Js.is_space (t +:+ ")") = true) as Hstop.
  { destruct (numeral_cons t Ht) as (c & t' & -> & Hc & _).
    rewrite app_cons_s. simpl. by rewrite (proj1 (number_char_cases c Hc)). }
  apply step_Star_stop; [done|].
  change (t +:+ ")") with (t +:+ String ")" EmptyString).
  eapply exec_number_group; [done| |reflexivity|].
  { simpl. tauto. }
  replace ("sphere(r=" +:+ t +:+ String ")" EmptyString)
    with (("sphere(r=" +:+ t) +:+ String ")" EmptyString) by (by rewrite app_assoc_s).
  rewrite consumed_app. reflexivity.
Qed.

(** X7.  A sphere call with an unsigned decimal radius gives the same mesh
    whether the radius is written alone or after [r=]. *)
Theorem sphere_named_or_positional t :
  numeral t = true →
  let sphere := new_Mesh (SphereGeometry (parseFloat t) 32 32) (material 0x764ba2) in
  parseSphere ("sphere(" +:+ t +:+ ")") = Some sphere
  ∧ parseSphere ("sphere(r=" +:+ t +:+ ")") = Some sphere.
Proof.
  intros Ht sphere. unfold parseSphere.
  rewrite sphere_match_positional, sphere_match_named by done.
  unfold capture. simpl. by rewrite trim_numeral.
Qed.

Section RunEquations.
Context {R : Type}.
Implicit Types (k : string → captures → option R).

Lemma run_Lit_eq l s s' caps k :
  Js.strip_prefix l s = Some s' → run (Lit l) s caps k = k s' caps.
Proof. simpl. by intros ->. Qed.

Lemma run_Lit_none l s caps k :
  Js.strip_prefix l s = None → run (Lit l) s caps k = None.
Proof. simpl. by intros ->. Qed.

Lemma run_Star_stop_eq p s caps k :
  stops p s = true → run (Star p) s caps k = k s caps.
Proof.
  destruct s as [|c s]; simpl; [done|]. intros H%negb_true_iff. by rewrite H.
Qed.

Lemma run_Seq_eq r1 r2 s caps k :
  run (Seq r1 r2) s caps k = run r1 s caps (λ s' caps', run r2 s' caps' k).
Proof. done. Qed.
End RunEquations.

Lemma strip_prefix_cons_ne a l c s :
  Ascii.eqb a c = false → Js.strip_prefix (String a l) (String c s) = None.
Proof. simpl. by intros ->. Qed.

Lemma cube_bracket_absent t :
  numeral t = true →
  str_match 1 cube_bracket_re ("cube(" +:+ t +:+ ")") = None.
Proof.
  intros Ht.
  change ("cube(" +:+ t +:+ ")") with (String "c" ("ube(" +:+ t +:+ ")")).
  rewrite str_match_skip_one.
  - rewrite <- (app_nil_s ("ube(" +:+ t +:+ ")")).
    unfold cube_bracket_re, cat. rewrite str_match_skip; [done|].
    rewrite !all_chars_app. rewrite (numeral_no_char "c" t) by (simpl; tauto || done).
    reflexivity.
  - change (String "c" ("ube(" +:+ t +:+ ")")) with ("cube(" +:+ t +:+ ")").
    destruct (numeral_cons t Ht) as (c & t' & -> & Hc & _).
    rewrite (app_cons_s c t' ")"). unfold exec_here, cube_bracket_re, sp, cat.
    rewrite run_Seq_eq, (run_Lit_eq _ _ _ _ _ (strip_prefix_app _ _)).
    rewrite run_Seq_eq, run_Star_stop_eq
      by (simpl; by rewrite (proj1 (number_char_cases c Hc))).
    rewrite run_Seq_eq, run_Lit_none; [done|].
    apply strip_prefix_cons_ne.
    apply (proj2 (number_char_cases c Hc)). simpl. tauto.
Qed.

Lemma cube_single_match t :
  numeral t = true →
  str_match 1 cube_single_re ("cube(" +:+ t +:+ ")")
  = Some [Some ("cube(" +:+ t +:+ ")"); Some t].
Proof.
  intros Ht. eapply search_here.
  destruct (numeral_cons t Ht) as (c & t' & -> & Hc & Ht').
  unfold exec_here, cube_single_re, sp, some_not, Plus, cat.
  apply step_Seq. match_literal.
  rewrite (app_cons_s c t' ")").
  apply step_Seq, step_Star_stop.
  { simpl. by rewrite (proj1 (number_char_cases c Hc)). }
  apply step_Seq, step_Grp, step_Seq, step_Cls.
  { apply number_char_none_of; [done|]. simpl. tauto. }
  change (run (Star ?p) ?s ?caps ?k)
    with (star_greedy p s (λ s', k s' caps)).
  apply star_greedy_back.
  - eapply all_chars_impl; [|exact Ht']. intros x Hx.
    apply number_char_none_of; [done|]. simpl. tauto.
  - reflexivity.
  - reflexivity.
  - cbv beta. apply step_Seq. skip_spaces. match_literal.
    rewrite consumed_nil.
    rewrite <- (app_cons_s c t' ")"), consumed_app. reflexivity.
Qed.

(** X8.  A cube call with one unsigned decimal number gives a box with
    that number as its three sizes, 0 included: the replacement of a zero
    by 1 is made for size lists only. *)
Theorem cube_single_size t :
  numeral t = true →
  let v := parseFloat t in
  parseCube ("cube(" +:+ t +:+ ")") = Some (cubeMesh (vec3 v v v)).
Proof.
  intros Ht v. unfold parseCube, cubeParams.
  rewrite cube_bracket_absent, cube_single_match by done.
  unfold capture. simpl. by rewrite trim_numeral.
Qed.

(** *** Named cylinder parameters *)

Lemma stops_numeral t s : numeral t = true → stops Js.is_space (t +:+ s) = true.
Proof.
  intros Ht. destruct (numeral_cons t Ht) as (c & t' & -> & Hc & _).
  rewrite (app_cons_s c t' s). simpl. by rewrite (proj1 (number_char_cases c Hc)).
Qed.

Lemma named_or_skip_one name x s d :
  exec_here 1 (named_re name) (String x s) = None →
  named_or name (String x s) d = named_or name s d.
Proof. intros H. unfold named_or. by rewrite str_match_skip_one. Qed.

Lemma named_or_skip a l pre s d :
  all_chars (no_char a) pre = true →
  named_or (String a l) (pre +:+ s) d = named_or (String a l) s d.
Proof.
  intros H. unfold named_or, named_re, cat. by rewrite str_match_skip.
Qed.

Lemma named_or_absent a l s d :
  all_chars (no_char a) s = true → named_or (String a l) s d = d.
Proof.
  intros H. rewrite <- (app_nil_s s), named_or_skip by done. reflexivity.
Qed.

Lemma named_match name t stop rest :
  numeral t = true → Js.none_of [","; ")"] stop = false →
  str_match 1 (named_re name) (name +:+ "=" +:+ t +:+ String stop rest)
  = Some [Some (name +:+ "=" +:+ t); Some t].
Proof.
  intros Ht Hstop. eapply search_here.
  unfold exec_here, named_re, sp, cat.
  apply step_Seq. eapply step_Lit; [apply strip_prefix_app|].
  apply step_Seq. skip_spaces.
  apply step_Seq. match_literal.
  apply step_Seq, step_Star_stop; [by apply stops_numeral|].
  eapply exec_number_group; [done| |done|].
  { simpl. tauto. }
  replace (name +:+ "=" +:+ t +:+ String stop rest)
    with ((name +:+ "=" +:+ t) +:+ String stop rest)
    by (by rewrite !app_assoc_s).
  rewrite consumed_app. reflexivity.
Qed.

Lemma named_or_here name t stop rest d :
  numeral t = true → Js.none_of [","; ")"] stop = false →
  named_or name (name +:+ "=" +:+ t +:+ String stop rest) d = parseFloat t.
Proof. intros Ht Hstop. unfold named_or. by rewrite named_match. Qed.

Lemma named_absent name line :
  all_chars (no_char "=") line = true → str_match 1 (named_re name) line = None.
Proof.
  intros Hline.
  assert (∀ s, all_chars (no_char "=") s = true →
               exec_here 1 (named_re name) s = None) as Hexec.
  { intros s Hs. unfold exec_here, named_re, sp, cat.
    rewrite run_Seq_eq.
    destruct (Js.strip_prefix name s) as [s'|] eqn:Hp;
      [|by rewrite run_Lit_none].
    rewrite (run_Lit_eq _ _ _ _ _ Hp).
    rewrite run_Seq_eq. change (run (Star ?p) ?s ?caps ?k)
      with (star_greedy p s (λ s', k s' caps)).
    apply (star_greedy_none _ (no_char "=")).
    - by eapply strip_prefix_all_chars.
    - intros s'' Hs''. rewrite run_Seq_eq, run_Lit_none; [done|].
      destruct s'' as [|c s'']; [done|]. apply strip_prefix_cons_ne.
      simpl in Hs''. apply andb_true_iff in Hs'' as [Hc _].
      unfold no_char in Hc. apply negb_true_iff in Hc.
      by rewrite Ascii.eqb_sym. }
  unfold str_match.
  assert (search 1 (named_re name) line = None) as ->; [|done].
  induction line as [|c line IH]; simpl.
  - by rewrite (Hexec EmptyString).
  - rewrite (Hexec (String c line)) by done.
    simpl in Hline. apply andb_true_iff in Hline as [_ Hline].
    by rewrite IH.
Qed.

(** X9.  A cylinder call without any [=] has no named parameter: whatever
    stands between the brackets, positional numbers included, the mesh is
    the unit cylinder, turned by a quarter about the x axis. *)
Theorem cylinder_without_equals line :
  all_chars (no_char "=") line = true →
  parseCylinder line = Some (cylinderMesh (of_Z 1) (of_Z 1) (of_Z 1)).
Proof.
  intros Hline. unfold parseCylinder, named_or.
  by rewrite !named_absent.
Qed.

(** X10.  With [h=] and [r=] the cylinder has the given height and the
    radius [r] at both ends: the patterns for [r1] and [r2] do not match
    [r=]. *)
Theorem cylinder_named h r :
  numeral h = true → numeral r = true →
  parseCylinder ("cylinder(h=" +:+ h +:+ ", r=" +:+ r +:+ ")")
  = Some (cylinderMesh (parseFloat r) (parseFloat r) (parseFloat h)).
Proof.
  intros Hh Hr.
  set (line := "cylinder(h=" +:+ h +:+ ", r=" +:+ r +:+ ")").
  assert (∀ x, In x ["h"; "r"] → all_chars (no_char x) h = true
                                 ∧ all_chars (no_char x) r = true) as Hfree.
  { intros x Hx. split; apply numeral_no_char; try done;
      simpl in *; tauto. }
  assert (∀ d, named_or "h" line d = parseFloat h) as Hheight.
  { intros d. trans (named_or "h" ("h=" +:+ h +:+ ", r=" +:+ r +:+ ")") d).
    - by apply (named_or_skip "h" EmptyString "cylinder(").
    - by apply (named_or_here "h" h "," (" r=" +:+ r +:+ ")")). }
  assert (∀ name d, In name ["r"; "r1"; "r2"]%string →
            named_or name line d = named_or name ("r=" +:+ r +:+ ")") d) as Hskip.
  { intros name d Hname.
    trans (named_or name ("(h=" +:+ h +:+ ", r=" +:+ r +:+ ")") d).
    { simpl in Hname. destruct Hname as [<-|[<-|[<-|[]]]];
        (etrans; [by apply (named_or_skip "r" _ "cylinde")|]);
        by apply (named_or_skip_one _ "r"). }
    replace ("(h=" +:+ h +:+ ", r=" +:+ r +:+ ")")
      with (("(h=" +:+ h +:+ ", ") +:+ ("r=" +:+ r +:+ ")"))
      by (by rewrite !app_assoc_s).
    simpl in Hname. destruct Hname as [<-|[<-|[<-|[]]]];
      apply named_or_skip; rewrite !all_chars_app;
      by rewrite (proj1 (Hfree "r" ltac:(simpl; tauto))). }
  assert (∀ d, named_or "r" line d = parseFloat r) as Hradius.
  { intros d. rewrite Hskip by (simpl; tauto).
    by apply (named_or_here "r" r ")" EmptyString). }
  assert (∀ name d, In name ["r1"; "r2"]%string → named_or name line d = d)
    as Hother.
  { intros name d Hname. rewrite Hskip by (simpl in *; tauto).
    trans (named_or name ("=" +:+ r +:+ ")") d).
    - simpl in Hname. destruct Hname as [<-|[<-|[]]];
        by apply (named_or_skip_one _ "r").
    - simpl in Hname. destruct Hname as [<-|[<-|[]]];
        apply named_or_absent; rewrite !all_chars_app;
        by rewrite (proj2 (Hfree "r" ltac:(simpl; tauto))). }
  unfold parseCylinder. fold line.
  rewrite Hheight, Hradius, !Hother by (simpl; tauto). reflexivity.
Qed.

(** X11.  With [r1=] and [r2=] the pattern for [r] matches nothing, [r1]
    becomes the bottom radius and [r2] the top radius, the first argument
    of [CylinderGeometry]. *)
Theorem cylinder_cone h a b :
  numeral h = true → numeral a = true → numeral b = true →
  parseCylinder ("cylinder(h=" +:+ h +:+ ", r1=" +:+ a +:+ ", r2=" +:+ b +:+ ")")
  = Some (cylinderMesh (parseFloat b) (parseFloat a) (parseFloat h)).
Proof.
  intros Hh Ha Hb.
  set (line := "cylinder(h=" +:+ h +:+ ", r1=" +:+ a +:+ ", r2=" +:+ b +:+ ")").
  set (tail1 := "r1=" +:+ a +:+ ", r2=" +:+ b +:+ ")").
  set (tail2 := "r2=" +:+ b +:+ ")").
  assert (∀ t, numeral t = true → all_chars (no_char "r") t = true) as Hfree.
  { intros t Ht. apply numeral_no_char; [simpl; tauto|done]. }
  assert (∀ d, named_or "h" line d = parseFloat h) as Hheight.
  { intros d. trans (named_or "h" ("h=" +:+ h +:+ ", " +:+ tail1) d).
    - by apply (named_or_skip "h" EmptyString "cylinder(").
    - by apply (named_or_here "h" h "," (" " +:+ tail1)). }
  assert (∀ name d, In name ["r"; "r1"; "r2"]%string →
            named_or name line d = named_or name tail1 d) as Hskip1.
  { intros name d Hname.
    trans (named_or name ("(h=" +:+ h +:+ ", " +:+ tail1) d).
    { simpl in Hname. destruct Hname as [<-|[<-|[<-|[]]]];
        (etrans; [by apply (named_or_skip "r" _ "cylinde")|]);
        by apply (named_or_skip_one _ "r"). }
    replace ("(h=" +:+ h +:+ ", " +:+ tail1)
      with (("(h=" +:+ h +:+ ", ") +:+ tail1) by (by rewrite !app_assoc_s).
    simpl in Hname. destruct Hname as [<-|[<-|[<-|[]]]];
      apply named_or_skip; rewrite !all_chars_app; by rewrite (Hfree h Hh). }
  assert (∀ name d, In name ["r"; "r2"]%string →
            named_or name tail1 d = named_or name tail2 d) as Hskip2.
  { intros name d Hname.
    trans (named_or name ("1=" +:+ a +:+ ", " +:+ tail2) d).
    { simpl in Hname. destruct Hname as [<-|[<-|[]]];
        by apply (named_or_skip_one _ "r"). }
    replace ("1=" +:+ a +:+ ", " +:+ tail2)
      with (("1=" +:+ a +:+ ", ") +:+ tail2) by (by rewrite !app_assoc_s).
    simpl in Hname. destruct Hname as [<-|[<-|[]]];
      apply named_or_skip; rewrite !all_chars_app; by rewrite (Hfree a Ha). }
  assert (∀ d, named_or "r" line d = d) as Hradius.
  { intros d. rewrite Hskip1, Hskip2 by (simpl; tauto).
    trans (named_or "r" ("2=" +:+ b +:+ ")") d).
    - by apply (named_or_skip_one _ "r").
    - apply named_or_absent. rewrite !all_chars_app. by rewrite (Hfree b Hb). }
  assert (∀ d, named_or "r1" line d = parseFloat a) as Hbottom.
  { intros d. rewrite Hskip1 by (simpl; tauto).
    by apply (named_or_here "r1" a "," (" " +:+ tail2)). }
  assert (∀ d, named_or "r2" line d = parseFloat b) as Htop.
  { intros d. rewrite Hskip1, Hskip2 by (simpl; tauto).
    by apply (named_or_here "r2" b ")" EmptyString). }
  unfold parseCylinder. fold line.
  by rewrite Hheight, Hradius, Hbottom, Htop.
Qed.

End PrimitiveFacts.

(** ** Groups *)

Section GroupFacts.

Import Converter.

(** *** [parseDifference] *)

Lemma differenceLoop_one lines :
  differenceLoop lines new_Group = new_Group
  ∨ ∃ params, differenceLoop lines new_Group
      = Group zero3 no_rotation
          [set_material (cubeMesh (cubeSize params)) (material 0xed8936)].
Proof.
  induction lines as [|line lines IH]; [by left|].
  cbn [differenceLoop]. destruct (Js.startsWith _ _); [|done].
  unfold parseCube. destruct (cubeParams _) as [params|]; [|done].
  right. by exists params.
Qed.

(** X12.  Whatever the text, the group [parseDifference] returns is empty
    or holds one box, in the colour 0xed8936 of a difference, with its
    corner on the origin: nothing is subtracted and no second child is
    looked at. *)
Theorem difference_keeps_one_cube code group :
  parseDifference code = Some group →
  group = new_Group
  ∨ ∃ params, group = Group zero3 no_rotation
      [Mesh (BoxGeometry (vx (cubeSize params)) (vy (cubeSize params))
                         (vz (cubeSize params)))
            (material 0xed8936) (vhalf (cubeSize params)) no_rotation].
Proof.
  unfold parseDifference. destruct (str_match _ _ _) as [m|]; [|done].
  intros [= <-]. apply differenceLoop_one.
Qed.

(** *** [parseTranslate] and [parseRotate] *)

Lemma trim_solid s : solid s = true → Js.trim s = s.
Proof.
  intros Hs. unfold Js.trim.
  assert (Js.trimStart s = s) as ->; [|by apply trimEnd_nonspace].
  destruct s as [|c s]; [done|]. simpl in *.
  apply andb_true_iff in Hs as [Hc _]. apply negb_true_iff in Hc. by rewrite Hc.
Qed.

Lemma number_char_ne x c :
  number_char c = true → number_char x = false → Ascii.eqb x c = false.
Proof.
  intros Hc Hx. destruct (Ascii.eqb_spec x c) as [->|]; congruence.
Qed.

Lemma numeral_free x t :
  number_char x = false → numeral t = true → all_chars (no_char x) t = true.
Proof.
  intros Hx. apply numeral_chars. intros c Hc. unfold no_char.
  apply negb_true_iff. rewrite Ascii.eqb_sym. by apply number_char_ne.
Qed.

Lemma numeral_solid t : numeral t = true → solid t = true.
Proof.
  apply numeral_chars. intros c Hc. by rewrite (proj1 (number_char_cases c Hc)).
Qed.

Lemma numeral_none_of cs t :
  forallb (λ x, negb (number_char x)) cs = true →
  numeral t = true → all_chars (Js.none_of cs) t = true.
Proof.
  intros Hcs. apply numeral_chars. intros c Hc. unfold Js.none_of.
  apply negb_true_iff, not_true_is_false. intros [x [Hx He]]%existsb_exists.
  apply Ascii.eqb_eq in He as <-.
  rewrite forallb_forall in Hcs. apply Hcs in Hx. by rewrite Hc in Hx.
Qed.

Lemma numeral_nonempty t s : numeral t = true → t +:+ s ≠ EmptyString.
Proof. intros Ht. by destruct (numeral_cons t Ht) as (c & t' & -> & _). Qed.

Lemma includes_cons a s p :
  Js.startsWith (String a s) p = false →
  Js.includes (String a s) p = Js.includes s p.
Proof.
  intros H. unfold Js.includes. rewrite indexOf_cons by done.
  by destruct (Js.indexOf s p).
Qed.

Lemma includes_here s p : Js.startsWith s p = true → Js.includes s p = true.
Proof. intros H. unfold Js.includes. destruct s; simpl; by rewrite H. Qed.

Lemma lineObject_solid clean line :
  solid line = true → line ≠ EmptyString →
  lineObject clean line =
  if Js.includes line "cube(" then parseCube line
  else if Js.includes line "sphere(" then parseSphere line
  else if Js.includes line "cylinder(" then parseCylinder line
  else if Js.includes line "translate(" then parseTranslate line clean
  else if Js.includes line "rotate(" then parseRotate line clean
  else if Js.includes line "difference()" then parseDifference clean
  else None.
Proof.
  intros Hs Hne. unfold lineObject. rewrite trim_solid by done.
  by destruct line.
Qed.

(** The vector pattern on a call [name([body])]. *)
Lemma vector_match name body rest :
  all_chars (Js.none_of ["]"]) body = true → body ≠ EmptyString →
  str_match 1 (vector_re name) (name +:+ "([" +:+ body +:+ "])" +:+ rest)
  = Some [Some (name +:+ "([" +:+ body +:+ "])"); Some body].
Proof.
  intros Hall Hne. eapply search_here.
  destruct body as [|c body]; [done|]. simpl in Hall.
  apply andb_true_iff in Hall as [Hc Hall].
  unfold exec_here, vector_re, some_not, Plus, cat.
  apply step_Seq. eapply step_Lit; [apply strip_prefix_app|].
  apply step_Seq. match_literal.
  rewrite (app_cons_s c body).
  apply step_Seq, step_Grp, step_Seq, step_Cls; [done|].
  apply step_Star; [done..|]. cbv beta.
  match_literal.
  rewrite <- (app_cons_s c body), consumed_app.
  replace (name +:+ "([" +:+ String c body +:+ "])" +:+ rest)
    with ((name +:+ "([" +:+ String c body +:+ "])") +:+ rest)
    by (by rewrite !app_assoc_s).
  rewrite consumed_app. reflexivity.
Qed.

(** The child pattern on [name(arg)], white space and a call
    [word(inner)]. *)
Lemma child_match name arg ws word inner rest :
  all_chars (Js.none_of [")"]) arg = true → arg ≠ EmptyString →
  all_chars Js.is_space ws = true →
  all_chars Js.is_word word = true → word ≠ EmptyString →
  all_chars (Js.none_of [")"]) inner = true → inner ≠ EmptyString →
  str_match 1 (child_re name)
    (name +:+ "(" +:+ arg +:+ ")" +:+ ws +:+ word +:+ "(" +:+ inner +:+ ")" +:+ rest)
  = Some [Some (name +:+ "(" +:+ arg +:+ ")" +:+ ws +:+ word +:+ "(" +:+ inner +:+ ")");
          Some (word +:+ "(" +:+ inner +:+ ")")].
Proof.
  intros Harg Hargne Hws Hword Hwordne Hinner Hinnerne. eapply search_here.
  destruct arg as [|a arg]; [done|]. destruct word as [|w word]; [done|].
  destruct inner as [|i inner]; [done|]. simpl in Harg, Hword, Hinner.
  apply andb_true_iff in Harg as [Ha Harg].
  apply andb_true_iff in Hword as [Hw Hword].
  apply andb_true_iff in Hinner as [Hi Hinner].
  assert (Js.is_space w = false) as Hwsp.
  { destruct w as [[] [] [] [] [] [] [] []]; done. }
  unfold exec_here, child_re, sp, some_not, Plus, cat.
  apply step_Seq. eapply step_Lit; [apply strip_prefix_app|].
  apply step_Seq. match_literal.
  rewrite (app_cons_s a arg).
  apply step_Seq, step_Seq, step_Cls; [done|].
  apply step_Star; [done..|]. cbv beta.
  apply step_Seq. match_literal.
  apply step_Seq, step_Star; [done| |].
  { rewrite (app_cons_s w word). simpl. by rewrite Hwsp. }
  rewrite (app_cons_s w word).
  apply step_Grp, step_Seq, step_Seq, step_Cls; [done|].
  apply step_Star; [done..|]. cbv beta.
  apply step_Seq. match_literal.
  rewrite (app_cons_s i inner).
  apply step_Seq, step_Seq, step_Cls; [done|].
  apply step_Star; [done..|]. cbv beta.
  match_literal.
  cbn [insert list_insert replicate].
  rewrite <- (app_cons_s i inner), <- (app_cons_s w word), <- (app_cons_s a arg).
  rewrite <- !app_assoc_s, !consumed_app. reflexivity.
Qed.

Lemma sphere_match_call t rest :
  numeral t = true →
  str_match 1 sphere_re ("sphere(" +:+ t +:+ ")" +:+ rest)
  = Some [Some ("sphere(" +:+ t); Some t].
Proof.
  intros Ht. eapply search_here.
  unfold exec_here, sphere_re, Opt, cat.
  apply step_Seq. match_literal.
  apply step_Seq, step_Alt_r.
  { destruct (numeral_cons t Ht) as (c & t' & -> & Hc & _).
    rewrite (app_cons_s c t'). cbn [run Js.strip_prefix].
    by rewrite (number_char_ne "r" c Hc). }
  apply step_Eps.
  change (t +:+ ")" +:+ rest) with (t +:+ String ")" rest).
  eapply exec_number_group; [done| |reflexivity|].
  { simpl. tauto. }
  replace ("sphere(" +:+ t +:+ String ")" rest)
    with (("sphere(" +:+ t) +:+ String ")" rest) by (by rewrite app_assoc_s).
  rewrite consumed_app. reflexivity.
Qed.

Lemma omap_cons_Some {A B} (f : A → option B) a l y :
  f a = Some y → omap f (a :: l) = y :: omap f l.
Proof. simpl. by intros ->. Qed.

Lemma parseChild_sphere r :
  numeral r = true →
  parseChild ("sphere(" +:+ r +:+ ")")
  = Some (new_Mesh (SphereGeometry (parseFloat r) 32 32) (material 0x764ba2)).
Proof.
  intros Hr. unfold parseChild.
  assert (Js.startsWith ("sphere(" +:+ r +:+ ")") "cube" = false) as -> by reflexivity.
  assert (Js.startsWith ("sphere(" +:+ r +:+ ")") "sphere" = true) as -> by reflexivity.
  unfold parseSphere.
  rewrite (sphere_match_positional r Hr).
  unfold capture. simpl. by rewrite trim_numeral.
Qed.

Lemma sphere_statement clean r :
  numeral r = true →
  lineObject clean ("sphere(" +:+ r +:+ ");")
  = Some (new_Mesh (SphereGeometry (parseFloat r) 32 32) (material 0x764ba2)).
Proof.
  intros Hr. rewrite lineObject_solid; [| |done].
  2:{ rewrite !all_chars_app. by rewrite (numeral_solid r Hr). }
  assert (Js.includes ("sphere(" +:+ r +:+ ");") "cube(" = false) as ->.
  { apply absent_includes. rewrite !all_chars_app. by rewrite (numeral_free "c" r). }
  assert (Js.includes ("sphere(" +:+ r +:+ ");") "sphere(" = true) as ->.
  { by apply includes_here. }
  unfold parseSphere.
  change ("sphere(" +:+ r +:+ ");") with ("sphere(" +:+ r +:+ ")" +:+ ";").
  rewrite (sphere_match_call r ";" Hr).
  unfold capture. simpl. by rewrite trim_numeral.
Qed.

Section Vectors.
Variables x y z r : string.
Hypothesis Hx : numeral x = true.
Hypothesis Hy : numeral y = true.
Hypothesis Hz : numeral z = true.
Hypothesis Hr : numeral r = true.

Abbreviation body := (Js.join "," [x; y; z]).

Lemma body_free c : number_char c = false → Ascii.eqb c "," = false →
  all_chars (no_char c) body = true.
Proof.
  intros Hc Hcomma. cbn [Js.join]. rewrite !all_chars_app.
  rewrite (numeral_free c x), (numeral_free c y), (numeral_free c z) by done.
  simpl. unfold no_char.
  rewrite Ascii.eqb_sym, Hcomma. done.
Qed.

Lemma body_solid : solid body = true.
Proof.
  cbn [Js.join]. rewrite !all_chars_app.
  by rewrite (numeral_solid x), (numeral_solid y), (numeral_solid z).
Qed.

Lemma body_none_of cs :
  forallb (λ c, negb (number_char c) && negb (Ascii.eqb "," c)) cs = true →
  all_chars (Js.none_of cs) body = true.
Proof.
  intros Hcs. cbn [Js.join]. rewrite !all_chars_app.
  assert (forallb (λ c, negb (number_char c)) cs = true) as Hn.
  { rewrite forallb_forall in *. intros c Hc. apply Hcs in Hc.
    by apply andb_true_iff in Hc as [? _]. }
  rewrite (numeral_none_of cs x), (numeral_none_of cs y), (numeral_none_of cs z)
    by done.
  assert (Js.none_of cs "," = true) as Hcomma.
  { unfold Js.none_of. apply negb_true_iff, not_true_is_false.
    intros [c [Hc He]]%existsb_exists. rewrite forallb_forall in Hcs.
    apply Hcs in Hc. apply andb_true_iff in Hc as [_ Hc].
    apply negb_true_iff in Hc. congruence. }
  simpl. by rewrite Hcomma.
Qed.

Lemma body_nonempty s : body +:+ s ≠ EmptyString.
Proof.
  cbn [Js.join]. rewrite !app_assoc_s. by apply numeral_nonempty.
Qed.

Lemma body_split :
  map (λ s, parseFloat (Js.trim s)) (Js.split "," body)
  = [parseFloat x; parseFloat y; parseFloat z].
Proof.
  rewrite split_join; [|done|].
  - cbn [map]. by rewrite !trim_numeral.
  - repeat constructor; by apply numeral_free.
Qed.

(** The two lines [name([x,y,z])] and [sphere(r);]. *)
Abbreviation call name := (vectorCall name [x; y; z]).
Abbreviation source name := (on_lines [call name; "sphere(" +:+ r +:+ ");"]%string).

Lemma source_clean name :
  all_chars (no_char "/") name = true → cleanCode (source name) = source name.
Proof.
  intros Hname.
  assert (all_chars (no_char "/") (source name) = true) as Hfree.
  { change (on_lines [?a; ?b]) with (a +:+ lf +:+ b). unfold vectorCall, lf.
    rewrite !all_chars_app.
    rewrite Hname, body_free, (numeral_free "/" r) by done. done. }
  apply cleanCode_plain; by apply absent_includes.
Qed.

Lemma source_lines name :
  all_chars (no_char "010") name = true →
  Js.split "010" (source name) = [call name; "sphere(" +:+ r +:+ ");"]%string.
Proof.
  intros Hname. unfold on_lines, lf. apply split_join; [done|].
  repeat constructor; unfold vectorCall; rewrite !all_chars_app.
  - by rewrite Hname, body_free.
  - by rewrite (numeral_free "010" r).
Qed.

Lemma call_vector name rest :
  str_match 1 (vector_re name) (call name +:+ rest)
  = Some [Some (call name); Some body].
Proof.
  unfold vectorCall. rewrite !app_assoc_s. apply vector_match.
  - by apply body_none_of.
  - rewrite <- (app_nil_s body). apply body_nonempty.
Qed.

Lemma source_child name :
  str_match 1 (child_re name) (source name)
  = Some [Some (call name +:+ lf +:+ "sphere(" +:+ r +:+ ")");
          Some ("sphere(" +:+ r +:+ ")")].
Proof.
  pose proof (child_match name ("[" +:+ body +:+ "]") lf "sphere" r ";") as H.
  change (on_lines [?a; ?b]) with (a +:+ lf +:+ b). unfold vectorCall.
  rewrite !app_assoc_s in *. apply H; try done.
  - rewrite all_chars_app. simpl. by rewrite all_chars_app, body_none_of.
  - eapply numeral_none_of; [|done]. done.
  - by destruct (numeral_cons r Hr) as (? & ? & -> & _).
Qed.

Lemma call_solid name : solid name = true → solid (vectorCall name [x; y; z]) = true.
Proof.
  intros Hname. unfold vectorCall. rewrite !all_chars_app.
  by rewrite Hname, body_solid.
Qed.

Lemma call_free c name :
  number_char c = false → Ascii.eqb c "," = false →
  all_chars (no_char c) (name +:+ "([])") = true →
  all_chars (no_char c) (vectorCall name [x; y; z]) = true.
Proof.
  intros Hc Hcomma Hname. unfold vectorCall.
  change (name +:+ "([])") with (name +:+ "([" +:+ "])") in Hname.
  rewrite !all_chars_app in *. rewrite body_free by done.
  by destruct (all_chars (no_char c) name), (all_chars (no_char c) "(["),
    (all_chars (no_char c) "])").
Qed.

End Vectors.

(** X13.  A translate on a line of its own takes the call that follows
    it in the text, here a sphere on the next line, as its child; the
    line of the sphere is then read as a statement of its own, so that
    the scene holds the sphere twice: moved inside the group, and
    unmoved. *)
Theorem translate_child_on_next_line x y z r :
  numeral x = true → numeral y = true → numeral z = true → numeral r = true →
  let sphere := new_Mesh (SphereGeometry (parseFloat r) 32 32) (material 0x764ba2) in
  parseOpenSCADToThreeJS
    (on_lines [vectorCall "translate" [x; y; z]; "sphere(" +:+ r +:+ ");"])
  = Ok (Group zero3 no_rotation
          [Group (vec3 (parseFloat x) (parseFloat y) (parseFloat z)) no_rotation
                 [sphere];
           sphere]).
Proof.
  intros Hx Hy Hz Hr sphere.
  rewrite parse_lines.
  rewrite source_clean, source_lines by done.
  erewrite omap_cons_Some, omap_cons_Some; [reflexivity| |].
  - by apply sphere_statement.
  - rewrite lineObject_solid; [|by apply call_solid|done].
    assert (Js.includes (vectorCall "translate" [x; y; z]) "cube(" = false) as ->.
    { apply absent_includes. by apply call_free. }
    assert (Js.includes (vectorCall "translate" [x; y; z]) "sphere(" = false) as ->.
    { change (vectorCall "translate" [x; y; z])
        with ("tran" +:+ String "s" (vectorCall "late" [x; y; z])).
      rewrite includes_skip, includes_cons by done.
      apply absent_includes. by apply call_free. }
    assert (Js.includes (vectorCall "translate" [x; y; z]) "cylinder(" = false) as ->.
    { apply absent_includes. by apply call_free. }
    assert (Js.includes (vectorCall "translate" [x; y; z]) "translate(" = true) as ->.
    { by apply includes_here. }
    unfold parseTranslate.
    pose proof (call_vector x y z Hx Hy Hz "translate" EmptyString) as Hv.
    rewrite app_nil_s in Hv. rewrite Hv.
    rewrite source_child by done.
    unfold capture. cbn [lookup list_lookup mjoin option_join default id].
    rewrite body_split, parseChild_sphere by done. reflexivity.
Qed.

(** X14.  The same holds for a rotate on a line of its own: its group is
    turned by the three angles, taken in degrees, and holds the sphere of
    the next line, which the scene holds once more on its own. *)
Theorem rotate_child_on_next_line x y z r :
  numeral x = true → numeral y = true → numeral z = true → numeral r = true →
  let sphere := new_Mesh (SphereGeometry (parseFloat r) 32 32) (material 0x764ba2) in
  parseOpenSCADToThreeJS
    (on_lines [vectorCall "rotate" [x; y; z]; "sphere(" +:+ r +:+ ");"])
  = Ok (Group zero3 no_rotation
          [Group zero3 (euler (radians x) (radians y) (radians z)) [sphere];
           sphere]).
Proof.
  intros Hx Hy Hz Hr sphere.
  rewrite parse_lines.
  rewrite source_clean, source_lines by done.
  erewrite omap_cons_Some, omap_cons_Some; [reflexivity| |].
  - by apply sphere_statement.
  - rewrite lineObject_solid; [|by apply call_solid|done].
    assert (Js.includes (vectorCall "rotate" [x; y; z]) "cube(" = false) as ->.
    { apply absent_includes. by apply call_free. }
    assert (Js.includes (vectorCall "rotate" [x; y; z]) "sphere(" = false) as ->.
    { apply absent_includes. by apply call_free. }
    assert (Js.includes (vectorCall "rotate" [x; y; z]) "cylinder(" = false) as ->.
    { apply absent_includes. by apply call_free. }
    assert (Js.includes (vectorCall "rotate" [x; y; z]) "translate(" = false) as ->.
    { change (vectorCall "rotate" [x; y; z])
        with ("ro" +:+ String "t" ("a" +:+ String "t" (vectorCall "e" [x; y; z]))).
      rewrite includes_skip, includes_cons by done.
      rewrite includes_skip, includes_cons by done.
      apply absent_includes. by apply call_free. }
    assert (Js.includes (vectorCall "rotate" [x; y; z]) "rotate(" = true) as ->.
    { by apply includes_here. }
    unfold parseRotate.
    pose proof (call_vector x y z Hx Hy Hz "rotate" EmptyString) as Hv.
    rewrite app_nil_s in Hv. rewrite Hv.
    rewrite source_child by done.
    unfold capture. cbn [lookup list_lookup mjoin option_join default id].
    rewrite parseChild_sphere by done.
    rewrite split_join; [reflexivity|done|].
    repeat constructor; by apply numeral_free.
Qed.

End GroupFacts.

(** ** Recognized statements next to malformed ones *)

Section SurvivalFacts.

Import Converter.

(** *** Trimming *)

Lemma trimEnd_app a s :
  Js.trimEnd s ≠ EmptyString → Js.trimEnd (a +:+ s) = a +:+ Js.trimEnd s.
Proof.
  intros Hs. induction a as [|x a IH]; [done|].
  rewrite !app_cons_s. simpl. rewrite IH.
  destruct (a +:+ Js.trimEnd s) eqn:E; [|done].
  destruct a; [|done]. by rewrite app_nil_l_s in E.
Qed.

Lemma trimEnd_close rest :
  Js.trimEnd (String ")" rest) = String ")" (Js.trimEnd rest).
Proof. simpl. by destruct (Js.trimEnd rest). Qed.

(** A statement that begins with a letter and ends with its closing
    bracket keeps both under [trim]. *)
Lemma trim_statement c a rest :
  Js.is_space c = false →
  Js.trim (String c a +:+ ")" +:+ rest) = String c a +:+ ")" +:+ Js.trimEnd rest.
Proof.
  intros Hc. unfold Js.trim. rewrite app_cons_s. simpl Js.trimStart. rewrite Hc.
  rewrite <- app_cons_s.
  change (")" +:+ rest) with (String ")" rest).
  rewrite trimEnd_app by (by rewrite trimEnd_close).
  by rewrite trimEnd_close.
Qed.

Lemma trimEnd_prefix s : ∃ w, s = Js.trimEnd s +:+ w.
Proof.
  induction s as [|c s [w IH]]; [by exists EmptyString|].
  simpl. destruct (Js.trimEnd s) as [|y t] eqn:E.
  - destruct (Js.is_space c).
    + exists (String c s). by rewrite app_nil_l_s.
    + exists w. rewrite app_cons_s. by rewrite app_nil_l_s in *; subst.
  - exists w. rewrite app_cons_s. by rewrite <- IH.
Qed.

Lemma trimEnd_all_chars p s : all_chars p s = true → all_chars p (Js.trimEnd s) = true.
Proof.
  destruct (trimEnd_prefix s) as [w Hw]. intros H. rewrite Hw in H.
  rewrite all_chars_app in H. by apply andb_true_iff in H as [? _].
Qed.

Lemma trimEnd_includes s p : Js.includes s p = false → Js.includes (Js.trimEnd s) p = false.
Proof.
  destruct (trimEnd_prefix s) as [w Hw]. intros H. rewrite Hw in H.
  by apply includes_app in H as [? _].
Qed.

Lemma includes_char c s :
  Js.includes s (String c EmptyString) = false → all_chars (no_char c) s = true.
Proof.
  induction s as [|a s IH]; [done|]. intros H. simpl. unfold no_char at 1.
  destruct (Ascii.eqb_spec a c) as [->|Hne].
  - rewrite includes_here in H; [done|].
    unfold Js.startsWith. simpl. by rewrite Ascii.eqb_refl.
  - rewrite includes_cons in H; [by rewrite IH|].
    apply startsWith_cons_ne. apply Ascii.eqb_neq. congruence.
Qed.

(** *** Patterns that end with a literal character *)

Section Absent.
Context {R : Type}.
Variable q : ascii → bool.

Lemma star_lazy_none (p : ascii → bool) s (k : string → option R) :
  all_chars q s = true → (∀ s', all_chars q s' = true → k s' = None) →
  star_lazy p s k = None.
Proof.
  intros Hs Hk. induction s as [|x s IH]; simpl.
  - by rewrite Hk.
  - rewrite Hk by done. simpl in Hs. apply andb_true_iff in Hs as [_ Hs].
    destruct (p x); [by apply IH|done].
Qed.

(** A pattern run on a text of the class [q] hands texts of that class
    on. *)
Lemma run_within r : ∀ s caps (k : string → captures → option R),
  all_chars q s = true →
  (∀ s' caps', all_chars q s' = true → k s' caps' = None) →
  run r s caps k = None.
Proof.
  induction r as [|l|p|p|p|r1 IH1 r2 IH2|r1 IH1 r2 IH2|i r IH];
    intros s caps k Hs Hk; simpl.
  - by apply Hk.
  - destruct (Js.strip_prefix l s) as [s'|] eqn:E; [|done].
    apply Hk. by eapply strip_prefix_all_chars.
  - destruct s as [|c s]; [done|]. destruct (p c); [|done].
    apply Hk. simpl in Hs. by apply andb_true_iff in Hs as [_ ?].
  - apply (star_greedy_none _ q); [done|]. intros s' Hs'. by apply Hk.
  - apply star_lazy_none; [done|]. intros s' Hs'. by apply Hk.
  - apply IH1; [done|]. intros s' caps' Hs'. by apply IH2.
  - rewrite IH1 by done. by apply IH2.
  - apply IH; [done|]. intros s' caps' Hs'. by apply Hk.
Qed.
End Absent.

Lemma search_none q groups r s :
  (∀ s', all_chars q s' = true → exec_here groups r s' = None) →
  all_chars q s = true → search groups r s = None.
Proof.
  intros Hexec. induction s as [|c s IH]; intros Hs; simpl.
  - by rewrite Hexec.
  - rewrite Hexec by done. simpl in Hs. apply andb_true_iff in Hs as [_ Hs].
    by rewrite IH.
Qed.

Section Closing.
Context {R : Type}.

Lemma run_seq_within q r1 r2 s caps (k : string → captures → option R) :
  all_chars q s = true →
  (∀ s' caps', all_chars q s' = true → run r2 s' caps' k = None) →
  run (Seq r1 r2) s caps k = None.
Proof. intros Hs Hk. simpl. by apply (run_within q). Qed.

Lemma run_lit_within c l s caps (k : string → captures → option R) :
  all_chars (no_char c) s = true → run (Lit (String c l)) s caps k = None.
Proof.
  intros Hs. destruct s as [|a s]; [done|]. simpl in *.
  apply andb_true_iff in Hs as [Ha _]. unfold no_char in Ha.
  apply negb_true_iff in Ha. rewrite Ascii.eqb_sym in Ha. by rewrite Ha.
Qed.
End Closing.

(** *** The statements, with any text after them *)

Lemma cube_bracket_match_rest body rest :
  all_chars (Js.none_of ["]"]) body = true → body ≠ EmptyString →
  str_match 1 cube_bracket_re ("cube([" +:+ body +:+ "])" +:+ rest)
  = Some [Some ("cube([" +:+ body +:+ "])"); Some body].
Proof.
  intros Hall Hne. eapply search_here.
  destruct body as [|c body]; [done|]. simpl in Hall.
  apply andb_true_iff in Hall as [Hc Hall].
  unfold exec_here, cube_bracket_re, sp, some_not, Plus, cat.
  apply step_Seq. match_literal.
  apply step_Seq. skip_spaces.
  apply step_Seq. match_literal.
  rewrite (app_cons_s c body).
  apply step_Seq, step_Grp, step_Seq, step_Cls; [done|].
  apply step_Star; [done..|]. cbv beta.
  apply step_Seq. match_literal.
  apply step_Seq. skip_spaces.
  match_literal.
  cbn [insert list_insert replicate].
  rewrite <- (app_cons_s c body).
  rewrite (consumed_app (String c body) ("])" +:+ rest)).
  rewrite <- !app_assoc_s, consumed_app. reflexivity.
Qed.

Lemma numeral_plain t : numeral t = true → plain t = true.
Proof. intros Ht. unfold plain. by apply numeral_none_of. Qed.

Lemma parseCube_statement sx sy sz x y z rest :
  numeral sx = true → numeral sy = true → numeral sz = true →
  parseFloat sx = Fin x → parseFloat sy = Fin y → parseFloat sz = Fin z →
  (0 < x)%Q → (0 < y)%Q → (0 < z)%Q →
  parseCube (cubeCall [sx; sy; sz] +:+ rest)
  = Some (cubeMesh (vec3 (Fin x) (Fin y) (Fin z))).
Proof.
  intros Nx Ny Nz Hx Hy Hz Gx Gy Gz.
  assert (Forall (λ s, plain s = true) [sx; sy; sz]) as Hall
    by (repeat constructor; by apply numeral_plain).
  unfold parseCube, cubeParams, cubeCall. rewrite !app_assoc_s.
  rewrite cube_bracket_match_rest;
    [|by apply join_no_bracket|apply join_nonempty; simpl; lia].
  unfold capture. cbn [lookup list_lookup mjoin option_join default id].
  rewrite split_join; [|done|].
  2:{ eapply Forall_impl; [exact Hall|]. apply plain_no_comma. }
  cbn [map]. rewrite !trim_numeral by done. rewrite Hx, Hy, Hz.
  unfold cubeSize. cbn [length Nat.eqb lookup list_lookup or_default].
  unfold truthy. rewrite !positive_not_zero by done. reflexivity.
Qed.

Lemma sphere_match_named_rest t rest :
  numeral t = true →
  str_match 1 sphere_re ("sphere(r=" +:+ t +:+ ")" +:+ rest)
  = Some [Some ("sphere(r=" +:+ t); Some t].
Proof.
  intros Ht. eapply search_here.
  unfold exec_here, sphere_re, Opt, cat.
  apply step_Seq. match_literal.
  apply step_Seq, step_Alt_l.
  apply step_Seq. match_literal.
  apply step_Seq. skip_spaces.
  apply step_Seq. match_literal.
  apply step_Star_stop; [by apply stops_numeral|].
  change (t +:+ ")" +:+ rest) with (t +:+ String ")" rest).
  eapply exec_number_group; [done| |reflexivity|].
  { simpl. tauto. }
  replace ("sphere(r=" +:+ t +:+ String ")" rest)
    with (("sphere(r=" +:+ t) +:+ String ")" rest) by (by rewrite app_assoc_s).
  rewrite consumed_app. reflexivity.
Qed.

Lemma parseCylinder_statement h r rest :
  numeral h = true → numeral r = true →
  all_chars (no_char "=") rest = true →
  parseCylinder ("cylinder(h=" +:+ h +:+ ", r=" +:+ r +:+ ")" +:+ rest)
  = Some (cylinderMesh (parseFloat r) (parseFloat r) (parseFloat h)).
Proof.
  intros Hh Hr Hrest.
  set (line := "cylinder(h=" +:+ h +:+ ", r=" +:+ r +:+ ")" +:+ rest).
  set (tail := "r=" +:+ r +:+ ")" +:+ rest).
  assert (∀ d, named_or "h" line d = parseFloat h) as Hheight.
  { intros d. trans (named_or "h" ("h=" +:+ h +:+ ", " +:+ tail) d).
    - by apply (named_or_skip "h" EmptyString "cylinder(").
    - by apply (named_or_here "h" h "," (" " +:+ tail)). }
  assert (∀ name d, In name ["r"; "r1"; "r2"]%string →
            named_or name line d = named_or name tail d) as Hskip.
  { intros name d Hname.
    trans (named_or name ("(h=" +:+ h +:+ ", " +:+ tail) d).
    { simpl in Hname. destruct Hname as [<-|[<-|[<-|[]]]];
        (etrans; [by apply (named_or_skip "r" _ "cylinde")|]);
        by apply (named_or_skip_one _ "r"). }
    replace ("(h=" +:+ h +:+ ", " +:+ tail)
      with (("(h=" +:+ h +:+ ", ") +:+ tail) by (by rewrite !app_assoc_s).
    simpl in Hname. destruct Hname as [<-|[<-|[<-|[]]]];
      apply named_or_skip; rewrite !all_chars_app;
      by rewrite (numeral_free "r" h). }
  assert (∀ d, named_or "r" line d = parseFloat r) as Hradius.
  { intros d. rewrite Hskip by (simpl; tauto).
    by apply (named_or_here "r" r ")" rest). }
  assert (∀ name d, In name ["r1"; "r2"]%string → named_or name line d = d)
    as Hother.
  { intros name d Hname. rewrite Hskip by (simpl in *; tauto).
    trans (named_or name ("=" +:+ r +:+ ")" +:+ rest) d).
    { simpl in Hname. destruct Hname as [<-|[<-|[]]];
        by apply (named_or_skip_one _ "r"). }
    trans (named_or name (r +:+ ")" +:+ rest) d).
    { simpl in Hname. destruct Hname as [<-|[<-|[]]];
        by apply (named_or_skip_one _ "="). }
    unfold named_or. rewrite named_absent; [done|].
    rewrite !all_chars_app. by rewrite (numeral_free "=" r), Hrest. }
  unfold parseCylinder. fold line.
  rewrite Hheight, Hradius, !Hother by (simpl; tauto). reflexivity.
Qed.

(** *** What the loop makes of the line of a recognized statement *)

Lemma lineObject_closed clean c a rest :
  Js.is_space c = false →
  lineObject clean (String c a +:+ ")" +:+ rest) =
  let trimmed := String c a +:+ ")" +:+ Js.trimEnd rest in
  if Js.includes trimmed "cube(" then parseCube trimmed
  else if Js.includes trimmed "sphere(" then parseSphere trimmed
  else if Js.includes trimmed "cylinder(" then parseCylinder trimmed
  else if Js.includes trimmed "translate(" then parseTranslate trimmed clean
  else if Js.includes trimmed "rotate(" then parseRotate trimmed clean
  else if Js.includes trimmed "difference()" then parseDifference clean
  else None.
Proof.
  intros Hc. unfold lineObject. rewrite trim_statement by done.
  by rewrite app_cons_s.
Qed.

Lemma overriding_absent stmt rest kw :
  Forall (λ kw, Js.includes rest kw = false) (overriding stmt) →
  kw ∈ overriding stmt → Js.includes (Js.trimEnd rest) kw = false.
Proof.
  intros Hall Hin. apply trimEnd_includes.
  rewrite Forall_forall in Hall. by apply Hall.
Qed.

Lemma recognized_line clean stmt mesh rest :
  recognized stmt mesh →
  Forall (λ kw, Js.includes rest kw = false) (overriding stmt) →
  lineObject clean (stmt +:+ rest) = Some mesh.
Proof.
  intros Hstmt Hquiet. destruct Hstmt as
    [sx sy sz x y z Nx Ny Nz Hx Hy Hz Gx Gy Gz|r Nr|r Nr|h r Nh Nr].
  - set (body := Js.join "," [sx; sy; sz]).
    assert (cubeCall [sx; sy; sz] = String "c" ("ube([" +:+ body +:+ "]") +:+ ")")
      as Hform by (unfold cubeCall; fold body; by rewrite !app_cons_s, !app_assoc_s).
    rewrite Hform, app_assoc_s, lineObject_closed by done. cbv zeta.
    rewrite <- app_assoc_s, <- Hform.
    rewrite includes_here by (by apply startsWith_app_l).
    by apply parseCube_statement.
  - change ("sphere(" +:+ r +:+ ")") with (String "s" ("phere(" +:+ r) +:+ ")").
    rewrite app_assoc_s, lineObject_closed by done. cbv zeta.
    change (String "s" ("phere(" +:+ r) +:+ ")" +:+ Js.trimEnd rest)
      with ("sphere(" +:+ r +:+ ")" +:+ Js.trimEnd rest).
    assert (Js.includes ("sphere(" +:+ r +:+ ")" +:+ Js.trimEnd rest) "cube(" = false)
      as ->.
    { replace ("sphere(" +:+ r +:+ ")" +:+ Js.trimEnd rest)
        with (("sphere(" +:+ r +:+ ")") +:+ Js.trimEnd rest)
        by (by rewrite !app_assoc_s).
      rewrite includes_skip.
      - apply (overriding_absent _ _ _ Hquiet). set_solver.
      - rewrite !all_chars_app. by rewrite (numeral_free "c" r). }
    rewrite includes_here by done.
    unfold parseSphere. rewrite sphere_match_call by done.
    unfold capture. simpl. by rewrite trim_numeral.
  - change ("sphere(r=" +:+ r +:+ ")") with (String "s" ("phere(r=" +:+ r) +:+ ")").
    rewrite app_assoc_s, lineObject_closed by done. cbv zeta.
    change (String "s" ("phere(r=" +:+ r) +:+ ")" +:+ Js.trimEnd rest)
      with ("sphere(r=" +:+ r +:+ ")" +:+ Js.trimEnd rest).
    assert (Js.includes ("sphere(r=" +:+ r +:+ ")" +:+ Js.trimEnd rest) "cube(" = false)
      as ->.
    { replace ("sphere(r=" +:+ r +:+ ")" +:+ Js.trimEnd rest)
        with (("sphere(r=" +:+ r +:+ ")") +:+ Js.trimEnd rest)
        by (by rewrite !app_assoc_s).
      rewrite includes_skip.
      - apply (overriding_absent _ _ _ Hquiet). set_solver.
      - rewrite !all_chars_app. by rewrite (numeral_free "c" r). }
    rewrite includes_here by done.
    unfold parseSphere. rewrite sphere_match_named_rest by done.
    unfold capture. simpl. by rewrite trim_numeral.
  - set (stmt := "cylinder(h=" +:+ h +:+ ", r=" +:+ r +:+ ")") in *.
    set (inner := "ylinder(h=" +:+ h +:+ ", r=" +:+ r).
    assert (stmt = String "c" inner +:+ ")") as Hform
      by (unfold stmt, inner; by rewrite !app_cons_s, !app_assoc_s).
    assert (∀ kw, kw ∈ ["cube("; "sphere("; "="]%string →
                  Js.includes (Js.trimEnd rest) kw = false) as Habsent.
    { intros kw Hkw. by apply (overriding_absent stmt). }
    rewrite Hform, app_assoc_s, lineObject_closed by done. cbv zeta.
    rewrite <- app_assoc_s, <- Hform.
    assert (Js.includes (stmt +:+ Js.trimEnd rest) "cube(" = false) as ->.
    { rewrite Hform, app_cons_s, app_cons_s, includes_cons by done.
      rewrite includes_skip; [apply Habsent; set_solver|].
      unfold inner. rewrite !all_chars_app.
      by rewrite (numeral_free "c" h), (numeral_free "c" r). }
    assert (Js.includes (stmt +:+ Js.trimEnd rest) "sphere(" = false) as ->.
    { rewrite includes_skip; [apply Habsent; set_solver|].
      unfold stmt. rewrite !all_chars_app.
      by rewrite (numeral_free "s" h), (numeral_free "s" r). }
    rewrite includes_here by done.
    unfold stmt. rewrite !app_assoc_s.
    apply parseCylinder_statement; [done..|].
    apply includes_char, Habsent. set_solver.
Qed.

(** *** Cube calls that are never closed *)

Lemma strip_prefix_app_inv p s t : Js.strip_prefix p s = Some t → s = p +:+ t.
Proof.
  revert s. induction p as [|a p IH]; intros s; simpl; [by intros [= ->]|].
  destruct s as [|b s]; [done|]. destruct (Ascii.eqb_spec a b) as [->|]; [|done].
  intros H%IH. by rewrite app_cons_s, H.
Qed.

Lemma unclosed_line clean line :
  unclosedCube line = true → lineObject clean line = None.
Proof.
  unfold unclosedCube. intros [Hstart Hopen]%andb_true_iff.
  unfold Js.startsWith in Hstart.
  destruct (Js.strip_prefix "cube(" line) as [junk|] eqn:E; [|done].
  apply strip_prefix_app_inv in E as ->.
  assert (all_chars (no_char ")") (Js.trim ("cube(" +:+ junk)) = true) as Hfree.
  { unfold Js.trim. by apply trimEnd_all_chars. }
  assert (Js.includes (Js.trim ("cube(" +:+ junk)) "cube(" = true) as Hcube.
  { unfold Js.trim. change (Js.trimStart ("cube(" +:+ junk)) with ("cube(" +:+ junk).
    change ("cube(" +:+ junk) with ("cube" +:+ String "(" junk).
    rewrite trimEnd_app by (simpl; by destruct (Js.trimEnd junk)).
    apply includes_here. simpl Js.trimEnd.
    by destruct (Js.trimEnd junk). }
  unfold lineObject. rewrite Hcube.
  destruct (String.length _ =? 0)%nat; [done|].
  assert (∀ s, all_chars (no_char ")") s = true →
               str_match 1 cube_bracket_re s = None
               ∧ str_match 1 cube_single_re s = None) as Hnone.
  { intros s Hs. unfold str_match.
    rewrite !(search_none (no_char ")")); [done| |done| |done];
      intros s' Hs'; unfold exec_here, cube_bracket_re, cube_single_re, cat;
      repeat (apply (run_seq_within (no_char ")")); [done|intros ? ? ?]);
      by apply run_lit_within. }
  unfold parseCube, cubeParams.
  by destruct (Hnone _ Hfree) as [-> ->].
Qed.

(** *** The whole text *)

Lemma all_chars_join p sep parts :
  all_chars p sep = true → Forall (λ l, all_chars p l = true) parts →
  all_chars p (Js.join sep parts) = true.
Proof.
  intros Hsep Hall. induction Hall as [|l ls Hl Hls IH]; [done|].
  destruct ls as [|l' ls]; [exact Hl|].
  change (Js.join sep (l :: l' :: ls)) with (l +:+ sep +:+ Js.join sep (l' :: ls)).
  by rewrite !all_chars_app, Hl, Hsep, IH.
Qed.

Lemma recognized_free c stmt mesh :
  recognized stmt mesh → c = "/" ∨ c = "010" →
  all_chars (no_char c) stmt = true.
Proof.
  intros Hstmt Hc.
  assert (number_char c = false) as Hn by (by destruct Hc as [->| ->]).
  assert (∀ t, numeral t = true → all_chars (no_char c) t = true) as Hnum
    by (intros t Ht; by apply numeral_free).
  destruct Hstmt as [sx sy sz x y z Nx Ny Nz _ _ _ _ _ _|r Nr|r Nr|h r Nh Nr];
    unfold cubeCall; cbn [Js.join]; rewrite !all_chars_app.
  - rewrite (Hnum sx), (Hnum sy), (Hnum sz) by done. by destruct Hc as [->| ->].
  - rewrite (Hnum r) by done. by destruct Hc as [->| ->].
  - rewrite (Hnum r) by done. by destruct Hc as [->| ->].
  - rewrite (Hnum h), (Hnum r) by done. by destruct Hc as [->| ->].
Qed.

Lemma omap_unclosed clean lines :
  Forall (λ l, unclosedCube l = true) lines → omap (lineObject clean) lines = [].
Proof.
  induction 1 as [|l ls Hl _ IH]; [done|].
  change (omap (lineObject clean) (l :: ls))
    with (match lineObject clean l with
          | Some y => y :: omap (lineObject clean) ls
          | None => omap (lineObject clean) ls
          end).
  by rewrite unclosed_line.
Qed.


(** Each of the overriding texts does hide the statement before it: the
    sphere is lost to a cube call, also a malformed one; the cylinder is
    lost to a sphere call and takes its bottom radius from a later
    [r1=]. *)
Lemma overriding_is_needed :
  recognized "sphere(r=5)"
    (new_Mesh (SphereGeometry (of_Z 5) 32 32) (material 0x764ba2))
  ∧ overriding "sphere(r=5)" = ["cube("%string]
  ∧ Js.includes "; cube(bad syntax" "cube(" = true
  ∧ parseOpenSCADToThreeJS ("sphere(r=5)" +:+ "; cube(bad syntax")
    = Throw no_primitives
  ∧ recognized "cylinder(h=10, r=5)" (cylinderMesh (of_Z 5) (of_Z 5) (of_Z 10))
  ∧ overriding "cylinder(h=10, r=5)" = ["cube("; "sphere("; "="]%string
  ∧ parseOpenSCADToThreeJS ("cylinder(h=10, r=5)" +:+ "; sphere(bad")
    = Ok (Group zero3 no_rotation
            [new_Mesh (SphereGeometry NaN 32 32) (material 0x764ba2)])
  ∧ parseOpenSCADToThreeJS ("cylinder(h=10, r=5)" +:+ "; r1=3")
    = Ok (Group zero3 no_rotation [cylinderMesh (of_Z 5) (of_Z 3) (of_Z 10)]).
Proof.
  split; [apply (recognized_sphere_named "5"); reflexivity|].
  split; [reflexivity|]. split; [reflexivity|].
  split; [vm_compute; reflexivity|].
  split; [apply (recognized_cylinder "10" "5"); reflexivity|].
  split; [reflexivity|]. split; vm_compute; reflexivity.
Qed.

End SurvivalFacts.

(** ** The converter with the variable table *)

Section VariableFacts.

Import Converter.

Lemma vars_step_adds vars group line :
  ConverterVars.step vars group line = add_if group (lineShape vars line).
Proof. unfold ConverterVars.step, lineShape. by repeat case_match. Qed.

Lemma vars_loop_children vars lines : ∀ p r cs,
  fold_left (ConverterVars.step vars) lines (Group p r cs)
  = Group p r (cs ++ omap (lineShape vars) lines).
Proof.
  induction lines as [|line lines IH]; intros p r cs.
  - simpl. by rewrite app_nil_r.
  - cbn [fold_left]. rewrite vars_step_adds.
    change (omap (lineShape vars) (line :: lines))
      with (match lineShape vars line with
            | Some y => y :: omap (lineShape vars) lines
            | None => omap (lineShape vars) lines
            end).
    destruct (lineShape vars line) as [obj|]; simpl; rewrite IH; [|done].
    by rewrite <- app_assoc.
Qed.


(** *** Cubes with variables *)

Lemma vars_cube_bracket_match body :
  all_chars (Js.none_of ["]"]) body = true → body ≠ EmptyString →
  str_match 1 ConverterVars.cube_bracket_re ("cube([" +:+ body +:+ "])")
  = Some [Some ("cube([" +:+ body +:+ "]"); Some body].
Proof.
  intros Hall Hne. eapply search_here.
  destruct body as [|c body]; [done|]. simpl in Hall.
  apply andb_true_iff in Hall as [Hc Hall].
  unfold exec_here, ConverterVars.cube_bracket_re, sp, some_not, Plus, cat.
  apply step_Seq. match_literal.
  apply step_Seq. skip_spaces.
  apply step_Seq. match_literal.
  apply step_Seq, step_Grp, step_Seq, step_Cls; [done|].
  apply step_Star; [done..|]. cbv beta.
  match_literal.
  rewrite (consumed_app (String c body) "])").
  change ("cube([" +:+ String c body +:+ "])")
    with ("cube([" +:+ String c body +:+ "]" +:+ ")").
  rewrite <- !app_assoc_s, consumed_app. reflexivity.
Qed.

(** X16.  In a size list the converter with the variable table looks each
    component up in the table before it reads it as a number; with an
    empty table it builds the cube [openscadConverter.ts] builds. *)
Theorem vars_cube_resolves parts vars :
  (2 ≤ length parts)%nat → Forall (λ s, plain s = true) parts →
  ConverterVars.parseCube (cubeCall parts) vars
  = Some (cubeMesh (cubeSize (map (λ s, ConverterVars.resolve vars (Js.trim s)) parts)))
  ∧ ConverterVars.parseCube (cubeCall parts) ∅ = Converter.parseCube (cubeCall parts).
Proof.
  intros Hlen Hall.
  assert (∀ vs, ConverterVars.parseCube (cubeCall parts) vs
    = Some (cubeMesh (cubeSize (map (λ s, ConverterVars.resolve vs (Js.trim s)) parts))))
    as Hcube.
  { intros vs. unfold ConverterVars.parseCube, ConverterVars.cubeParams, cubeCall.
    rewrite vars_cube_bracket_match by auto using join_no_bracket, join_nonempty.
    unfold capture. simpl mjoin. simpl default.
    rewrite split_join.
    + done.
    + intros ->. simpl in Hlen. lia.
    + eapply Forall_impl; [exact Hall|]. apply plain_no_comma. }
  split; [apply Hcube|].
  rewrite Hcube. unfold Converter.parseCube. rewrite cubeParams_call by done.
  reflexivity.
Qed.

(** *** Assignments *)

Lemma space_not_word c : Js.is_space c = true → Js.is_word c = false.
Proof. destruct c as [[] [] [] [] [] [] [] []]; done. Qed.

Lemma space_not_number c : Js.is_space c = true → number_char c = false.
Proof. destruct c as [[] [] [] [] [] [] [] []]; done. Qed.

Lemma stops_after_spaces (p : ascii → bool) ws c rest :
  (∀ x, Js.is_space x = true → p x = false) → p c = false →
  all_chars Js.is_space ws = true → stops p (ws +:+ String c rest) = true.
Proof.
  intros Hp Hc Hws. destruct ws as [|x ws]; simpl in *; [by rewrite Hc|].
  apply andb_true_iff in Hws as [Hx _]. by rewrite (Hp x Hx).
Qed.

Lemma assignment_match w ws1 ws2 t ws3 :
  all_chars Js.is_word w = true → w ≠ EmptyString →
  all_chars Js.is_space ws1 = true → all_chars Js.is_space ws2 = true →
  all_chars Js.is_space ws3 = true → numeral t = true →
  exec_here 2 ConverterVars.assignment_re
    (w +:+ ws1 +:+ "=" +:+ ws2 +:+ t +:+ ws3 +:+ ";")
  = Some ([Some (w +:+ ws1 +:+ "=" +:+ ws2 +:+ t +:+ ws3 +:+ ";"); Some w; Some t],
          EmptyString).
Proof.
  intros Hw Hwne H1 H2 H3 Ht.
  destruct w as [|a w]; [done|]. simpl in Hw. apply andb_true_iff in Hw as [Ha Hw].
  destruct (numeral_cons t Ht) as (c & t' & -> & Hc & Ht').
  unfold exec_here, ConverterVars.assignment_re, sp, Plus, cat.
  rewrite (app_cons_s a w).
  apply step_Seq, step_Grp, step_Seq, step_Cls; [done|].
  apply step_Star; [done| |].
  { apply stops_after_spaces; [apply space_not_word|done..]. }
  cbv beta.
  apply step_Seq, step_Star; [done..|].
  apply step_Seq. match_literal.
  apply step_Seq, step_Star; [done| |].
  { rewrite (app_cons_s c t'). simpl. by rewrite (proj1 (number_char_cases c Hc)). }
  rewrite (app_cons_s c t').
  apply step_Seq, step_Grp, step_Seq, step_Cls; [done|].
  apply step_Star; [done| |].
  { apply stops_after_spaces; [apply space_not_number|done..]. }
  cbv beta.
  apply step_Seq, step_Star; [done..|].
  match_literal.
  cbn [insert list_insert replicate].
  rewrite consumed_nil.
  rewrite <- (app_cons_s c t'), <- (app_cons_s a w).
  rewrite !consumed_app. reflexivity.
Qed.

Lemma search_at_start groups r s caps rest :
  exec_here groups r s = Some (caps, rest) →
  search groups r s = Some (EmptyString, caps, rest).
Proof. destruct s; simpl; by intros ->. Qed.

(** X17.  A text that is one assignment of an unsigned decimal to a name
    gives the table with that one entry. *)
Theorem variable_assignment w ws1 ws2 t ws3 :
  all_chars Js.is_word w = true → w ≠ EmptyString →
  all_chars Js.is_space ws1 = true → all_chars Js.is_space ws2 = true →
  all_chars Js.is_space ws3 = true → numeral t = true →
  ConverterVars.extractVariables (w +:+ ws1 +:+ "=" +:+ ws2 +:+ t +:+ ws3 +:+ ";")
  = {[ w := parseFloat t ]}.
Proof.
  intros Hw Hwne H1 H2 H3 Ht.
  unfold ConverterVars.extractVariables, matchAll.
  set (s := w +:+ ws1 +:+ "=" +:+ ws2 +:+ t +:+ ws3 +:+ ";").
  assert (search 2 ConverterVars.assignment_re s
          = Some (EmptyString, [Some s; Some w; Some t], EmptyString)) as Hs.
  { by apply search_at_start, assignment_match. }
  cbn [matchAll_fuel]. rewrite Hs.
  assert (whole [Some s; Some w; Some t] = s) as -> by done.
  assert (s ≠ EmptyString) as Hne.
  { unfold s. by destruct w. }
  destruct s as [|a s'] eqn:Es; [done|].
  assert (advance [Some (String a s'); Some w; Some t] EmptyString = EmptyString)
    as -> by reflexivity.
  assert (matchAll_fuel (String.length (String a s')) 2
            ConverterVars.assignment_re EmptyString = []) as ->.
  { reflexivity. }
  reflexivity.
Qed.

(** *** [linear_extrude] *)

(** X18.  A linear extrude is drawn as a box of 20 by 20 with the height
    named in the call, looked up in the table first; the shape that is
    extruded is not read. *)
Theorem linear_extrude_height t rest vars :
  numeral t = true →
  ConverterVars.parseLinearExtrude ("linear_extrude(height=" +:+ t +:+ ")" +:+ rest) vars
  = Some (new_Mesh (BoxGeometry (of_Z 20) (of_Z 20) (ConverterVars.resolve vars t))
                   (ConverterVars.material 0x10b981 (85 # 100))).
Proof.
  intros Ht. unfold ConverterVars.parseLinearExtrude.
  change ConverterVars.height_re with (named_re "height").
  change ("linear_extrude(height=" +:+ t +:+ ")" +:+ rest)
    with ("linear_extrude(" +:+ "height" +:+ "=" +:+ t +:+ String ")" rest).
  unfold named_re, cat. rewrite str_match_skip by done.
  fold (cat [Lit "height"; sp; Lit "="; sp; Grp 1 (some_not [","; ")"])]).
  fold (named_re "height").
  rewrite named_match by done.
  unfold capture. simpl. by rewrite trim_numeral.
Qed.

End VariableFacts.

(** ** The shape of a scene *)

Section SceneFacts.

Import Converter.

Lemma parseCube_mesh line o : parseCube line = Some o → isMesh o = true.
Proof. unfold parseCube. destruct (cubeParams line); [|done]. by intros [= <-]. Qed.

Lemma parseSphere_mesh line o : parseSphere line = Some o → isMesh o = true.
Proof. unfold parseSphere. destruct (str_match _ _ _); [|done]. by intros [= <-]. Qed.

Lemma parseCylinder_mesh line o : parseCylinder line = Some o → isMesh o = true.
Proof. unfold parseCylinder. by intros [= <-]. Qed.

Lemma parseChild_mesh line o : parseChild line = Some o → isMesh o = true.
Proof.
  unfold parseChild. repeat case_match; try done;
    eauto using parseCube_mesh, parseSphere_mesh, parseCylinder_mesh.
Qed.

Lemma add_if_flat p r child :
  (∀ o, child = Some o → isMesh o = true) →
  flatObject (add_if (Group p r []) child) = true.
Proof.
  intros H. destruct child as [o|]; simpl; [|done]. by rewrite (H o).
Qed.

Lemma differenceLoop_flat lines :
  flatObject (differenceLoop lines new_Group) = true.
Proof.
  induction lines as [|line lines IH]; simpl; [done|].
  destruct (Js.startsWith _ _); [|done].
  destruct (parseCube (Js.trim line)) as [cube|] eqn:E; [|done].
  apply parseCube_mesh in E. destruct cube; simpl in *; done.
Qed.

Lemma lineObject_flat clean line o :
  lineObject clean line = Some o → flatObject o = true.
Proof.
  unfold lineObject. repeat case_match; try done.
  - intros ?%parseCube_mesh. by destruct o.
  - intros ?%parseSphere_mesh. by destruct o.
  - intros ?%parseCylinder_mesh. by destruct o.
  - unfold parseTranslate. repeat case_match; try done. intros [= <-].
    apply add_if_flat. eauto using parseChild_mesh.
  - unfold parseRotate. repeat case_match; try done; intros [= <-]; [|done].
    apply add_if_flat. eauto using parseChild_mesh.
  - unfold parseDifference. case_match; [|done]. intros [= <-].
    apply differenceLoop_flat.
Qed.

Lemma omap_length_le {A B} (f : A → option B) l : (length (omap f l) ≤ length l)%nat.
Proof.
  induction l as [|x l IH]; [done|].
  change (omap f (x :: l)) with (match f x with Some y => y :: omap f l | None => omap f l end).
  destruct (f x); simpl; lia.
Qed.

(** X1.  A scene that is returned is a group at the origin with at least
    one child and at most one child per line of the cleaned text. *)
Theorem scene_never_empty code group :
  parseOpenSCADToThreeJS code = Ok group →
  ∃ cs, group = Group zero3 no_rotation cs
    ∧ (1 ≤ length cs ≤ length (Js.split "010" (cleanCode code)))%nat.
Proof.
  rewrite parse_lines.
  pose proof (omap_length_le (lineObject (cleanCode code))
                (Js.split "010" (cleanCode code))) as Hlen.
  destruct (omap _ _) as [|o objs]; [done|].
  intros [= <-]. eexists. split; [done|]. simpl in *. lia.
Qed.

(** X2.  A scene that is returned is at most two levels deep: each child
    is a mesh or a group that holds at most one object, a mesh. *)
Theorem scene_is_flat code group :
  parseOpenSCADToThreeJS code = Ok group →
  Forall (λ o, flatObject o = true) (children group).
Proof.
  rewrite parse_lines.
  assert (Forall (λ o, flatObject o = true)
            (omap (lineObject (cleanCode code)) (Js.split "010" (cleanCode code)))) as H.
  { apply Forall_forall. intros o [line [_ Ho]]%list_elem_of_omap.
    by apply lineObject_flat in Ho. }
  destruct (omap _ _) as [|o objs]; [done|]. by intros [= <-].
Qed.

(** X15.  The converter with the variable table returns, for every text,
    a group at the origin with at least one child and at most one child
    per line of the cleaned text: it never throws and never returns an
    empty scene. *)
Theorem vars_scene_never_empty code :
  ∃ cs, ConverterVars.parseOpenSCADToThreeJS code = Group zero3 no_rotation cs
    ∧ (1 ≤ length cs ≤ length (Js.split "010" (cleanCode code)))%nat.
Proof.
  pose proof (split_nonempty "010" (cleanCode code)) as Hlines.
  assert (1 ≤ length (Js.split "010" (cleanCode code)))%nat as Hone
    by (destruct (Js.split _ _); simpl; [done|lia]).
  unfold ConverterVars.parseOpenSCADToThreeJS.
  destruct (ConverterVars.parseComplexStructure _ _) as [parsed|].
  { eexists. split; [reflexivity|]. simpl. lia. }
  unfold new_Group. rewrite vars_loop_children. cbn [app children].
  pose proof (omap_length_le
                (lineShape (ConverterVars.extractVariables (cleanCode code)))
                (Js.split "010" (cleanCode code))) as Hlen.
  destruct (omap _ _) as [|shape shapes].
  - eexists. split; [reflexivity|]. simpl. lia.
  - eexists. split; [reflexivity|]. simpl in *. lia.
Qed.

End SceneFacts.

(** ** Errors and edge cases of the exporter *)

Section ExporterMore.

Import StlExporter.

Context {Matrix4 : Type}.
Variable applyMatrix4 : Vector3 → Matrix4 → Vector3.
Variable extractRotation : Matrix4 → Matrix4.
Variable normalize : Vector3 → Vector3.
Variable toString : num → string.

Abbreviation writeIndexed' := (writeIndexed normalize toString).
Abbreviation writeSoup' := (writeSoup normalize toString).
Abbreviation writeMesh' := (writeMesh applyMatrix4 extractRotation normalize toString).
Abbreviation forEach' := (forEach applyMatrix4 extractRotation normalize toString).
Abbreviation generateSTL' := (generateSTL applyMatrix4 extractRotation normalize toString).
Abbreviation exportToSTL' := (exportToSTL applyMatrix4 extractRotation normalize toString).
Abbreviation sceneFacets' := (sceneFacets applyMatrix4 extractRotation normalize).

Lemma grows_refl stl : grows stl (Return stl).
Proof. exists EmptyString. by rewrite app_nil_s. Qed.

Lemma grows_trans stl text o : grows (stl +:+ text) o → grows stl o.
Proof.
  destruct o as [stl'|e]; simpl; [|done].
  intros [body ->]. exists (text +:+ body). by rewrite app_assoc_s.
Qed.

Lemma writeIndexed_grows vs ns ix steps : ∀ stl,
  grows stl (writeIndexed' vs ns ix steps stl).
Proof.
  induction steps as [|i steps IH]; intros stl; cbn [writeIndexed].
  - apply grows_refl.
  - case_match; [|done]. eapply grows_trans, IH.
Qed.

Lemma writeSoup_grows vs ns steps : ∀ stl,
  grows stl (writeSoup' vs ns steps stl).
Proof.
  induction steps as [|i steps IH]; intros stl; cbn [writeSoup].
  - apply grows_refl.
  - repeat case_match; try done; try apply IH. eapply grows_trans, IH.
Qed.

Lemma writeMesh_grows stl mesh : grows stl (writeMesh' stl mesh).
Proof.
  unfold writeMesh. repeat case_match;
    auto using grows_refl, writeIndexed_grows, writeSoup_grows.
Qed.

Lemma forEach_grows meshes : ∀ stl, grows stl (forEach' meshes stl).
Proof.
  induction meshes as [|mesh meshes IH]; intros stl; cbn [forEach].
  - apply grows_refl.
  - pose proof (writeMesh_grows stl mesh) as Hm.
    destruct (writeMesh' stl mesh) as [stl'|e]; [|done].
    destruct Hm as [body ->]. eapply grows_trans, IH.
Qed.

(** X19.  Whatever the scene, a text that is returned opens with the line
    [solid model] and closes with the line [endsolid model]. *)
Theorem stl_framed group text :
  generateSTL' group = Return text →
  ∃ body, text = "solid model" +:+ nl +:+ body +:+ "endsolid model" +:+ nl.
Proof.
  unfold generateSTL. case_match; [done|].
  pose proof (forEach_grows (traverse group) ("solid model" +:+ nl)) as Hg.
  destruct (forEach' _ _) as [stl|e]; [|done].
  destruct Hg as [body ->]. intros [= <-]. exists body.
  by rewrite !app_assoc_s.
Qed.

(** X20.  The only errors: [No meshes to export] on a scene without a mesh, and
    otherwise a [TypeError] from reading a vertex, an index or a normal
    that is not there. *)
Theorem export_errors group e :
  generateSTL' group = Throw e →
  (traverse group = [] ∧ e = Error "No meshes to export")
  ∨ (traverse group ≠ [] ∧ e = TypeError).
Proof.
  unfold generateSTL.
  destruct (Nat.eqb_spec (length (traverse group)) 0) as [H0|Hne].
  - intros [= <-]. left. by apply nil_length_inv in H0.
  - pose proof (forEach_grows (traverse group) ("solid model" +:+ nl)) as Hg.
    destruct (forEach' _ _) as [stl|e']; [done|].
    intros [= <-]. right. split; [|done]. by intros H; rewrite H in Hne.
Qed.

(** *** Index buffers that point nowhere *)

Lemma writeIndexed_throws vs ns ix steps i : ∀ stl,
  i ∈ steps →
  (i1 ← ix !! i; i2 ← ix !! (i + 1)%nat; i3 ← ix !! (i + 2)%nat;
   v1 ← vs !! i1; v2 ← vs !! i2; v3 ← vs !! i3;
   n ← facetNormal normalize ns i1 i2 i3 v1 v2 v3;
   Some (facet toString n v1 v2 v3)) = None →
  writeIndexed' vs ns ix steps stl = Throw TypeError.
Proof.
  induction steps as [|s steps IH]; intros stl Hin Hnone.
  - by apply elem_of_nil in Hin.
  - cbn [writeIndexed].
    destruct (decide (i = s)) as [->|Hne]; [by rewrite Hnone|].
    apply elem_of_cons in Hin as [?|Hin]; [done|].
    case_match; [by apply IH|done].
Qed.

Lemma stride_of j n : (j < n)%nat → (3 * (j / 3))%nat ∈ strides n.
Proof.
  intros Hj. unfold strides. apply list_elem_of_fmap.
  exists (j / 3)%nat. split; [done|]. apply elem_of_seq.
  pose proof (Nat.div_mod_eq j 3). pose proof (Nat.mod_upper_bound j 3).
  pose proof (Nat.div_mod_eq (n + 2) 3). pose proof (Nat.mod_upper_bound (n + 2) 3).
  lia.
Qed.

Lemma last_stride n : (n mod 3 ≠ 0)%nat → (3 * (n / 3))%nat ∈ strides n.
Proof.
  intros Hn. unfold strides. apply list_elem_of_fmap.
  exists (n / 3)%nat. split; [done|]. apply elem_of_seq.
  pose proof (Nat.div_mod_eq n 3). pose proof (Nat.mod_upper_bound n 3).
  pose proof (Nat.div_mod_eq (n + 2) 3). pose proof (Nat.mod_upper_bound (n + 2) 3).
  lia.
Qed.

Lemma writeMesh_broken stl (mesh : BufferGeometry * Matrix4) ps ix :
  position mesh.1 = Some ps → index mesh.1 = Some ix →
  brokenIndex (length ps) ix →
  writeMesh' stl mesh = Throw TypeError.
Proof.
  intros Hps Hix Hbroken. unfold writeMesh. rewrite Hps, Hix.
  set (vs := map _ ps). set (ns := match normal mesh.1 with Some _ => _ | None => _ end).
  assert (∀ i, (length ps ≤ i)%nat → vs !! i = None) as Hvs.
  { intros i Hi. apply lookup_ge_None_2. unfold vs. by rewrite length_map. }
  destruct Hbroken as [Hmod|(i & Hin & Hi)].
  - apply (writeIndexed_throws _ _ _ _ (3 * (length ix / 3))%nat);
      [by apply last_stride|].
    assert (ix !! (3 * (length ix / 3) + 2)%nat = None) as Hnone.
    { apply lookup_ge_None_2.
      pose proof (Nat.div_mod_eq (length ix) 3).
      pose proof (Nat.mod_upper_bound (length ix) 3). lia. }
    destruct (ix !! (3 * (length ix / 3))%nat) as [i1|]; [|done].
    cbn [mbind option_bind].
    destruct (ix !! (3 * (length ix / 3) + 1)%nat) as [i2|]; [|done].
    cbn [mbind option_bind].
    by rewrite Hnone.
  - apply list_elem_of_lookup in Hin as [j Hj].
    pose proof (lookup_lt_Some _ _ _ Hj) as Hlt.
    apply (writeIndexed_throws _ _ _ _ (3 * (j / 3))%nat);
      [by apply stride_of|].
    pose proof (Nat.div_mod_eq j 3). pose proof (Nat.mod_upper_bound j 3).
    destruct (ix !! (3 * (j / 3))%nat) as [i1|] eqn:H1; [|done].
    cbn [mbind option_bind].
    destruct (ix !! (3 * (j / 3) + 1)%nat) as [i2|] eqn:H2; [|done].
    cbn [mbind option_bind].
    destruct (ix !! (3 * (j / 3) + 2)%nat) as [i3|] eqn:H3; [|done].
    cbn [mbind option_bind].
    assert (i = i1 ∨ i = i2 ∨ i = i3) as Hcase.
    { assert (j = 3 * (j / 3) ∨ j = 3 * (j / 3) + 1 ∨ j = 3 * (j / 3) + 2)%nat
        as [E|[E|E]] by lia; rewrite E in Hj; simplify_eq; auto. }
    destruct (vs !! i1) as [v1|] eqn:Hv1; [|done]. cbn [mbind option_bind].
    destruct (vs !! i2) as [v2|] eqn:Hv2; [|done]. cbn [mbind option_bind].
    destruct (vs !! i3) as [v3|] eqn:Hv3; [|done].
    destruct Hcase as [E|[E|E]]; subst; rewrite Hvs in * by done; done.
Qed.

Lemma forEach_throws meshes mesh : ∀ stl,
  mesh ∈ meshes → (∀ stl', writeMesh' stl' mesh = Throw TypeError) →
  forEach' meshes stl = Throw TypeError.
Proof.
  induction meshes as [|m meshes IH]; intros stl Hin Hthrow.
  - by apply elem_of_nil in Hin.
  - cbn [forEach]. pose proof (writeMesh_grows stl m) as Hm.
    destruct (writeMesh' stl m) as [stl'|e] eqn:Hw; [|by rewrite Hm].
    apply elem_of_cons in Hin as [->|Hin]; [by rewrite Hthrow in Hw|].
    by apply IH.
Qed.

(** X21.  One mesh with a broken index buffer anywhere in the scene makes the
    export throw a [TypeError]; nothing is downloaded, whatever the other
    meshes hold. *)
Theorem broken_index_throws group mesh ps ix filename d :
  mesh ∈ traverse group →
  position mesh.1 = Some ps → index mesh.1 = Some ix →
  brokenIndex (length ps) ix →
  exportToSTL' group filename d = (Throw TypeError, d).
Proof.
  intros Hin Hps Hix Hbroken. unfold exportToSTL, generateSTL.
  destruct (Nat.eqb_spec (length (traverse group)) 0) as [H0|_].
  { apply nil_length_inv in H0. rewrite H0 in Hin. by apply elem_of_nil in Hin. }
  rewrite (forEach_throws _ mesh); [done..|].
  intros stl'. by eapply writeMesh_broken.
Qed.

(** *** Meshes without vertices *)

Lemma forEach_positionless meshes : ∀ stl,
  Forall (λ mesh : BufferGeometry * Matrix4, position mesh.1 = None) meshes →
  forEach' meshes stl = Return stl.
Proof.
  induction meshes as [|m meshes IH]; intros stl Hall; [done|].
  apply Forall_cons in Hall as [Hm Hall].
  cbn [forEach]. unfold writeMesh. rewrite Hm. by apply IH.
Qed.

(** X22.  Meshes whose geometry has no [position] attribute count as meshes:
    the export does not throw but returns a solid without facets. *)
Theorem positionless_meshes_empty_solid group :
  traverse group ≠ [] →
  Forall (λ mesh : BufferGeometry * Matrix4, position mesh.1 = None) (traverse group) →
  generateSTL' group = Return ("solid model" +:+ nl +:+ "endsolid model" +:+ nl).
Proof.
  intros Hne Hall. unfold generateSTL.
  destruct (Nat.eqb_spec (length (traverse group)) 0) as [H0|_].
  { by apply nil_length_inv in H0. }
  rewrite forEach_positionless by done. by rewrite !app_assoc_s.
Qed.

(** *** The whole export *)

(** X23.  On a scene of well-formed meshes [exportToSTL] returns and hands the
    browser one file more: the given name with the text of the scene;
    the earlier files are kept. *)
Theorem export_downloads_once group filename d :
  traverse group ≠ [] →
  Forall (λ mesh, wellFormed mesh.1 = true) (traverse group) →
  exportToSTL' group filename d
  = (Return (), d ++ [(filename, unlines (stlLines toString (sceneFacets' group)))]).
Proof.
  intros Hne Hwf. unfold exportToSTL.
  by rewrite (generateSTL_facets applyMatrix4 extractRotation normalize toString).
Qed.

(** *** Groups *)

Lemma traverse_children (cs : list (Node Matrix4)) :
  traverse (OtherNode cs) = cs ≫= traverse.
Proof.
  induction cs as [|c cs IH]; [done|].
  rewrite bind_cons, <- IH. reflexivity.
Qed.


End ExporterMore.

(** ** Every mesh of the scene, in the world frame *)

Section WorldFacts.

Import StlExporter SceneGraph.

Context {Matrix4 : Type}.
Variable multiplyMatrices : Matrix4 → Matrix4 → Matrix4.
Variable applyMatrix4 : Vector3 → Matrix4 → Vector3.
Variable extractRotation : Matrix4 → Matrix4.
Variable normalize : Vector3 → Vector3.
Variable toString : num → string.

Lemma Node_induction (P : Node Matrix4 → Prop) :
  (∀ g mw cs, Forall P cs → P (MeshNode g mw cs)) →
  (∀ cs, Forall P cs → P (OtherNode cs)) →
  ∀ n, P n.
Proof.
  intros Hmesh Hother. fix IH 1. intros [g mw cs|cs].
  - apply Hmesh. induction cs as [|c cs IHcs]; constructor; [apply IH|exact IHcs].
  - apply Hother. induction cs as [|c cs IHcs]; constructor; [apply IH|exact IHcs].
Qed.

Lemma meshAt_nil (n : Node Matrix4) :
  meshAt n [] = match n with MeshNode g mw _ => Some (g, mw) | OtherNode _ => None end.
Proof. done. Qed.

Lemma meshAt_cons (n : Node Matrix4) i path :
  meshAt n (i :: path) = c ← childrenOf n !! i; meshAt c path.
Proof. unfold meshAt. simpl. by destruct (childrenOf n !! i). Qed.

Lemma traverse_mesh g (mw : Matrix4) cs :
  traverse (MeshNode g mw cs) = (g, mw) :: (cs ≫= traverse).
Proof.
  change (traverse (MeshNode g mw cs)) with ((g, mw) :: traverse (OtherNode cs)).
  by rewrite traverse_children.
Qed.

Lemma omap_paths (n : Node Matrix4) cs :
  Forall (λ c, traverse c = omap (meshAt c) (meshPaths c)) cs →
  ∀ pre, childrenOf n = pre ++ cs →
  omap (meshAt n) (pathsFrom meshPaths (length pre) cs) = cs ≫= traverse.
Proof.
  induction 1 as [|c cs Hc _ IH]; intros pre Hn; [done|].
  cbn [pathsFrom]. rewrite omap_app, bind_cons. f_equal.
  - rewrite Hc. generalize (meshPaths c). intros paths.
    induction paths as [|p paths IHp]; [done|].
    rewrite fmap_cons.
    change (omap ?f (?x :: ?l)) with
      (match f x with Some y => y :: omap f l | None => omap f l end).
    rewrite meshAt_cons, Hn, lookup_app_r, Nat.sub_diag by done.
    cbn [lookup list_lookup mbind option_bind]. by rewrite IHp.
  - specialize (IH (pre ++ [c])). rewrite length_app in IH. simpl in IH.
    rewrite Nat.add_1_r in IH. apply IH. by rewrite <- app_assoc.
Qed.

(** [traverse] visits the meshes at the paths of [meshPaths], in their
    order. *)
Lemma traverse_paths (n : Node Matrix4) :
  traverse n = omap (meshAt n) (meshPaths n).
Proof.
  induction n as [g mw cs IH|cs IH] using Node_induction.
  - rewrite traverse_mesh. cbn [meshPaths].
    change (omap ?f (?x :: ?l)) with
      (match f x with Some y => y :: omap f l | None => omap f l end).
    rewrite meshAt_nil. f_equal. symmetry. by apply (omap_paths _ cs IH []).
  - rewrite traverse_children. cbn [meshPaths]. symmetry.
    by apply (omap_paths _ cs IH []).
Qed.

Lemma elem_of_pathsFrom {A} (f : A → list (list nat)) cs : ∀ i path,
  path ∈ pathsFrom f i cs
  ↔ ∃ j c path', path = (i + j)%nat :: path' ∧ cs !! j = Some c ∧ path' ∈ f c.
Proof.
  induction cs as [|c cs IH]; intros i path; cbn [pathsFrom].
  - split; [by intros ?%elem_of_nil|]. by intros (j & ? & ? & _ & ? & _).
  - rewrite elem_of_app, list_elem_of_fmap, IH. split.
    + intros [(path' & -> & Hin)|(j & c' & path' & -> & Hj & Hin)].
      * exists 0%nat, c, path'. by rewrite Nat.add_0_r.
      * exists (S j), c', path'. split; [f_equal; lia|done].
    + intros ([|j] & c' & path' & -> & Hj & Hin).
      * left. simpl in Hj. injection Hj as <-. exists path'.
        by rewrite Nat.add_0_r.
      * right. exists j, c', path'. split; [f_equal; lia|done].
Qed.

(** The paths of [meshPaths] are those that lead to a mesh. *)
Lemma elem_of_meshPaths (n : Node Matrix4) : ∀ path,
  path ∈ meshPaths n ↔ is_Some (meshAt n path).
Proof.
  induction n as [g mw cs IH|cs IH] using Node_induction; intros path.
  - cbn [meshPaths]. rewrite elem_of_cons, elem_of_pathsFrom.
    destruct path as [|i path].
    + rewrite meshAt_nil. split; [by eexists|by left].
    + rewrite meshAt_cons. cbn [childrenOf]. split.
      * intros [?|(j & c & path' & [= -> ->] & Hj & Hin)]; [done|].
        rewrite Hj. cbn [mbind option_bind].
        rewrite Forall_forall in IH. apply IH; [|done].
        by eapply list_elem_of_lookup_2.
      * intros Hsome. right. destruct (cs !! i) as [c|] eqn:Hi;
          [|by destruct Hsome].
        exists i, c, path. split; [done|]. split; [done|].
        rewrite Forall_forall in IH. apply IH; [|done].
        by eapply list_elem_of_lookup_2.
  - cbn [meshPaths]. rewrite elem_of_pathsFrom.
    destruct path as [|i path].
    + rewrite meshAt_nil. split; [by intros (? & ? & ? & ? & _)|by intros []].
    + rewrite meshAt_cons. cbn [childrenOf]. split.
      * intros (j & c & path' & [= -> ->] & Hj & Hin).
        rewrite Hj. cbn [mbind option_bind].
        rewrite Forall_forall in IH. apply IH; [|done].
        by eapply list_elem_of_lookup_2.
      * intros Hsome. destruct (cs !! i) as [c|] eqn:Hi; [|by destruct Hsome].
        exists i, c, path. split; [done|]. split; [done|].
        rewrite Forall_forall in IH. apply IH; [|done].
        by eapply list_elem_of_lookup_2.
Qed.

Lemma NoDup_pathsFrom {A} (f : A → list (list nat)) cs :
  Forall (λ c, NoDup (f c)) cs → ∀ i, NoDup (pathsFrom f i cs).
Proof.
  induction 1 as [|c cs Hc _ IH]; intros i; cbn [pathsFrom]; [constructor|].
  apply NoDup_app. split; [|split; [|apply IH]].
  - apply NoDup_fmap; [|done]. by intros ?? [= ->].
  - intros path [path' [-> _]]%list_elem_of_fmap
      (j & c' & path'' & [= Hij _] & _)%elem_of_pathsFrom. lia.
Qed.

(** No path is listed twice. *)
Lemma NoDup_meshPaths (n : Node Matrix4) : NoDup (meshPaths n).
Proof.
  induction n as [g mw cs IH|cs IH] using Node_induction; cbn [meshPaths].
  - apply NoDup_cons. split; [|by apply NoDup_pathsFrom].
    by intros (? & ? & ? & ? & _)%elem_of_pathsFrom.
  - by apply NoDup_pathsFrom.
Qed.

(** The matrix three.js leaves in [matrixWorld] is the accumulated one. *)
Lemma world_accumulated path : ∀ parentWorld (scene : Object Matrix4) mesh,
  meshAt (updateMatrixWorld multiplyMatrices parentWorld scene) path = Some mesh →
  accumulated multiplyMatrices parentWorld scene path = Some mesh.2.
Proof.
  induction path as [|i path IH]; intros parentWorld scene mesh.
  - rewrite meshAt_nil. destruct scene; simpl; [by intros [= <-]|done].
  - rewrite meshAt_cons. cbn [accumulated].
    assert (childrenOf (updateMatrixWorld multiplyMatrices parentWorld scene)
            = updateMatrixWorld multiplyMatrices
                (multiplyMatrices parentWorld (objectMatrix scene))
              <$> objectChildren scene) as -> by (by destruct scene).
    rewrite list_lookup_fmap.
    destruct (objectChildren scene !! i) as [c|]; [|done].
    cbn [fmap option_fmap option_map mbind option_bind]. apply IH.
Qed.

Lemma bind_omap {A B C} (f : A → option B) (g : B → list C) l :
  omap f l ≫= g = l ≫= (λ x, match f x with Some y => g y | None => [] end).
Proof.
  induction l as [|x l IH]; [done|].
  change (omap f (x :: l)) with
    (match f x with Some y => y :: omap f l | None => omap f l end).
  rewrite (bind_cons _ x l). destruct (f x); [|done].
  by rewrite bind_cons, IH.
Qed.


End WorldFacts.

Section WorldExamples.

Import StlExporter ExactThree SceneGraph.


End WorldExamples.

(** ** The export button *)

Section TimestampFacts.

Import Renderer.

Lemma replace_class_app p c a b :
  replace_class p c (a +:+ b) = replace_class p c a +:+ replace_class p c b.
Proof. induction a as [|x a IH]; [done|]. rewrite !app_cons_s. simpl. by rewrite IH. Qed.

Lemma replace_class_id p c s :
  all_chars (λ x, negb (p x)) s = true → replace_class p c s = s.
Proof.
  induction s as [|x s IH]; [done|]. simpl.
  intros [Hx Hs]%andb_true_iff. apply negb_true_iff in Hx. by rewrite Hx, IH.
Qed.

Lemma slice_end_app a b n : String.length b = n → slice_end n (a +:+ b) = a.
Proof.
  intros <-. unfold slice_end, Js.substring_to. rewrite length_app_s.
  replace (String.length a + String.length b - String.length b)%nat
    with (String.length a) by lia.
  apply substring_app.
Qed.

(** X25.  On the text of [toISOString], the date, a [T], the time with
    colons, a point, three digits and a [Z], the time stamp of a file name
    is the date and the time to the second, with dashes for the colons. *)
Theorem timestamp_to_the_second date h m s ms :
  unmarked date = true → unmarked h = true → unmarked m = true →
  unmarked s = true → String.length ms = 3%nat →
  timestamp (date +:+ "T" +:+ h +:+ ":" +:+ m +:+ ":" +:+ s +:+ "." +:+ ms +:+ "Z")
  = date +:+ "T" +:+ h +:+ "-" +:+ m +:+ "-" +:+ s.
Proof.
  intros Hd Hh Hm Hs Hms. unfold timestamp.
  rewrite !replace_class_app.
  rewrite (replace_class_id _ _ date), (replace_class_id _ _ h),
    (replace_class_id _ _ m), (replace_class_id _ _ s) by done.
  change (replace_class _ "-" "T") with "T"%string.
  change (replace_class _ "-" ":") with "-"%string.
  change (replace_class _ "-" ".") with "-"%string.
  replace (date +:+ "T" +:+ h +:+ "-" +:+ m +:+ "-" +:+ s +:+ "-" +:+
           replace_class (λ c, Ascii.eqb c ":" || Ascii.eqb c ".") "-" ms +:+
           replace_class (λ c, Ascii.eqb c ":" || Ascii.eqb c ".") "-" "Z")
    with ((date +:+ "T" +:+ h +:+ "-" +:+ m +:+ "-" +:+ s) +:+ "-" +:+
           replace_class (λ c, Ascii.eqb c ":" || Ascii.eqb c ".") "-" ms +:+
           replace_class (λ c, Ascii.eqb c ":" || Ascii.eqb c ".") "-" "Z")
    by (by rewrite !app_assoc_s).
  apply slice_end_app.
  destruct ms as [|? [|? [|? [|]]]]; done.
Qed.

End TimestampFacts.

Section HandlerFacts.

Import StlExporter Renderer.

Context {Matrix4 : Type}.
Variable applyMatrix4 : Vector3 → Matrix4 → Vector3.
Variable extractRotation : Matrix4 → Matrix4.
Variable normalize : Vector3 → Vector3.
Variable toString : num → string.
Variable typeErrorMessage : string.

Abbreviation handleExportSTL' :=
  (handleExportSTL applyMatrix4 extractRotation normalize toString typeErrorMessage).

(** X26.  With a model of well-formed meshes the export button clears the
    error, leaves [isExporting] off and hands the browser one file, named
    after the time stamp, with the text of the scene. *)
Theorem export_handler_success now group st d :
  traverse group ≠ [] →
  Forall (λ mesh, wellFormed mesh.1 = true) (traverse group) →
  handleExportSTL' now (Some group) st d
  = ({| error := EmptyString; isExporting := false |},
     d ++ [(filename now,
            unlines (stlLines toString
                       (sceneFacets applyMatrix4 extractRotation normalize group)))]).
Proof.
  intros Hne Hwf. unfold handleExportSTL, exportToSTL.
  by rewrite (generateSTL_facets applyMatrix4 extractRotation normalize toString).
Qed.

(** X27.  With a model that holds no mesh the export button downloads
    nothing and shows the message of the error, [No meshes to export]. *)
Theorem export_handler_no_mesh now group st d :
  traverse group = [] →
  handleExportSTL' now (Some group) st d
  = ({| error := "No meshes to export"; isExporting := false |}, d).
Proof.
  intros Hnil. unfold handleExportSTL, exportToSTL, generateSTL. by rewrite Hnil.
Qed.

End HandlerFacts.

(** ** Examples *)

Section ConverterExamples.

Import Converter.

Lemma scene_never_empty_witness :
  parseOpenSCADToThreeJS "sphere(5);"
  = Ok (Group zero3 no_rotation
          [new_Mesh (SphereGeometry (of_Z 5) 32 32) (material 0x764ba2)])
  ∧ ∃ cs,
      Group zero3 no_rotation
        [new_Mesh (SphereGeometry (of_Z 5) 32 32) (material 0x764ba2)]
      = Group zero3 no_rotation cs
      ∧ (1 ≤ length cs ≤ length (Js.split "010" (cleanCode "sphere(5);")))%nat.
Proof.
  split; [vm_compute; reflexivity|].
  apply (scene_never_empty "sphere(5);"). vm_compute. reflexivity.
Defined.

Lemma scene_is_flat_witness :
  parseOpenSCADToThreeJS "rotate([0,0,90])"
  = Ok (Group zero3 no_rotation
          [Group zero3 (euler (of_Z 0) (of_Z 0) (Fin (1 # 2))) []])
  ∧ Forall (λ o, flatObject o = true)
      (children (Group zero3 no_rotation
                   [Group zero3 (euler (of_Z 0) (of_Z 0) (Fin (1 # 2))) []])).
Proof.
  split; [vm_compute; reflexivity|].
  apply (scene_is_flat "rotate([0,0,90])"). vm_compute. reflexivity.
Defined.

Lemma cleanCode_without_comments_witness :
  Js.includes "cube(5);" "//" = false
  ∧ Js.includes "cube(5);" "/*" = false
  ∧ cleanCode "cube(5);" = "cube(5);"%string.
Proof.
  split; [reflexivity|]. split; [reflexivity|].
  apply (cleanCode_without_comments "cube(5);"); reflexivity.
Defined.

Lemma blank_source_throws_witness :
  all_chars Js.is_space "   " = true
  ∧ parseOpenSCADToThreeJS "   " = Throw no_primitives.
Proof.
  split; [reflexivity|]. apply (blank_source_throws "   "). reflexivity.
Defined.

Lemma trailing_comment_ignored_witness :
  all_chars (no_char "/") "cube(5);" = true
  ∧ all_chars (no_char "010") " a cube" = true
  ∧ parseOpenSCADToThreeJS ("cube(5);" +:+ "//" +:+ " a cube")
    = parseOpenSCADToThreeJS "cube(5);".
Proof.
  split; [reflexivity|]. split; [reflexivity|].
  apply (trailing_comment_ignored "cube(5);" " a cube"); reflexivity.
Defined.

Lemma block_comment_ignored_witness :
  all_chars (no_char "/") "cube(5);" = true
  ∧ all_chars (no_char "/") " the ball " = true
  ∧ all_chars (no_char "/") "sphere(2);" = true
  ∧ parseOpenSCADToThreeJS ("cube(5);" +:+ "/*" +:+ " the ball " +:+ "*/" +:+ "sphere(2);")
    = parseOpenSCADToThreeJS ("cube(5);" +:+ "sphere(2);").
Proof.
  split; [reflexivity|]. split; [reflexivity|]. split; [reflexivity|].
  apply (block_comment_ignored "cube(5);" " the ball " "sphere(2);"); reflexivity.
Defined.

Lemma sphere_named_or_positional_witness :
  numeral "5" = true
  ∧ parseSphere "sphere(5)"
    = Some (new_Mesh (SphereGeometry (of_Z 5) 32 32) (material 0x764ba2))
  ∧ parseSphere "sphere(r=5)"
    = Some (new_Mesh (SphereGeometry (of_Z 5) 32 32) (material 0x764ba2)).
Proof.
  split; [reflexivity|].
  apply (sphere_named_or_positional "5"). reflexivity.
Defined.

Lemma cube_single_size_witness :
  numeral "0" = true
  ∧ parseCube "cube(0)" = Some (cubeMesh (vec3 (of_Z 0) (of_Z 0) (of_Z 0))).
Proof.
  split; [reflexivity|]. apply (cube_single_size "0"). reflexivity.
Defined.

Lemma cylinder_without_equals_witness :
  all_chars (no_char "=") "cylinder(8, 3)" = true
  ∧ parseCylinder "cylinder(8, 3)"
    = Some (cylinderMesh (of_Z 1) (of_Z 1) (of_Z 1)).
Proof.
  split; [reflexivity|]. apply (cylinder_without_equals "cylinder(8, 3)").
  reflexivity.
Defined.

Lemma cylinder_named_witness :
  numeral "10" = true ∧ numeral "5" = true
  ∧ parseCylinder "cylinder(h=10, r=5)"
    = Some (cylinderMesh (of_Z 5) (of_Z 5) (of_Z 10)).
Proof.
  split; [reflexivity|]. split; [reflexivity|].
  apply (cylinder_named "10" "5"); reflexivity.
Defined.

Lemma cylinder_cone_witness :
  numeral "10" = true ∧ numeral "5" = true ∧ numeral "2" = true
  ∧ parseCylinder "cylinder(h=10, r1=5, r2=2)"
    = Some (cylinderMesh (of_Z 2) (of_Z 5) (of_Z 10)).
Proof.
  split; [reflexivity|]. split; [reflexivity|]. split; [reflexivity|].
  apply (cylinder_cone "10" "5" "2"); reflexivity.
Defined.

Lemma difference_keeps_one_cube_witness :
  parseDifference "difference() { cube(5); sphere(2); }"
  = Some (Group zero3 no_rotation
            [set_material (cubeMesh (vec3 (of_Z 5) (of_Z 5) (of_Z 5)))
                          (material 0xed8936)])
  ∧ (Group zero3 no_rotation
       [set_material (cubeMesh (vec3 (of_Z 5) (of_Z 5) (of_Z 5)))
                     (material 0xed8936)]
     = new_Group
     ∨ ∃ params,
         Group zero3 no_rotation
           [set_material (cubeMesh (vec3 (of_Z 5) (of_Z 5) (of_Z 5)))
                         (material 0xed8936)]
         = Group zero3 no_rotation
             [Mesh (BoxGeometry (vx (cubeSize params)) (vy (cubeSize params))
                                (vz (cubeSize params)))
                   (material 0xed8936) (vhalf (cubeSize params)) no_rotation]).
Proof.
  split; [vm_compute; reflexivity|].
  apply (difference_keeps_one_cube "difference() { cube(5); sphere(2); }").
  vm_compute. reflexivity.
Defined.

Lemma translate_child_on_next_line_witness :
  numeral "1" = true ∧ numeral "2" = true ∧ numeral "3" = true
  ∧ numeral "5" = true
  ∧ parseOpenSCADToThreeJS
      (on_lines [vectorCall "translate" ["1"; "2"; "3"]%string; "sphere(5);"%string])
    = Ok (Group zero3 no_rotation
            [Group (vec3 (of_Z 1) (of_Z 2) (of_Z 3)) no_rotation
               [new_Mesh (SphereGeometry (of_Z 5) 32 32) (material 0x764ba2)];
             new_Mesh (SphereGeometry (of_Z 5) 32 32) (material 0x764ba2)]).
Proof.
  do 4 (split; [reflexivity|]).
  apply (translate_child_on_next_line "1" "2" "3" "5"); reflexivity.
Defined.

Lemma rotate_child_on_next_line_witness :
  numeral "0" = true ∧ numeral "90" = true ∧ numeral "5" = true
  ∧ parseOpenSCADToThreeJS
      (on_lines [vectorCall "rotate" ["0"; "0"; "90"]%string; "sphere(5);"%string])
    = Ok (Group zero3 no_rotation
            [Group zero3 (euler (of_Z 0) (of_Z 0) (Fin (1 # 2)))
               [new_Mesh (SphereGeometry (of_Z 5) 32 32) (material 0x764ba2)];
             new_Mesh (SphereGeometry (of_Z 5) 32 32) (material 0x764ba2)]).
Proof.
  do 3 (split; [reflexivity|]).
  apply (rotate_child_on_next_line "0" "0" "90" "5"); reflexivity.
Defined.

Lemma vars_cube_resolves_witness :
  (2 ≤ length ["w"; "w"; "2"]%string)%nat
  ∧ Forall (λ s, plain s = true) ["w"; "w"; "2"]%string
  ∧ ConverterVars.parseCube "cube([w,w,2])" {[ "w"%string := of_Z 7 ]}
    = Some (cubeMesh (vec3 (of_Z 7) (of_Z 7) (of_Z 2)))
  ∧ ConverterVars.parseCube "cube([w,w,2])" ∅ = parseCube "cube([w,w,2])".
Proof.
  assert (2 ≤ length ["w"; "w"; "2"]%string)%nat as Hlen by (simpl; lia).
  assert (Forall (λ s, plain s = true) ["w"; "w"; "2"]%string) as Hall
    by (by repeat constructor).
  destruct (vars_cube_resolves ["w"; "w"; "2"]%string {[ "w"%string := of_Z 7 ]}
              Hlen Hall) as [Hcube Hsame].
  split; [exact Hlen|]. split; [exact Hall|].
  split; [|exact Hsame].
  etrans; [exact Hcube|]. vm_compute. reflexivity.
Defined.

Lemma variable_assignment_witness :
  all_chars Js.is_word "size" = true ∧ "size"%string ≠ EmptyString
  ∧ all_chars Js.is_space " " = true ∧ all_chars Js.is_space EmptyString = true
  ∧ numeral "10" = true
  ∧ ConverterVars.extractVariables "size = 10;" = {[ "size"%string := of_Z 10 ]}.
Proof.
  split; [reflexivity|]. split; [discriminate|]. split; [reflexivity|].
  split; [reflexivity|]. split; [reflexivity|].
  apply (variable_assignment "size" " " " " "10" EmptyString);
    reflexivity || discriminate.
Defined.

Lemma linear_extrude_height_witness :
  numeral "15" = true
  ∧ ConverterVars.parseLinearExtrude "linear_extrude(height=15) square(5);" ∅
    = Some (new_Mesh (BoxGeometry (of_Z 20) (of_Z 20) (of_Z 15))
                     (ConverterVars.material 0x10b981 (85 # 100))).
Proof.
  split; [reflexivity|].
  etrans; [apply (linear_extrude_height "15" " square(5);" ∅); reflexivity|].
  vm_compute. reflexivity.
Defined.

End ConverterExamples.

Section ExportExamples.

Import StlExporter ExactThree Renderer.

Lemma stl_framed_witness :
  ExactThree.generateSTL (MeshNode soupTriangle identity [])
  = Return (unlines (stlLines toString
      [(point 0 0 1, (point 0 0 0, point 1 0 0, point 0 1 0))]))
  ∧ ∃ body,
      unlines (stlLines toString
        [(point 0 0 1, (point 0 0 0, point 1 0 0, point 0 1 0))])
      = "solid model" +:+ nl +:+ body +:+ "endsolid model" +:+ nl.
Proof.
  split; [vm_compute; reflexivity|].
  apply (stl_framed applyMatrix4 extractRotation normalize toString
           (MeshNode soupTriangle identity [])).
  vm_compute. reflexivity.
Defined.

Lemma export_errors_witness :
  ExactThree.generateSTL danglingScene = Throw TypeError
  ∧ (traverse danglingScene = [] ∧ TypeError = Error "No meshes to export"
     ∨ traverse danglingScene ≠ [] ∧ TypeError = TypeError).
Proof.
  split; [vm_compute; reflexivity|].
  apply (export_errors applyMatrix4 extractRotation normalize toString danglingScene).
  vm_compute. reflexivity.
Defined.

Lemma broken_index_throws_witness :
  (danglingGeometry, identity) ∈ traverse danglingScene
  ∧ position danglingGeometry = Some [point 0 0 0; point 1 0 0; point 0 1 0]
  ∧ index danglingGeometry = Some [0; 1; 5]%nat
  ∧ brokenIndex 3 [0; 1; 5]%nat
  ∧ exportToSTL applyMatrix4 extractRotation normalize toString
      danglingScene "model.stl" []
    = (Throw TypeError, []).
Proof.
  assert ((danglingGeometry, identity) ∈ traverse danglingScene) as Hin.
  { apply list_elem_of_further, list_elem_of_here. }
  assert (brokenIndex 3 [0; 1; 5]%nat) as Hbroken.
  { right. exists 5%nat. split; [|lia].
    apply list_elem_of_further, list_elem_of_further, list_elem_of_here. }
  split; [exact Hin|]. split; [reflexivity|]. split; [reflexivity|].
  split; [exact Hbroken|].
  apply (broken_index_throws applyMatrix4 extractRotation normalize toString
           danglingScene (danglingGeometry, identity)
           [point 0 0 0; point 1 0 0; point 0 1 0] [0; 1; 5]%nat "model.stl" []);
    [exact Hin|reflexivity|reflexivity|exact Hbroken].
Defined.

Lemma positionless_meshes_empty_solid_witness :
  traverse bareScene ≠ []
  ∧ Forall (λ mesh : BufferGeometry * Matrix4, position mesh.1 = None)
      (traverse bareScene)
  ∧ ExactThree.generateSTL bareScene
    = Return ("solid model" +:+ nl +:+ "endsolid model" +:+ nl).
Proof.
  split; [done|]. split; [by repeat constructor|].
  apply (positionless_meshes_empty_solid applyMatrix4 extractRotation normalize
           toString bareScene); [done|by repeat constructor].
Defined.

Lemma export_downloads_once_witness :
  traverse demoScene ≠ []
  ∧ Forall (λ mesh, wellFormed mesh.1 = true) (traverse demoScene)
  ∧ exportToSTL applyMatrix4 extractRotation normalize toString
      demoScene "model.stl" [("old.stl", "solid old")]%string
    = (Return (),
       [("old.stl", "solid old")]%string
       ++ [("model.stl"%string,
            unlines (stlLines toString
                       (sceneFacets applyMatrix4 extractRotation normalize demoScene)))]).
Proof.
  split; [done|]. split; [by repeat constructor|].
  apply (export_downloads_once applyMatrix4 extractRotation normalize toString
           demoScene "model.stl" [("old.stl", "solid old")]%string);
    [done|by repeat constructor].
Defined.

Lemma timestamp_to_the_second_witness :
  unmarked "2024-05-06" = true ∧ unmarked "07" = true ∧ unmarked "08" = true
  ∧ unmarked "09" = true ∧ String.length "123" = 3%nat
  ∧ timestamp "2024-05-06T07:08:09.123Z" = "2024-05-06T07-08-09"%string.
Proof.
  do 5 (split; [reflexivity|]).
  apply (timestamp_to_the_second "2024-05-06" "07" "08" "09" "123"); reflexivity.
Defined.

Lemma export_handler_success_witness :
  traverse demoScene ≠ []
  ∧ Forall (λ mesh, wellFormed mesh.1 = true) (traverse demoScene)
  ∧ handleExportSTL applyMatrix4 extractRotation normalize toString
      "Cannot read properties of undefined" "2024-05-06T07:08:09.123Z"
      (Some demoScene) {| error := "No model to export"; isExporting := false |} []
    = ({| error := EmptyString; isExporting := false |},
       [] ++ [(filename "2024-05-06T07:08:09.123Z",
               unlines (stlLines toString
                          (sceneFacets applyMatrix4 extractRotation normalize
                                       demoScene)))]).
Proof.
  split; [done|]. split; [by repeat constructor|].
  apply (export_handler_success applyMatrix4 extractRotation normalize toString
           "Cannot read properties of undefined" "2024-05-06T07:08:09.123Z"
           demoScene {| error := "No model to export"; isExporting := false |} []);
    [done|by repeat constructor].
Defined.

Lemma export_handler_no_mesh_witness :
  traverse emptyScene = []
  ∧ handleExportSTL applyMatrix4 extractRotation normalize toString
      "Cannot read properties of undefined" "2024-05-06T07:08:09.123Z"
      (Some emptyScene) {| error := EmptyString; isExporting := false |} []
    = ({| error := "No meshes to export"; isExporting := false |}, []).
Proof.
  split; [reflexivity|].
  apply (export_handler_no_mesh applyMatrix4 extractRotation normalize toString
           "Cannot read properties of undefined" "2024-05-06T07:08:09.123Z"
           emptyScene {| error := EmptyString; isExporting := false |} []).
  reflexivity.
Defined.

End ExportExamples.
